(** * cloud_drive: the dashboard client and the storage contracts it relies on

    A shallow embedding of the TypeScript front end (path handling, the
    file filter, the file-operation hooks, the delete flow of the
    dashboard) together with the parts of the storage engine that the
    front end only calls over HTTP. *)

From Stdlib Require Import ZArith NArith List Bool Lia String Ascii DecimalString.
From Stdlib Require Import Sorted Permutation Floats.
From stdpp Require Import base option list gmap sets.

Local Open Scope Z_scope.

(** ** JavaScript strings

    A JavaScript string is a sequence of UTF-16 code units.  Literals of
    the source are ASCII and are written with [js]. *)

Abbreviation jsstring := (list N).

Definition js (s : string) : jsstring :=
  List.map N_of_ascii (list_ascii_of_string s).

Definition slash : N := 47%N.

(** [!s] on a string: only the empty string is falsy. *)
Definition truthy (s : jsstring) : bool :=
  match s with [] => false | _ :: _ => true end.

(** [a || b] on strings. *)
Definition or_else (a b : jsstring) : jsstring :=
  if truthy a then a else b.

(** [s?.x || d] where the left side may be [undefined]. *)
Definition opt_or_else (a : option jsstring) (b : jsstring) : jsstring :=
  match a with Some s => or_else s b | None => b end.

Definition jsstring_eqb (a b : jsstring) : bool :=
  bool_decide (a = b).

(** [s.startsWith(p)] *)
Fixpoint startsWith (s p : jsstring) {struct p} : bool :=
  match p, s with
  | [], _ => true
  | _ :: _, [] => false
  | c :: p', d :: s' => (c =? d)%N && startsWith s' p'
  end.

(** [s.endsWith(p)] *)
Definition endsWith (s p : jsstring) : bool :=
  startsWith (rev s) (rev p).

(** [s.includes(p)] *)
Fixpoint includes (s p : jsstring) : bool :=
  startsWith s p ||
  match s with
  | [] => false
  | _ :: s' => includes s' p
  end.

(** [s.split(sep)] for a one-character separator. *)
Fixpoint split (sep : N) (s : jsstring) : list jsstring :=
  match s with
  | [] => [[]]
  | c :: s' =>
      if (c =? sep)%N then [] :: split sep s'
      else match split sep s' with
           | [] => [[c]]
           | w :: ws => (c :: w) :: ws
           end
  end.

(** [s.lastIndexOf(c)]: [None] stands for -1. *)
Fixpoint lastIndexOf (c : N) (s : jsstring) : option nat :=
  match s with
  | [] => None
  | d :: s' =>
      match lastIndexOf c s' with
      | Some i => Some (S i)
      | None => if (d =? c)%N then Some O else None
      end
  end.

(** [s.substring(0, e)]; a negative end is clamped to 0. *)
Definition substring0 (s : jsstring) (e : option nat) : jsstring :=
  match e with
  | Some n => firstn n s
  | None => []
  end.

(** White space and line terminators removed by [String.prototype.trim]. *)
Definition is_js_space (c : N) : bool :=
  ((9 <=? c) && (c <=? 13) || (c =? 32) || (c =? 160) || (c =? 5760)
   || (8192 <=? c) && (c <=? 8202) || (c =? 8232) || (c =? 8233)
   || (c =? 8239) || (c =? 8287) || (c =? 12288) || (c =? 65279))%N.

Fixpoint trimStart (s : jsstring) : jsstring :=
  match s with
  | c :: s' => if is_js_space c then trimStart s' else s
  | [] => []
  end.

Definition trimEnd (s : jsstring) : jsstring := rev (trimStart (rev s)).

(** [s.trim()] *)
Definition trim (s : jsstring) : jsstring := trimEnd (trimStart s).

(** ** Wire types (types/index.ts) *)

Inductive FileType := FtFile | FtFolder.   (* 'file' | 'folder' *)

#[global] Instance FileType_eq_dec : EqDecision FileType.
Proof. solve_decision. Defined.

Record FileItem := {
  id : Z;
  name : jsstring;
  path : jsstring;
  file_type : FileType;
  size_bytes : option Z;
  mime_type : option jsstring;
  created_at : jsstring;
  updated_at : jsstring;
  can_read : bool;
  can_write : bool;
  can_delete : bool;
  is_owner : bool
}.

Inductive SortOption := SortName | SortSize | SortDate.
Inductive CategoryOption := CatAll | CatRecent | CatImages | CatVideos | CatDocuments.

Record CalculateSizeResponse := {
  total_size_bytes : Z;
  file_count : Z;
  folder_count : Z
}.

(** ** Breadcrumbs.tsx *)

Module Breadcrumbs.

Record Crumb := { crumb_name : jsstring; crumb_path : jsstring }.

Definition root_crumb : Crumb :=
  {| crumb_name := js "My Files"; crumb_path := js "/" |}.

(** The [for (const part of parts)] loop: [accumulatedPath] is threaded
    through, one crumb is pushed per part. *)
Fixpoint push_parts (accumulatedPath : jsstring) (parts : list jsstring)
  : list Crumb :=
  match parts with
  | [] => []
  | part :: rest =>
      let accumulatedPath' := accumulatedPath ++ slash :: part in
      {| crumb_name := part; crumb_path := accumulatedPath' |}
        :: push_parts accumulatedPath' rest
  end.

Definition getBreadcrumbs (currentPath : jsstring) : list Crumb :=
  if jsstring_eqb currentPath (js "/") then [root_crumb]
  else
    let parts := List.filter truthy (split slash currentPath) in
    root_crumb :: push_parts [] parts.

End Breadcrumbs.

(** The normal form of section 4.1, written after the specification's
    words: runs of separators collapse to one, and a trailing separator
    is stripped unless the path is the root. *)
Module PathSpec.

Fixpoint collapse_slashes (s : jsstring) : jsstring :=
  match s with
  | c1 :: s' =>
      match s' with
      | c2 :: _ =>
          if (c1 =? slash)%N && (c2 =? slash)%N then collapse_slashes s'
          else c1 :: collapse_slashes s'
      | [] => [c1]
      end
  | [] => []
  end.

Definition strip_trailing_slash (s : jsstring) : jsstring :=
  if jsstring_eqb s (js "/") then s
  else if endsWith s (js "/") then removelast s
  else s.

Definition normalize (s : jsstring) : jsstring :=
  strip_trailing_slash (collapse_slashes s).

(** The segments a path is made of. *)
Definition segments (s : jsstring) : list jsstring :=
  List.filter truthy (split slash s).

Definition join (segs : list jsstring) : jsstring :=
  concat (List.map (fun p => slash :: p) segs).

(** [root / name1 / ... / name] *)
Definition recompose (segs : list jsstring) : jsstring :=
  match segs with
  | [] => js "/"
  | _ :: _ => join segs
  end.

(** The inverse of [split]: the parts joined by single separators. *)
Fixpoint unsplit (parts : list jsstring) : jsstring :=
  match parts with
  | [] => []
  | p :: ps =>
      match ps with
      | [] => p
      | _ :: _ => p ++ slash :: unsplit ps
      end
  end.

(** The separator left at the end when the last part is empty. *)
Definition trailing (parts : list jsstring) : jsstring :=
  if truthy (List.last parts []) then [] else [slash].

Definition is_dot_segment (p : jsstring) : bool :=
  jsstring_eqb p (js ".") || jsstring_eqb p (js "..").

End PathSpec.

(** ** FileSelectorModal.tsx *)

Module FileSelectorModal.

Record State := {
  currentPath : jsstring;
  selectedPath : option jsstring     (* null when nothing is selected *)
}.

(** [handleBack]: the path navigated to, if any. *)
Definition handleBack (st : State) : option jsstring :=
  if jsstring_eqb (currentPath st) (js "/") then None
  else
    let parentPath :=
      or_else (substring0 (currentPath st) (lastIndexOf slash (currentPath st)))
              (js "/") in
    Some parentPath.

(** [handleConfirm]: [Some p] when [onSelect(p)] is called. *)
Definition handleConfirm (excludePath : option jsstring) (st : State)
  : option jsstring :=
  let targetPath := opt_or_else (selectedPath st) (currentPath st) in
  match excludePath with
  | Some ex =>
      if truthy ex && startsWith targetPath ex then None
      else Some targetPath
  | None => Some targetPath
  end.

(** [isExcluded] of the folder list: such rows are disabled. *)
Definition isExcluded (excludePath : option jsstring) (folder : FileItem) : bool :=
  match excludePath with
  | Some ex =>
      truthy ex &&
      (jsstring_eqb (path folder) ex || startsWith (path folder) (ex ++ js "/"))
  | None => false
  end.

End FileSelectorModal.

(** ** JavaScript numbers

    A number is a binary64 floating-point value; division and
    comparison are those of the standard. *)

(** The number nearest to [p / q], for [0 <= p] and [0 < q], a tie
    going to the even significand; [negative] gives the sign. *)
Definition nearest_number (negative : bool) (p q : Z) : float :=
  if p =? 0 then (if negative then (-0)%float else 0%float)
  else
    let e0 := Z.log2 p - Z.log2 q - 52 in
    let below :=
      if 0 <=? e0 then p / (q * 2 ^ e0) <? 2 ^ 52
      else p * 2 ^ (- e0) / q <? 2 ^ 52 in
    let e := Z.max (if below then e0 - 1 else e0) (-1074) in
    let num := if 0 <=? e then p else p * 2 ^ (- e) in
    let den := if 0 <=? e then q * 2 ^ e else q in
    let m := num / den in
    let r := num mod den in
    let m' := if (den <? 2 * r) || ((den =? 2 * r) && Z.odd m) then m + 1 else m in
    let magnitude := Z.ldexp (PrimFloat.of_uint63 (Uint63.of_Z m')) e in
    if negative then (- magnitude)%float else magnitude.

(** The integer [z] as a number. *)
Definition Number_of_Z (z : Z) : float := nearest_number (z <? 0) (Z.abs z) 1.

(** [Math.floor(x)] *)
Definition Math_floor (x : float) : float :=
  match Prim2SF x with
  | S754_finite negative m e =>
      if 0 <=? e then x
      else
        let q := Zpos m / 2 ^ (- e) in
        let r := Zpos m mod 2 ^ (- e) in
        if r =? 0 then x
        else if negative then Number_of_Z (- (q + 1))
        else Number_of_Z q
  | _ => x
  end.

(** [a[i]] for a number [i]: the element when [i] is one of the indices
    of [a], [undefined] otherwise. *)
Definition Array_at {A} (a : list A) (i : float) : option A :=
  match List.find (fun k => PrimFloat.eqb i (Number_of_Z (Z.of_nat k)))
                  (seq 0 (length a)) with
  | Some k => nth_error a k
  | None => None
  end.

(** [!x] is false *)
Definition Number_truthy (x : float) : bool :=
  negb (PrimFloat.is_nan x || PrimFloat.eqb x 0).

(** ** The JavaScript runtime

    Library functions whose result depends on the engine, the locale or
    the clock are taken from the environment. *)

Class Runtime := {
  (** [s.toLowerCase()] *)
  toLowerCase : jsstring -> jsstring;
  (** [a.localeCompare(b)]: negative, zero or positive *)
  localeCompare : jsstring -> jsstring -> Z;
  (** [new Date(s).getTime()] in milliseconds; [None] is [NaN] *)
  Date_getTime : jsstring -> option Z;
  (** [new Date().getTime()] *)
  Date_now : Z;
  (** capture group 1 of the [filename*=UTF-8] pattern applied to the
      content-disposition header, [None] without a match *)
  match_filename_star : jsstring -> option jsstring;
  (** capture group 1 of the plain [filename=] pattern *)
  match_filename : jsstring -> option jsstring;
  (** [decodeURIComponent(s)]; [None] when it throws [URIError] *)
  decodeURIComponent : jsstring -> option jsstring;
  (** [Math.log(x)] and [Math.pow(x, y)], which an engine approximates *)
  Math_log : float -> float;
  Math_pow : float -> float -> float;
  (** [x.toFixed(digits)]; [None] when it throws [RangeError] *)
  toFixed : float -> Z -> option jsstring;
  (** [parseFloat(s)] *)
  parseFloat : jsstring -> float;
  (** [String(x)], the text of a number joined to a string *)
  ToString : float -> jsstring
}.

(** [localeCompare] is a consistent comparator: the order of a collation. *)
Class LocaleConsistent (rt : Runtime) : Prop := {
  localeCompare_antisym : forall a b, Z.sgn (localeCompare a b) = - Z.sgn (localeCompare b a);
  localeCompare_trans : forall a b c,
    localeCompare a b <= 0 -> localeCompare b c <= 0 -> localeCompare a c <= 0
}.

(** ** Array.prototype.sort

    The sort is stable; a comparator result of [NaN] counts as [+0].
    For a consistent comparator every stable sort returns the same
    array, here computed by insertion. *)

Definition compare_result (v : option Z) : Z :=
  match v with Some z => z | None => 0 end.

Fixpoint sort_insert {A : Type} (comparefn : A -> A -> option Z) (x : A) (l : list A)
  : list A :=
  match l with
  | [] => [x]
  | y :: l' =>
      if compare_result (comparefn x y) <=? 0 then x :: l
      else y :: sort_insert comparefn x l'
  end.

Definition Array_sort {A : Type} (comparefn : A -> A -> option Z) (l : list A) : list A :=
  fold_right (sort_insert comparefn) [] l.

(** ** useFileFilter.ts *)

Module useFileFilter.
Section WithRuntime.
Context {rt : Runtime}.

Definition ms_per_day : Z := 1000 * 60 * 60 * 24.

(** [Math.ceil(x / d)] for integers, [d > 0] *)
Definition ceil_div (x d : Z) : Z := - ((- x) / d).

Definition is_document (m : jsstring) : bool :=
  includes m (js "pdf") || includes m (js "document") || includes m (js "text")
  || includes m (js "msword") || includes m (js "sheet")
  || includes m (js "presentation").

(** The callback of the category filter. *)
Definition category_keeps (selectedCategory : CategoryOption) (f : FileItem) : bool :=
  match file_type f with
  | FtFolder => true
  | FtFile =>
      match selectedCategory with
      | CatRecent =>
          match Date_getTime (created_at f) with
          | Some date =>
              let diffTime := Z.abs (Date_now - date) in
              let diffDays := ceil_div diffTime ms_per_day in
              diffDays <=? 7
          | None => false
          end
      | _ =>
          match mime_type f with
          | None => false
          | Some m =>
              if negb (truthy m) then false
              else match selectedCategory with
                   | CatImages => startsWith m (js "image/")
                   | CatVideos => startsWith m (js "video/")
                   | CatDocuments => is_document m
                   | _ => true
                   end
          end
      end
  end.

Definition filter_by_category (selectedCategory : CategoryOption)
    (result : list FileItem) : list FileItem :=
  match selectedCategory with
  | CatAll => result
  | _ => List.filter (category_keeps selectedCategory) result
  end.

Definition search_keeps (searchQuery : jsstring) (f : FileItem) : bool :=
  includes (toLowerCase (name f)) (toLowerCase searchQuery).

Definition filter_by_search (searchQuery : jsstring) (result : list FileItem)
  : list FileItem :=
  if truthy searchQuery then List.filter (search_keeps searchQuery) result
  else result.

(** [size_bytes || 0] *)
Definition size_or_0 (f : FileItem) : Z :=
  match size_bytes f with Some n => n | None => 0 end.

(** The comparator handed to [sort]. *)
Definition comparator (sortBy : SortOption) (a b : FileItem) : option Z :=
  if negb (bool_decide (file_type a = file_type b)) then
    Some (if bool_decide (file_type a = FtFolder) then -1 else 1)
  else
    match sortBy with
    | SortName => Some (localeCompare (name a) (name b))
    | SortSize => Some (size_or_0 b - size_or_0 a)
    | SortDate =>
        match Date_getTime (created_at b), Date_getTime (created_at a) with
        | Some tb, Some ta => Some (tb - ta)
        | _, _ => None
        end
    end.

Definition processedFiles (files : list FileItem)
    (selectedCategory : CategoryOption) (searchQuery : jsstring)
    (sortBy : SortOption) : list FileItem :=
  let result := files in
  let result := filter_by_category selectedCategory result in
  let result := filter_by_search searchQuery result in
  Array_sort (comparator sortBy) result.

End WithRuntime.
End useFileFilter.

(** ** HTTP requests and what the back end answers *)

Inductive Method := GET | POST | PUT | DELETE.

Inductive Value :=
| VStr (s : jsstring)
| VNum (n : Z)
| VNums (l : list Z)
| VFile (file_name : jsstring).

(** A request of the axios client: the endpoint, the query parameters
    of the URL and the fields of the body. *)
Record Request := {
  method : Method;
  endpoint : string;
  query : list (string * Value);
  body : list (string * Value)
}.

Record Response := {
  (** [response.headers['content-disposition']] *)
  content_disposition : option jsstring
}.

(** [error.response.data]: a JSON object that may carry [message], or,
    for blob requests, a [Blob] whose text may parse to an object with
    [message] and [error]. *)
Inductive ErrData :=
| DataJson (message : option jsstring)
| DataBlob (parsed : option (option jsstring * option jsstring)).

Record ErrResponse := {
  status : Z;
  statusText : jsstring;
  data : ErrData
}.

Record AxiosErr := {
  err_message : jsstring;
  err_response : option ErrResponse
}.

(** What a rejected promise carries. *)
Inductive Thrown :=
| AxiosError (e : AxiosErr)
| OtherError.

Inductive Outcome :=
| Resolved (r : Response)
| Rejected (e : Thrown).

(** [err.response?.data?.message] *)
Definition response_message (err : Thrown) : option jsstring :=
  match err with
  | AxiosError e =>
      match err_response e with
      | Some r => match data r with DataJson m => m | DataBlob _ => None end
      | None => None
      end
  | OtherError => None
  end.

(** ** Observable effects of the client *)

Inductive ToastKind := ToastSuccess | ToastError | ToastInfo.

(** Keys of the query cache: [['files']], [['files', path]], [['storage']]. *)
Inductive QueryKey :=
| KeyFiles
| KeyFilesAt (p : jsstring)
| KeyStorage.

Inductive TaskType := TaskUpload | TaskDownload.
Inductive TaskStatus := StatusActive | StatusCompleted | StatusError.

Record TaskUpdate := {
  upd_status : option TaskStatus;
  upd_progress : option Z;
  upd_error : option jsstring;
  upd_fileName : option jsstring
}.

Definition no_update : TaskUpdate :=
  {| upd_status := None; upd_progress := None; upd_error := None; upd_fileName := None |}.

Inductive Event :=
| ApiCall (r : Request)
| Toast (k : ToastKind) (msg : jsstring)
| InvalidateQueries (k : QueryKey)
| AddTask (task : nat) (fileName : jsstring) (ty : TaskType)
| UpdateTask (task : nat) (u : TaskUpdate)
| SaveAs (downloadFilename : jsstring)
| ConsoleError.

(** The back end as the client sees it: how each request is answered,
    and in which order the answers to the requests in flight arrive.
    Within one operation the same request is answered the same way.
    [arrival history n] tells, when [n] answers are awaited after the
    events [history], which of them arrives next: its place among those
    still awaited, counted from 0 and taken modulo [n]. *)
Record Server := {
  answer :> Request -> Outcome;
  arrival : list Event -> nat -> nat
}.

(** A back end whose answers arrive in the order of the requests. *)
Definition in_order (answers : Request -> Outcome) : Server :=
  {| answer := answers; arrival := fun _ _ => O |}.

(** A back end whose answers arrive in the opposite order. *)
Definition latest_first (answers : Request -> Outcome) : Server :=
  {| answer := answers; arrival := fun _ n => Nat.pred n |}.

Record World := {
  (** what has happened, oldest first *)
  log : list Event;
  next_uuid : nat;
  (** what the promises that were left pending by a rejected
      [Promise.all] do when their answers arrive, after the caller has
      gone on; oldest first *)
  later : list Event
}.

(** ** Asynchronous client code: a state and error monad over [World] *)

Definition Client (A : Type) : Type := Server -> World -> World * (Thrown + A).

Definition ret {A} (a : A) : Client A := fun _ w => (w, inr a).

Definition throw {A} (e : Thrown) : Client A := fun _ w => (w, inl e).

Definition bind {A B} (m : Client A) (k : A -> Client B) : Client B :=
  fun srv w =>
    match m srv w with
    | (w', inr a) => k a srv w'
    | (w', inl e) => (w', inl e)
    end.

(** [try { m } catch (error) { h(error) }] *)
Definition try_catch {A} (m : Client A) (h : Thrown -> Client A) : Client A :=
  fun srv w =>
    match m srv w with
    | (w', inr a) => (w', inr a)
    | (w', inl e) => h e srv w'
    end.

Declare Scope client_scope.
Delimit Scope client_scope with client.
Notation "x <- m ;; k" := (bind m (fun x => k))
  (at level 100, m at next level, right associativity) : client_scope.
Notation "m ;; k" := (bind m (fun _ => k))
  (at level 100, right associativity) : client_scope.
Local Open Scope client_scope.

Definition emit (e : Event) : Client unit :=
  fun _ w => ({| log := log w ++ [e]; next_uuid := next_uuid w; later := later w |}, inr tt).

(** [await api.method(url, body)] *)
Definition request (r : Request) : Client Response :=
  fun srv w =>
    ({| log := log w ++ [ApiCall r]; next_uuid := next_uuid w; later := later w |},
     match srv r with
     | Resolved x => inr x
     | Rejected e => inl e
     end).

Definition uuidv4 : Client nat :=
  fun _ w =>
    ({| log := log w; next_uuid := S (next_uuid w); later := later w |}, inr (next_uuid w)).

(** A promise that has been created and has not settled yet: what is
    left of it runs when the answer it waits for arrives. *)
Definition Promise (A : Type) : Type := Client A.

(** A function of the service called without [await]: the request is
    sent at once, and the promise it returns settles with the answer. *)
Definition unawaited {A} (call : Client A) : Client (Promise A) :=
  fun srv w =>
    match call srv w with
    | (w', r) => (w', inr (fun _ w'' => (w'', r)))
    end.

(** A promise that nobody awaits any more: its answer still arrives and
    what is left of it still runs, after the caller has gone on.  What it
    does is noted in [later]; its outcome is dropped. *)
Definition detached {A} (p : Promise A) : Client unit :=
  fun srv w =>
    match p srv {| log := []; next_uuid := next_uuid w; later := [] |} with
    | (w', _) =>
        ({| log := log w; next_uuid := next_uuid w';
            later := later w ++ log w' ++ later w' |}, inr tt)
    end.

(** The place, among the [n] promises pending, of the one that settles
    next. *)
Definition next_settled (srv : Server) (w : World) (n : nat) : nat :=
  (arrival srv (log w ++ later w) n mod n)%nat.

Fixpoint settle_detached {A} (n : nat) (pending : list (Promise A)) : Client unit :=
  match n with
  | O => ret tt
  | S n' =>
      fun srv w =>
        let i := next_settled srv w (length pending) in
        match pending !! i with
        | Some p => bind (detached p) (fun _ => settle_detached n' (delete i pending)) srv w
        | None => (w, inr tt)
        end
  end.

(** The promises settle one by one, in the order in which their answers
    arrive.  [values] collects, with their places in the array, the
    values of those that resolved.  At the first rejection the whole is
    rejected with that reason, and the promises still pending are left
    to themselves. *)
Fixpoint settle_all {A} (n : nat) (pending : list (nat * Promise A))
    (values : list (nat * A)) : Client (list (nat * A)) :=
  match n with
  | O => ret values
  | S n' =>
      fun srv w =>
        let i := next_settled srv w (length pending) in
        match (pending !! i : option (nat * Promise A)) with
        | Some (place, p) =>
            match p srv w with
            | (w', inr a) =>
                settle_all n' (delete i pending) ((place, a) :: values) srv w'
            | (w', inl e) =>
                bind (settle_detached n' (List.map snd (delete i pending)))
                     (fun _ => throw e) srv w'
            end
        | None => (w, inr values)
        end
  end.

(** The value found for a place of the array. *)
Definition value_at {A} (values : list (nat * A)) (place : nat) : option A :=
  option_map snd (List.find (fun v => (fst v =? place)%nat) values).

(** [await Promise.all(promises)] on promises that have been created:
    it resolves, once every promise has resolved, with their values in
    the order of the array, and rejects as soon as one of them rejects,
    while the others are still pending. *)
Definition Promise_all {A} (promises : list (Promise A)) : Client (list A) :=
  bind (settle_all (length promises) (combine (seq 0 (length promises)) promises) [])
       (fun values => ret (omap (value_at values) (seq 0 (length promises)))).

Definition toast_success (msg : jsstring) : Client unit := emit (Toast ToastSuccess msg).
Definition toast_error (msg : jsstring) : Client unit := emit (Toast ToastError msg).

Definition start_world : World := {| log := []; next_uuid := O; later := [] |}.

(** The effects of running [m] from an empty log, up to the point
    where [m] returns. *)
Definition effects {A} (m : Client A) (srv : Server) : list Event :=
  log (fst (m srv start_world)).

(** What happens after [m] has returned, when the answers awaited by
    the promises it left pending arrive. *)
Definition effects_later {A} (m : Client A) (srv : Server) : list Event :=
  later (fst (m srv start_world)).

Definition result {A} (m : Client A) (srv : Server) : Thrown + A :=
  snd (m srv start_world).

(** ** services/api: fileService and storageService

    The progress callbacks of upload and download only move a progress
    bar and are left out. *)

Module fileService.

Definition listFiles (path : jsstring) : Client Response :=
  request {| method := GET; endpoint := "/api/files";
             query := [("path"%string, VStr path)]; body := [] |}.

Definition createFolder (path name : jsstring) : Client Response :=
  request {| method := POST; endpoint := "/api/files/folder"; query := [];
             body := [("path"%string, VStr path); ("name"%string, VStr name)] |}.

Definition deleteFile (fileId : Z) : Client Response :=
  request {| method := DELETE; endpoint := "/api/files";
             query := [("file_id"%string, VNum fileId)]; body := [] |}.

Definition downloadFile (fileId : Z) : Client Response :=
  request {| method := GET; endpoint := "/api/files/download";
             query := [("file_id"%string, VNum fileId)]; body := [] |}.

Definition uploadFile (file_name : jsstring) (path : jsstring) : Client Response :=
  request {| method := POST; endpoint := "/api/files/upload"; query := [];
             body := [("path"%string, VStr path); ("file"%string, VFile file_name)] |}.

Definition batchDownload (fileIds : list Z) : Client Response :=
  request {| method := POST; endpoint := "/api/files/batch-download"; query := [];
             body := [("file_ids"%string, VNums fileIds)] |}.

Definition renameFile (fileId : Z) (newName : jsstring) : Client Response :=
  request {| method := PUT; endpoint := "/api/files/rename"; query := [];
             body := [("file_id"%string, VNum fileId); ("new_name"%string, VStr newName)] |}.

Definition moveFile (fileId : Z) (destinationPath : jsstring) : Client Response :=
  request {| method := PUT; endpoint := "/api/files/move"; query := [];
             body := [("file_id"%string, VNum fileId);
                      ("destination_path"%string, VStr destinationPath)] |}.

Definition copyFile (fileId : Z) (destinationPath : jsstring) : Client Response :=
  request {| method := POST; endpoint := "/api/files/copy"; query := [];
             body := [("file_id"%string, VNum fileId);
                      ("destination_path"%string, VStr destinationPath)] |}.

Definition calculateSize (fileIds : list Z) : Client Response :=
  request {| method := POST; endpoint := "/api/files/size"; query := [];
             body := [("file_ids"%string, VNums fileIds)] |}.

End fileService.

Module storageService.

Definition getStorageInfo : Client Response :=
  request {| method := GET; endpoint := "/api/storage/info"; query := []; body := [] |}.

End storageService.

(** [await m] inside a [try]: the outcome is handed on as a value. *)
Definition attempt {A} (m : Client A) : Client (Thrown + A) :=
  fun srv w => match m srv w with (w', r) => (w', inr r) end.

Fixpoint mapM {A B} (f : A -> Client B) (l : list A) : Client (list B) :=
  match l with
  | [] => ret []
  | a :: l' => b <- f a ;; bs <- mapM f l' ;; ret (b :: bs)
  end.

(** [String(n)] for a non-negative integer. *)
Definition decimal (n : nat) : jsstring :=
  js (NilEmpty.string_of_uint (Nat.to_uint n)).

(** ** hooks/mutations/useFileMutations.ts *)

Module useFileMutations.

(** The options given to [useMutation]. *)
Record Mutation (V : Type) := {
  mutationFn : V -> Client unit;
  onSuccess : V -> Client unit;
  onError : Thrown -> Client unit
}.
Arguments mutationFn {V}.
Arguments onSuccess {V}.
Arguments onError {V}.

(** [mutation.mutateAsync(variables)]: [onSuccess] after the mutation
    function resolved, [onError] after it rejected, and the rejection
    is handed on to the caller. *)
Definition mutateAsync {V} (m : Mutation V) (variables : V) : Client unit :=
  r <- attempt (mutationFn m variables) ;;
  match r with
  | inr _ => onSuccess m variables
  | inl err => onError m err ;; throw err
  end.

Definition useCreateFolderMutation : Mutation (jsstring * jsstring) := {|
  mutationFn := fun '(path, name) => _ <- fileService.createFolder path name ;; ret tt;
  onSuccess := fun '(path, _) =>
    toast_success (js "Folder created successfully") ;;
    emit (InvalidateQueries (KeyFilesAt path));
  onError := fun err =>
    toast_error (opt_or_else (response_message err) (js "Failed to create folder"))
|}.

Definition useDeleteFileMutation : Mutation Z := {|
  mutationFn := fun fileId => _ <- fileService.deleteFile fileId ;; ret tt;
  onSuccess := fun _ =>
    toast_success (js "File deleted successfully") ;;
    emit (InvalidateQueries KeyFiles) ;;
    emit (InvalidateQueries KeyStorage);
  onError := fun err =>
    toast_error (opt_or_else (response_message err) (js "Failed to delete file"))
|}.

Definition useBatchDeleteMutation : Mutation (list Z) := {|
  mutationFn := fun fileIds =>
    promises <- mapM (fun id => unawaited (fileService.deleteFile id)) fileIds ;;
    _ <- Promise_all promises ;; ret tt;
  onSuccess := fun _ =>
    toast_success (js "Files deleted successfully") ;;
    emit (InvalidateQueries KeyFiles) ;;
    emit (InvalidateQueries KeyStorage);
  onError := fun err =>
    toast_error (opt_or_else (response_message err) (js "Failed to delete files"))
|}.

Definition useRenameFileMutation : Mutation (Z * jsstring) := {|
  mutationFn := fun '(fileId, newName) => _ <- fileService.renameFile fileId newName ;; ret tt;
  onSuccess := fun _ =>
    toast_success (js "File renamed successfully") ;;
    emit (InvalidateQueries KeyFiles);
  onError := fun err =>
    toast_error (opt_or_else (response_message err) (js "Failed to rename file"))
|}.

Definition useMoveFileMutation : Mutation (Z * jsstring) := {|
  mutationFn := fun '(fileId, destinationPath) =>
    _ <- fileService.moveFile fileId destinationPath ;; ret tt;
  onSuccess := fun _ =>
    toast_success (js "File moved successfully") ;;
    emit (InvalidateQueries KeyFiles);
  onError := fun err =>
    toast_error (opt_or_else (response_message err) (js "Failed to move file"))
|}.

Definition useCopyFileMutation : Mutation (Z * jsstring) := {|
  mutationFn := fun '(fileId, destinationPath) =>
    _ <- fileService.copyFile fileId destinationPath ;; ret tt;
  onSuccess := fun _ =>
    toast_success (js "File copied successfully") ;;
    emit (InvalidateQueries KeyFiles) ;;
    emit (InvalidateQueries KeyStorage);
  onError := fun err =>
    toast_error (opt_or_else (response_message err) (js "Failed to copy file"))
|}.

End useFileMutations.

(** ** hooks/useFileOperations.ts, the version built on the query cache *)

Module useFileOperations.
Import useFileMutations.

Definition createFolder (currentPath name : jsstring) : Client bool :=
  try_catch
    (mutateAsync useCreateFolderMutation (currentPath, name) ;; ret true)
    (fun _ => ret false).

Definition renameFile (fileId : Z) (newName : jsstring) : Client bool :=
  try_catch
    (mutateAsync useRenameFileMutation (fileId, newName) ;; ret true)
    (fun _ => ret false).

Definition moveFile (fileId : Z) (destinationPath : jsstring) : Client bool :=
  try_catch
    (mutateAsync useMoveFileMutation (fileId, destinationPath) ;; ret true)
    (fun _ => ret false).

Definition copyFile (fileId : Z) (destinationPath : jsstring) : Client bool :=
  try_catch
    (mutateAsync useCopyFileMutation (fileId, destinationPath) ;; ret true)
    (fun _ => ret false).

Definition deleteFile (fileId : Z) : Client bool :=
  try_catch
    (mutateAsync useDeleteFileMutation fileId ;; ret true)
    (fun _ => ret false).

Definition batchDeleteFiles (fileIds : list Z) : Client bool :=
  try_catch
    (mutateAsync useBatchDeleteMutation fileIds ;; ret true)
    (fun _ => ret false).

(** [error instanceof AxiosError ? error.response?.data?.message || 'Upload failed' : 'Upload failed'] *)
Definition upload_error_text (error : Thrown) : jsstring :=
  match error with
  | AxiosError _ => opt_or_else (response_message error) (js "Upload failed")
  | OtherError => js "Upload failed"
  end.

(** The [async] function mapped over [uploadTasks].  Called, it runs up
    to its first [await]: the task is marked active and the upload is
    sent.  The promise it returns goes on when the answer arrives. *)
Definition upload_one (currentPath : jsstring) (task : nat * jsstring)
  : Client (Promise unit) :=
  let '(id, file) := task in
  emit (UpdateTask id {| upd_status := Some StatusActive; upd_progress := None;
                         upd_error := None; upd_fileName := None |}) ;;
  answer <- unawaited (fileService.uploadFile file currentPath) ;;
  ret (try_catch
         (_ <- answer ;;
          emit (UpdateTask id {| upd_status := Some StatusCompleted;
                                 upd_progress := Some 100;
                                 upd_error := None; upd_fileName := None |}))
         (fun error =>
            emit ConsoleError ;;
            emit (UpdateTask id {| upd_status := Some StatusError; upd_progress := None;
                                   upd_error := Some (upload_error_text error);
                                   upd_fileName := None |}) ;;
            throw error)).

(** [uploadFiles]: the files are given by their names; [None] is the
    bare [return] on an empty list. *)
Definition uploadFiles (currentPath : jsstring) (filesToUpload : list jsstring)
  : Client (option bool) :=
  match filesToUpload with
  | [] => ret None
  | _ :: _ =>
      uploadTasks <- mapM (fun file =>
                       id <- uuidv4 ;;
                       emit (AddTask id file TaskUpload) ;;
                       ret (id, file)) filesToUpload ;;
      try_catch
        (promises <- mapM (upload_one currentPath) uploadTasks ;;
         _ <- Promise_all promises ;;
         toast_success (js "Files uploaded successfully") ;;
         emit (InvalidateQueries (KeyFilesAt currentPath)) ;;
         emit (InvalidateQueries KeyStorage) ;;
         ret (Some true))
        (fun _ => emit ConsoleError ;; ret (Some false))
  end.

(** The message computed in the [catch] of [batchDownloadFiles]. *)
Definition download_error_message (error : Thrown) : jsstring :=
  match error with
  | AxiosError e =>
      match err_response e with
      | Some r =>
          match data r with
          | DataBlob (Some (m, er)) =>
              opt_or_else m (opt_or_else er (js "Download failed"))
          | DataBlob None =>
              js "Download failed: " ++ or_else (statusText r) (js "Server error")
          | DataJson m =>
              opt_or_else m (or_else (err_message e) (js "Download failed"))
          end
      | None => or_else (err_message e) (js "Download failed")
      end
  | OtherError => js "Unknown error"
  end.

Section WithRuntime.
Context {rt : Runtime}.

(** The file name taken from the content-disposition header, or
    [fileName] when the header gives none. *)
Definition filename_from_header (response : Response) (fileName : jsstring)
  : Client jsstring :=
  match content_disposition response with
  | Some contentDisposition =>
      if truthy contentDisposition then
        match match_filename_star contentDisposition with
        | Some ((_ :: _) as g) =>
            match decodeURIComponent g with
            | Some d => ret d
            | None => throw OtherError
            end
        | _ =>
            match match_filename contentDisposition with
            | Some ((_ :: _) as g) => ret g
            | _ => ret fileName
            end
        end
      else ret fileName
  | None => ret fileName
  end.

Definition batchDownloadFiles (files : list FileItem) (fileIds : list Z)
  : Client (option bool) :=
  match fileIds with
  | [] => ret None
  | first :: _ =>
      let isSingleFile := bool_decide (length fileIds = 1%nat) in
      let '(fileType, fileName) :=
        if isSingleFile then
          match List.find (fun f => id f =? first) files with
          | Some f => (file_type f, name f)
          | None => (FtFile, js "download")
          end
        else
          (FtFile, js "batch_download_" ++ decimal (length fileIds) ++ js "_files.zip") in
      taskId <- uuidv4 ;;
      emit (AddTask taskId fileName TaskDownload) ;;
      emit (UpdateTask taskId {| upd_status := Some StatusActive; upd_progress := None;
                                 upd_error := None; upd_fileName := None |}) ;;
      try_catch
        (response <-
           (if isSingleFile && bool_decide (fileType = FtFile) then
              fileService.downloadFile first
            else
              r <- fileService.batchDownload fileIds ;;
              emit (UpdateTask taskId {| upd_status := None; upd_progress := Some 50;
                                         upd_error := None; upd_fileName := None |}) ;;
              ret r) ;;
         downloadFilename <- filename_from_header response fileName ;;
         let downloadFilename :=
           if (negb isSingleFile || bool_decide (fileType = FtFolder))
              && negb (endsWith downloadFilename (js ".zip"))
           then downloadFilename ++ js ".zip"
           else downloadFilename in
         emit (UpdateTask taskId {| upd_status := None; upd_progress := None;
                                    upd_error := None;
                                    upd_fileName := Some downloadFilename |}) ;;
         emit (SaveAs downloadFilename) ;;
         emit (UpdateTask taskId {| upd_status := Some StatusCompleted;
                                    upd_progress := Some 100;
                                    upd_error := None; upd_fileName := None |}) ;;
         ret (Some true))
        (fun error =>
           emit ConsoleError ;;
           let message := download_error_message error in
           emit (UpdateTask taskId {| upd_status := Some StatusError; upd_progress := None;
                                      upd_error := Some message; upd_fileName := None |}) ;;
           toast_error (js "Download failed: " ++ message) ;;
           ret (Some false))
  end.

Definition downloadFile (files : list FileItem) (fileId : Z) : Client (option bool) :=
  batchDownloadFiles files [fileId].

End WithRuntime.

End useFileOperations.

(** ** hooks/useFileOperations.ts, the version holding its own state

    The listing and the storage info are component state here; what is
    kept of [fetchFiles] and [fetchStorageInfo] is the request they send
    and the toast they may show. *)

Module useFileOperations_useState.

Definition is_unauthorized (error : Thrown) : bool :=
  match error with
  | AxiosError e =>
      match err_response e with
      | Some r => status r =? 401
      | None => false
      end
  | OtherError => false
  end.

Definition fetchFiles (path : jsstring) : Client unit :=
  try_catch
    (_ <- fileService.listFiles path ;; ret tt)
    (fun error =>
       emit ConsoleError ;;
       if is_unauthorized error then emit ConsoleError
       else toast_error (js "Failed to load files")).

Definition fetchStorageInfo : Client unit :=
  try_catch
    (_ <- storageService.getStorageInfo ;; ret tt)
    (fun _ => emit ConsoleError).

(** [error instanceof AxiosError ? error.response?.data?.message : 'Unknown error'],
    then [message || 'Unknown error'] *)
Definition error_text (error : Thrown) : jsstring :=
  let message :=
    match error with
    | AxiosError _ => response_message error
    | OtherError => Some (js "Unknown error")
    end in
  opt_or_else message (js "Unknown error").

(** [None] is the bare [return]. *)
Definition createFolder (currentPath name : jsstring) : Client (option bool) :=
  if negb (truthy (trim name)) then ret None
  else
    try_catch
      (_ <- fileService.createFolder currentPath name ;;
       toast_success (js "Folder created successfully") ;;
       fetchFiles currentPath ;;
       ret (Some true))
      (fun error =>
         emit ConsoleError ;;
         toast_error (js "Failed to create folder: " ++ error_text error) ;;
         ret (Some false)).

Definition renameFile (currentPath : jsstring) (f : FileItem) (newName : jsstring)
  : Client bool :=
  if negb (truthy (trim newName)) then ret false
  else
    try_catch
      (_ <- fileService.renameFile (id f) newName ;;
       toast_success (js "File renamed successfully") ;;
       fetchFiles currentPath ;;
       ret true)
      (fun error =>
         emit ConsoleError ;;
         toast_error (js "Rename failed: " ++ error_text error) ;;
         ret false).

Definition moveFile (currentPath : jsstring) (f : FileItem) (destinationPath : jsstring)
  : Client bool :=
  try_catch
    (_ <- fileService.moveFile (id f) destinationPath ;;
     toast_success (js "File moved successfully") ;;
     fetchFiles currentPath ;;
     ret true)
    (fun error =>
       emit ConsoleError ;;
       toast_error (js "Move failed: " ++ error_text error) ;;
       ret false).

Definition copyFile (currentPath : jsstring) (f : FileItem) (destinationPath : jsstring)
  : Client bool :=
  try_catch
    (_ <- fileService.copyFile (id f) destinationPath ;;
     toast_success (js "File copied successfully") ;;
     fetchFiles currentPath ;;
     ret true)
    (fun error =>
       emit ConsoleError ;;
       toast_error (js "Copy failed: " ++ error_text error) ;;
       ret false).

Definition deleteFile (currentPath : jsstring) (f : FileItem) : Client bool :=
  try_catch
    (_ <- fileService.deleteFile (id f) ;;
     toast_success (js "File deleted successfully") ;;
     fetchFiles currentPath ;;
     fetchStorageInfo ;;
     ret true)
    (fun error =>
       emit ConsoleError ;;
       toast_error (js "Delete failed: " ++ error_text error) ;;
       ret false).

End useFileOperations_useState.

(** ** pages/Dashboard.tsx: the delete flow

    The selection hook (useSelection) is kept abstract: what
    [handleSelect] does to the selection is a parameter.  The selection
    is a JavaScript [Set], kept here as the list of its members in
    insertion order. *)

Module Dashboard.
Section WithSelection.
Variable handleSelect : Z -> bool -> list Z -> list Z.

Record State := {
  selectedIds : list Z;
  itemToDelete : option FileItem;
  showDeleteModal : bool
  }.

(** [selectedIds.has(i)] *)
Definition has (s : list Z) (i : Z) : bool := existsb (Z.eqb i) s.

(** [openDeleteModal(file)]; called without an argument the item is
    [undefined]. *)
Definition openDeleteModal (f : option FileItem) (st : State) : State :=
  {| selectedIds := selectedIds st; itemToDelete := f; showDeleteModal := true |}.

Definition closeDeleteModal (st : State) : State :=
  {| selectedIds := selectedIds st; itemToDelete := None; showDeleteModal := false |}.

Definition handleDelete (f : FileItem) (st : State) : Client State :=
  if negb (can_delete f) then
    toast_error (js "You don't have permission to delete this file") ;;
    ret st
  else if has (selectedIds st) (id f) && (1 <? length (selectedIds st))%nat then
    ret (openDeleteModal None st)
  else
    ret (openDeleteModal (Some f) st).

(** The [onDelete] handed to the action toolbar. *)
Definition toolbar_onDelete (st : State) : Client State :=
  if (0 <? length (selectedIds st))%nat then ret (openDeleteModal None st)
  else ret st.

Definition confirmDelete (st : State) : Client State :=
  match itemToDelete st with
  | Some item =>
      success <- useFileOperations.deleteFile (id item) ;;
      if success : bool then
        let st := closeDeleteModal st in
        if has (selectedIds st) (id item) then
          ret {| selectedIds := handleSelect (id item) true (selectedIds st);
                 itemToDelete := itemToDelete st;
                 showDeleteModal := showDeleteModal st |}
        else ret st
      else ret st
  | None =>
      if (0 <? length (selectedIds st))%nat then
        success <- useFileOperations.batchDeleteFiles (selectedIds st) ;;
        if success : bool then
          let st := closeDeleteModal st in
          ret {| selectedIds := []; itemToDelete := itemToDelete st;
                 showDeleteModal := showDeleteModal st |}
        else ret st
      else ret st
  end.

(** What the user can do to the delete flow. *)
Inductive Action :=
  | ClickDelete (f : FileItem)   (* a file's menu, card or preview *)
  | ClickToolbarDelete
  | ClickConfirm                 (* the button of the open delete modal *)
  | ClickCancel.

Definition step (a : Action) (st : State) : Client State :=
  match a with
  | ClickDelete f => handleDelete f st
  | ClickToolbarDelete => toolbar_onDelete st
  | ClickConfirm => if showDeleteModal st then confirmDelete st else ret st
  | ClickCancel => ret (closeDeleteModal st)
  end.

Fixpoint run (actions : list Action) (st : State) : Client State :=
  match actions with
  | [] => ret st
  | a :: rest => st' <- step a st ;; run rest st'
  end.

End WithSelection.
End Dashboard.

(** ** The storage engine behind the API

    The engine itself is served by the back end; the client only sends
    requests to it.  Its name validation (section 4.1) and its size
    aggregator (section 4.4) are written here after the specification. *)

Module Storage.

Inductive Kind := File | Folder.

(** Modelled from the spec: an entry of the metadata store (section 3),
    one file or folder, which the back end keeps. *)
Record Entry := {
  owner_id : Z;
  parent_id : option Z;        (* null only for a root *)
  entry_name : jsstring;
  kind : Kind;
  entry_size : Z               (* size_bytes of a File *)
}.

Inductive NameCheck := NameOk | InvalidName.

(** Number of bytes of the UTF-8 encoding of a UTF-16 string. *)
Fixpoint utf8_length (s : jsstring) : nat :=
  match s with
  | [] => 0
  | c :: s' =>
      if (c <? 128)%N then 1 + utf8_length s'
      else if (c <? 2048)%N then 2 + utf8_length s'
      else if ((55296 <=? c) && (c <=? 56319))%N then
        match s' with
        | d :: s'' =>
            if ((56320 <=? d) && (d <=? 57343))%N then 4 + utf8_length s''
            else 3 + utf8_length s'
        | [] => 3
        end
      else 3 + utf8_length s'
  end%nat.

Definition max_name_bytes : nat := 255.

(** Modelled from the spec: [validateName] of the path resolver, which
    is back-end code.  It rejects empty names, names containing a path
    separator, and names longer than the bound. *)
Definition validateName (name : jsstring) : NameCheck :=
  if negb (truthy name) then InvalidName
  else if existsb (N.eqb slash) name then InvalidName
  else if (max_name_bytes <? utf8_length name)%nat then InvalidName
  else NameOk.

Record Totals := {
  totalBytes : Z;
  fileCount : Z;
  folderCount : Z
}.

Definition no_totals : Totals :=
  {| totalBytes := 0; fileCount := 0; folderCount := 0 |}.

(** Modelled from the spec: what the aggregator adds for an entry it
    visits; a File adds its size and one to the file count, a Folder one
    to the folder count. *)
Definition count (e : Entry) (acc : Totals) : Totals :=
  match kind e with
  | File => {| totalBytes := totalBytes acc + entry_size e;
               fileCount := fileCount acc + 1;
               folderCount := folderCount acc |}
  | Folder => {| totalBytes := totalBytes acc;
                 fileCount := fileCount acc;
                 folderCount := folderCount acc + 1 |}
  end.

Section Aggregator.
Variable store : gmap Z Entry.
Variable owner : Z.

(** Modelled from the spec: the lookup of an id in the metadata
    store, for the entries that belong to [owner]. *)
Definition owned (i : Z) : option Entry :=
  match store !! i with
  | Some e => if bool_decide (owner_id e = owner) then Some e else None
  | None => None
  end.

Definition is_child_of (p : Z) (ie : Z * Entry) : bool :=
  bool_decide (parent_id ie.2 = Some p) && bool_decide (owner_id ie.2 = owner).

(** Modelled from the spec: the children of a folder in the metadata
    store, the ids of the entries whose [parent_id] is [p]. *)
Definition children (p : Z) : list Z :=
  List.map fst (List.filter (is_child_of p) (map_to_list store)).

(** Modelled from the spec: the traversal of the size aggregator,
    which is back-end code.  It is iterative with an explicit stack
    (section 9) and keeps the set of the ids it has counted, so that an
    entry reached twice is counted once. *)
Fixpoint walk (fuel : nat) (stack : list Z) (seen : gset Z) (acc : Totals)
  : option (gset Z * Totals) :=
  match stack with
  | [] => Some (seen, acc)
  | i :: rest =>
      match fuel with
      | O => None
      | S fuel' =>
          if bool_decide (i ∈ seen) then walk fuel' rest seen acc
          else
            match owned i with
            | None => walk fuel' rest seen acc
            | Some e =>
                match kind e with
                | File => walk fuel' rest ({[i]} ∪ seen) (count e acc)
                | Folder =>
                    walk fuel' (children i ++ rest) ({[i]} ∪ seen) (count e acc)
                end
            end
      end
  end.

(** Steps an entry can still cost: its own visit and one pop for each
    of its children. *)
Fixpoint weight (keys : list Z) (seen : gset Z) : nat :=
  match keys with
  | [] => 0
  | k :: keys' =>
      ((if bool_decide (k ∈ seen) then 0 else 1 + length (children k))
       + weight keys' seen)%nat
  end.

Definition budget (entryIds : list Z) : nat :=
  (length entryIds + weight (List.map fst (map_to_list store)) ∅)%nat.

(** Modelled from the spec: [aggregate(owner, entryIds)]. *)
Definition aggregate (entryIds : list Z) : option Totals :=
  match walk (budget entryIds) entryIds ∅ no_totals with
  | Some (_, acc) => Some acc
  | None => None
  end.

(** An entry is covered by a selection when it is selected or lies
    below a selected folder. *)
Inductive covered (entryIds : list Z) : Z -> Prop :=
| covered_selected i :
    i ∈ entryIds -> is_Some (owned i) -> covered entryIds i
| covered_child p ep c :
    covered entryIds p -> owned p = Some ep -> kind ep = Folder ->
    c ∈ children p -> covered entryIds c.

Definition is_kind (k : Kind) (i : Z) : Prop :=
  exists e, owned i = Some e /\ kind e = k.

Definition size_of (i : Z) : Z :=
  match owned i with Some e => entry_size e | None => 0 end.

Definition has_kind (k : Kind) (i : Z) : bool :=
  match owned i with
  | Some e => match kind e, k with
              | File, File | Folder, Folder => true
              | _, _ => false
              end
  | None => false
  end.

(** The totals of a list of ids, each counted where it stands. *)
Fixpoint tally (ids : list Z) : Totals :=
  match ids with
  | [] => no_totals
  | i :: ids' =>
      match owned i with
      | Some e => count e (tally ids')
      | None => tally ids'
      end
  end.

Definition sum_sizes (ids : list Z) : Z :=
  fold_right Z.add 0 (List.map size_of ids).

(** The state of a traversal of the selection [sel]: [vis] lists what
    has been counted so far. *)
Definition walk_inv (sel stack : list Z) (seen : gset Z) (vis : list Z)
    (acc : Totals) : Prop :=
  NoDup vis /\ (forall i, i ∈ vis <-> i ∈ seen) /\ acc = tally vis /\
  (forall i, i ∈ seen -> covered sel i) /\
  (forall i, i ∈ stack -> is_Some (owned i) -> covered sel i) /\
  (forall i, i ∈ sel -> is_Some (owned i) -> i ∈ seen \/ i ∈ stack) /\
  (forall p ep c, p ∈ seen -> owned p = Some ep -> kind ep = Folder ->
                  c ∈ children p -> c ∈ seen \/ c ∈ stack).

End Aggregator.

End Storage.

(** * The vocabulary of the properties *)

(** ** Paths and the destination selector *)

(** The destination of a move, as the specification has it: [p] is the
    moved folder [q] itself or a path under it. *)
Definition into_itself (q p : jsstring) : bool :=
  jsstring_eqb p q || startsWith p (q ++ js "/").

Definition target (st : FileSelectorModal.State) : jsstring :=
  opt_or_else (FileSelectorModal.selectedPath st) (FileSelectorModal.currentPath st).

Definition docs2 : FileItem := {|
  id := 2; name := js "docs2"; path := js "/docs2"; file_type := FtFolder;
  size_bytes := None; mime_type := None;
  created_at := js "2024-01-01T00:00:00Z"; updated_at := js "2024-01-01T00:00:00Z";
  can_read := true; can_write := true; can_delete := true; is_owner := true
|}.

(** ** The order of a sorted listing *)

(** [a] may stand before [b]. *)
Definition cmp_le {A : Type} (comparefn : A -> A -> option Z) (a b : A) : Prop :=
  compare_result (comparefn a b) <= 0.

(** [a] is not a file standing before the folder [b]. *)
Definition kind_le (a b : FileItem) : Prop :=
  file_type b = FtFolder -> file_type a = FtFolder.

Section FilterVocabulary.
Context {rt : Runtime}.

(** The order of the selected key: name ascending by locale
    comparison, size descending with a missing size read as 0,
    creation time descending. *)
Definition key_le (sortBy : SortOption) (a b : FileItem) : Prop :=
  match sortBy with
  | SortName => localeCompare (name a) (name b) <= 0
  | SortSize => useFileFilter.size_or_0 b <= useFileFilter.size_or_0 a
  | SortDate =>
      match Date_getTime (created_at a), Date_getTime (created_at b) with
      | Some ta, Some tb => tb <= ta
      | _, _ => False
      end
  end.

(** What the comparator needs of an entry to be consistent. *)
Definition key_valid (sortBy : SortOption) (f : FileItem) : Prop :=
  match sortBy with
  | SortDate => is_Some (Date_getTime (created_at f))
  | _ => True
  end.

(** The claim that the key orders the entries of every listing: two
    entries of the same kind on which the key is defined stand in the
    order of the key. *)
Definition always_ordered : Prop :=
  forall (files : list FileItem) (cat : CategoryOption) (q : jsstring)
         (sortBy : SortOption) (i j : nat) (a b : FileItem),
    let result := useFileFilter.processedFiles files cat q sortBy in
    (i < j)%nat -> result !! i = Some a -> result !! j = Some b ->
    file_type a = file_type b -> key_valid sortBy a -> key_valid sortBy b ->
    key_le sortBy a b.

Definition sort_key_consistent (sortBy : SortOption) (files : list FileItem) : Prop :=
  match sortBy with
  | SortName => LocaleConsistent rt
  | SortSize => True
  | SortDate => Forall (key_valid SortDate) files
  end.

End FilterVocabulary.

(** ** Reading the log of effects *)

Definition is_request (e : Event) : option Request :=
  match e with ApiCall r => Some r | _ => None end.

(** The requests sent, oldest first. *)
Definition requests (evs : list Event) : list Request := omap is_request evs.

Definition is_storage_refresh (e : Event) : bool :=
  match e with InvalidateQueries KeyStorage => true | _ => false end.

(** The cached storage info was invalidated, which refetches the
    owner's used bytes. *)
Definition storage_refreshed (evs : list Event) : bool := existsb is_storage_refresh evs.

Definition is_error_toast (e : Event) : option jsstring :=
  match e with Toast ToastError msg => Some msg | _ => None end.

Definition error_toasts (evs : list Event) : list jsstring := omap is_error_toast evs.

Definition is_saved (e : Event) : option jsstring :=
  match e with SaveAs n => Some n | _ => None end.

(** The names under which a download was saved. *)
Definition saved_as (evs : list Event) : list jsstring := omap is_saved evs.

(** The operations of the file hook. *)
Inductive Operation :=
| OpCreateFolder (currentPath name : jsstring)
| OpRename (fileId : Z) (newName : jsstring)
| OpMove (fileId : Z) (destinationPath : jsstring)
| OpCopy (fileId : Z) (destinationPath : jsstring)
| OpDelete (fileId : Z)
| OpBatchDelete (fileIds : list Z)
| OpUpload (currentPath : jsstring) (filesToUpload : list jsstring).

(** [true] when the operation reported success to its caller. *)
Definition run_operation (op : Operation) : Client bool :=
  match op with
  | OpCreateFolder p n => useFileOperations.createFolder p n
  | OpRename i n => useFileOperations.renameFile i n
  | OpMove i d => useFileOperations.moveFile i d
  | OpCopy i d => useFileOperations.copyFile i d
  | OpDelete i => useFileOperations.deleteFile i
  | OpBatchDelete l => useFileOperations.batchDeleteFiles l
  | OpUpload p l =>
      r <- useFileOperations.uploadFiles p l ;;
      ret (match r with Some b => b | None => false end)
  end.

(** The operations that change the bytes an owner uses. *)
Definition size_changing (op : Operation) : bool :=
  match op with
  | OpCopy _ _ | OpDelete _ | OpBatchDelete _ | OpUpload _ _ => true
  | OpCreateFolder _ _ | OpRename _ _ | OpMove _ _ => false
  end.

(** The request of an operation that sends exactly one. *)
Definition single_request (op : Operation) : option Request :=
  match op with
  | OpCreateFolder p n =>
      Some {| method := POST; endpoint := "/api/files/folder"; query := [];
              body := [("path"%string, VStr p); ("name"%string, VStr n)] |}
  | OpRename i n =>
      Some {| method := PUT; endpoint := "/api/files/rename"; query := [];
              body := [("file_id"%string, VNum i); ("new_name"%string, VStr n)] |}
  | OpMove i d =>
      Some {| method := PUT; endpoint := "/api/files/move"; query := [];
              body := [("file_id"%string, VNum i); ("destination_path"%string, VStr d)] |}
  | OpCopy i d =>
      Some {| method := POST; endpoint := "/api/files/copy"; query := [];
              body := [("file_id"%string, VNum i); ("destination_path"%string, VStr d)] |}
  | OpDelete i =>
      Some {| method := DELETE; endpoint := "/api/files";
              query := [("file_id"%string, VNum i)]; body := [] |}
  | OpBatchDelete _ | OpUpload _ _ => None
  end.

(** The text shown when the server gave no message. *)
Definition fallback_text (op : Operation) : jsstring :=
  match op with
  | OpCreateFolder _ _ => js "Failed to create folder"
  | OpRename _ _ => js "Failed to rename file"
  | OpMove _ _ => js "Failed to move file"
  | OpCopy _ _ => js "Failed to copy file"
  | OpDelete _ => js "Failed to delete file"
  | OpBatchDelete _ => js "Failed to delete files"
  | OpUpload _ _ => js "Upload failed"
  end.

(** [m] sends exactly the requests [rs], whatever the back end answers. *)
Definition sends {A} (m : Client A) (rs : list Request) : Prop :=
  forall srv w, requests (log (m srv w).1) = requests (log w) ++ rs.



(** ** Failures of the back end *)

Definition name_taken : Thrown :=
  AxiosError {| err_message := js "Request failed with status code 409";
                err_response := Some {| status := 409; statusText := js "Conflict";
                                        data := DataJson (Some (js "Folder already exists")) |} |}.

(** Every two different rejections of a request can be told apart by
    what the hook shows and returns. *)
Definition failures_distinguishable : Prop :=
  forall op r (srv1 srv2 : Server) e1 e2,
    single_request op = Some r ->
    srv1 r = Rejected e1 -> srv2 r = Rejected e2 -> e1 <> e2 ->
    (effects (run_operation op) srv1, result (run_operation op) srv1)
    <> (effects (run_operation op) srv2, result (run_operation op) srv2).

Definition network_down : Thrown :=
  AxiosError {| err_message := js "Network Error"; err_response := None |}.

Definition quota_exceeded_no_message : Thrown :=
  AxiosError {| err_message := js "Request failed with status code 507";
                err_response := Some {| status := 507;
                                        statusText := js "Insufficient Storage";
                                        data := DataJson None |} |}.

(** ** Names *)

(** A name made of white space only (or of nothing). *)
Definition blank (s : jsstring) : bool := forallb is_js_space s.

(** Upper case of the ASCII letters, other characters unchanged. *)
Definition upper_ascii (c : N) : N :=
  if ((97 <=? c) && (c <=? 122))%N then (c - 32)%N else c.

(** ** Downloads and deletions *)

Definition download_request (fileId : Z) : Request :=
  {| method := GET; endpoint := "/api/files/download";
     query := [("file_id"%string, VNum fileId)]; body := [] |}.

Definition batch_request (fileIds : list Z) : Request :=
  {| method := POST; endpoint := "/api/files/batch-download"; query := [];
     body := [("file_ids"%string, VNums fileIds)] |}.


(** [true] when the download is a single id that does not resolve to
    a folder of the listing. *)
Definition direct (files : list FileItem) (fileIds : list Z) : bool :=
  match fileIds with
  | [i] =>
      match List.find (fun f => id f =? i) files with
      | Some f => bool_decide (file_type f = FtFile)
      | None => true
      end
  | _ => false
  end.

Definition delete_request (fileId : Z) : Request :=
  {| method := DELETE; endpoint := "/api/files";
     query := [("file_id"%string, VNum fileId)]; body := [] |}.

Definition upload_request (file path : jsstring) : Request :=
  {| method := POST; endpoint := "/api/files/upload"; query := [];
     body := [("path"%string, VStr path); ("file"%string, VFile file)] |}.

(** ** What the back end accepted *)

(** The server accepted the request. *)
Definition resolved (srv : Server) (r : Request) : bool :=
  match srv r with Resolved _ => true | Rejected _ => false end.

(** What awaiting the answer to [r] gives. *)
Definition outcome (srv : Server) (r : Request) : Thrown + Response :=
  match srv r with Resolved x => inr x | Rejected e => inl e end.

(** The requests of an operation. *)
Definition requests_of (op : Operation) : list Request :=
  match op with
  | OpBatchDelete fileIds => List.map delete_request fileIds
  | OpUpload currentPath filesToUpload =>
      List.map (fun file => upload_request file currentPath) filesToUpload
  | _ => match single_request op with Some r => [r] | None => [] end
  end.

(** The server accepted every request of the operation; an upload of
    no file is no operation. *)
Definition accepted (op : Operation) (srv : Server) : bool :=
  match op with
  | OpUpload _ [] => false
  | _ => forallb (resolved srv) (requests_of op)
  end.

(** Everything [m] brings about: what it does until it returns and
    what the promises it left pending do afterwards. *)
Definition effects_in_the_end {A} (m : Client A) (srv : Server) : list Event :=
  effects m srv ++ effects_later m srv.

(** The claim that a change of the bytes in use is followed by a
    refresh: whenever the server accepted a request of a size-changing
    operation, the storage info is refreshed. *)
Definition size_change_refreshes : Prop :=
  forall (op : Operation) (srv : Server) (r : Request),
    size_changing op = true ->
    r ∈ requests (effects (run_operation op) srv) ->
    resolved srv r = true ->
    storage_refreshed (effects_in_the_end (run_operation op) srv) = true.

(** A back end that accepts the deletion of entry 1 and of no other. *)
Definition deletes_only_1 : Server :=
  in_order (fun r => match method r, query r with
                     | DELETE, [(_, VNum 1)] => Resolved {| content_disposition := None |}
                     | _, _ => Rejected network_down
                     end).

(** ** Promises *)

(** The promise [p], when its answer arrives, does [evs] and settles
    with [r]. *)
Definition settles_with {A} (srv : Server) (p : Promise A) (evs : list Event)
    (r : Thrown + A) : Prop :=
  forall w, p srv w
            = ({| log := log w ++ evs; next_uuid := next_uuid w; later := later w |}, r).

(** An entry the user may not delete. *)
Definition locked_report : FileItem := {|
  id := 7; name := js "report.pdf"; path := js "/report.pdf"; file_type := FtFile;
  size_bytes := Some 1024; mime_type := Some (js "application/pdf");
  created_at := js "2024-01-01T00:00:00Z"; updated_at := js "2024-01-01T00:00:00Z";
  can_read := true; can_write := false; can_delete := false; is_owner := false
|}.

Definition idle (selection : list Z) : Dashboard.State :=
  {| Dashboard.selectedIds := selection; Dashboard.itemToDelete := None;
     Dashboard.showDeleteModal := false |}.

(** ** A plain runtime for worked examples

    Code-unit order for the collation and ASCII lower case.  A creation
    time is read when it is written in the date-time format of the
    language, [YYYY-MM-DDTHH:mm:ss.sssZ] with the milliseconds optional,
    which every engine reads the same way; any other string, which an
    engine may read as it likes, counts as an invalid date. *)

Definition lower_ascii (c : N) : N :=
  if ((65 <=? c) && (c <=? 90))%N then (c + 32)%N else c.

Fixpoint code_unit_compare (a b : jsstring) : Z :=
  match a, b with
  | [], [] => 0
  | [], _ :: _ => -1
  | _ :: _, [] => 1
  | c :: a', d :: b' =>
      if (c <? d)%N then -1
      else if (d <? c)%N then 1
      else code_unit_compare a' b'
  end.

Fixpoint digits_value (acc : Z) (s : jsstring) : option Z :=
  match s with
  | [] => Some acc
  | c :: s' =>
      if ((48 <=? c) && (c <=? 57))%N
      then digits_value (10 * acc + Z.of_N (c - 48)) s'
      else None
  end.

(** The number written by the first [k] characters of [s], which must
    be digits, and the rest of [s]. *)
Definition read_digits (k : nat) (s : jsstring) : option (Z * jsstring) :=
  if (length (firstn k s) =? k)%nat
  then option_map (fun v => (v, skipn k s)) (digits_value 0 (firstn k s))
  else None.

(** The rest of [s] after the character [c]. *)
Definition read_char (c : N) (s : jsstring) : option jsstring :=
  match s with
  | d :: s' => if (d =? c)%N then Some s' else None
  | [] => None
  end.

Definition is_leap_year (y : Z) : bool :=
  (y mod 4 =? 0) && (negb (y mod 100 =? 0) || (y mod 400 =? 0)).

Definition days_in_month (y m : Z) : Z :=
  if m =? 2 then (if is_leap_year y then 29 else 28)
  else if (m =? 4) || (m =? 6) || (m =? 9) || (m =? 11) then 30
  else 31.

(** The days from 1970-01-01 to the day [d] of the month [m] of the
    year [y] of the Gregorian calendar. *)
Definition days_from_epoch (y m d : Z) : Z :=
  let y' := if m <=? 2 then y - 1 else y in
  let era := y' / 400 in
  let year_of_era := y' - era * 400 in
  let day_of_year := (153 * (if 2 <? m then m - 3 else m + 9) + 2) / 5 + d - 1 in
  let day_of_era := year_of_era * 365 + year_of_era / 4 - year_of_era / 100 + day_of_year in
  era * 146097 + day_of_era - 719468.

(** The milliseconds written after the seconds: nothing, or a point and
    three digits; then the [Z] of the time zone must end the string. *)
Definition read_millis (s : jsstring) : option Z :=
  match read_char 46 s with
  | Some s' =>
      match read_digits 3 s' with
      | Some (ms, rest) => if jsstring_eqb rest (js "Z") then Some ms else None
      | None => None
      end
  | None => if jsstring_eqb s (js "Z") then Some 0 else None
  end.

Definition iso_millis (s : jsstring) : option Z :=
  '(y, s) ← read_digits 4 s;
  s ← read_char 45 s;
  '(m, s) ← read_digits 2 s;
  s ← read_char 45 s;
  '(d, s) ← read_digits 2 s;
  s ← read_char 84 s;
  '(h, s) ← read_digits 2 s;
  s ← read_char 58 s;
  '(mi, s) ← read_digits 2 s;
  s ← read_char 58 s;
  '(sec, s) ← read_digits 2 s;
  ms ← read_millis s;
  if (1 <=? m) && (m <=? 12) && (1 <=? d) && (d <=? days_in_month y m)
     && (h <=? 23) && (mi <=? 59) && (sec <=? 59)
  then Some ((((days_from_epoch y m d * 24 + h) * 60 + mi) * 60 + sec) * 1000 + ms)
  else None.

(** The numbers of the plain runtime: the logarithm is rounded to the
    nearest number from an approximation to 200 binary places, powers
    are those of integer exponents, and the conversions between numbers
    and strings follow the definitions of the language. *)

Definition digits_of (n : Z) : jsstring :=
  js (NilEmpty.string_of_uint (N.to_uint (Z.to_N n))).

Definition log_bits : Z := 200.

(** The sum of [z^(2j+1) / (2j+1)] over the first [terms] values of [j],
    in fixed point with [log_bits] binary places. *)
Fixpoint atanh_terms (terms : nat) (j power square acc : Z) : Z :=
  match terms with
  | O => acc
  | S terms' =>
      atanh_terms terms' (j + 1) (power * square / 2 ^ log_bits) square
                  (acc + power / (2 * j + 1))
  end.

Definition atanh_fixed (z : Z) : Z :=
  atanh_terms 70 0 z (z * z / 2 ^ log_bits) 0.

Definition ln2_fixed : Z := 2 * atanh_fixed (2 ^ log_bits / 3).

(** The natural logarithm rounded to the nearest number. *)
Definition plain_log (x : float) : float :=
  match Prim2SF x with
  | S754_zero _ => neg_infinity
  | S754_nan => nan
  | S754_infinity negative => if negative then nan else infinity
  | S754_finite true _ _ => nan
  | S754_finite false m e =>
      let b := Z.log2 (Zpos m) in
      let z := (Zpos m - 2 ^ b) * 2 ^ log_bits / (Zpos m + 2 ^ b) in
      let total := 2 * atanh_fixed z + (b + e) * ln2_fixed in
      nearest_number (total <? 0) (Z.abs total) (2 ^ log_bits)
  end.

(** [Math.pow(x, y)] for an integer [y]; other exponents are not
    needed by the examples and give [NaN]. *)
Definition plain_pow (x y : float) : float :=
  match Prim2SF x, Prim2SF (Math_floor y) with
  | S754_finite negative m e, S754_finite yneg n f =>
      if PrimFloat.eqb y (Math_floor y) then
        let k := if 0 <=? f then Zpos n * 2 ^ f else Zpos n / 2 ^ (- f) in
        let sign := negative && Z.odd k in
        if yneg
        then (if 0 <=? e then nearest_number sign 1 ((Zpos m * 2 ^ e) ^ k)
              else nearest_number sign ((2 ^ (- e)) ^ k) (Zpos m ^ k))
        else (if 0 <=? e then nearest_number sign ((Zpos m * 2 ^ e) ^ k) 1
              else nearest_number sign (Zpos m ^ k) ((2 ^ (- e)) ^ k))
      else nan
  | S754_finite _ _ _, S754_zero _ => 1%float
  | _, _ => nan
  end.

(** [v * 10^t] for the fraction [v = num / den] *)
Definition times_power_of_ten (num den t : Z) : Z * Z :=
  if 0 <=? t then (num * 10 ^ t, den) else (num, den * 10 ^ (- t)).

(** The place [n] of the decimal point of [num / den > 0]:
    [10^(n-1) <= num / den < 10^n]. *)
Definition point_place (num den : Z) : Z :=
  let est := (Z.log2 num - Z.log2 den) * 30103 / 100000 in
  let below n := let '(a, b) := times_power_of_ten num den (- n) in a <? b in
  match List.find below [est - 2; est - 1; est; est + 1; est + 2; est + 3] with
  | Some n => n
  | None => est
  end.

(** The integer [s] of [k] digits, if there is one, for which
    [s * 10^(n-k)] reads back as [x]; of two, the one nearer to
    [num / den], and the even one when they are as near. *)
Definition reads_back_with (x : float) (num den n k : Z) : option Z :=
  let '(a, b) := times_power_of_ten num den (k - n) in
  let lower := a / b in
  let upper := lower + 1 in
  let r := a mod b in
  let reads c :=
    let '(p, q) := times_power_of_ten c 1 (n - k) in
    PrimFloat.eqb (nearest_number false p q) x in
  if reads lower && reads upper then
    if 2 * r <? b then Some lower
    else if b <? 2 * r then Some upper
    else Some (if Z.even lower then lower else upper)
  else if reads lower then Some lower
  else if reads upper then Some upper
  else None.

Fixpoint first_reading_back (x : float) (num den n : Z) (ks : list Z) : option (Z * Z) :=
  match ks with
  | [] => None
  | k :: ks' =>
      match reads_back_with x num den n k with
      | Some s => Some (s, k)
      | None => first_reading_back x num den n ks'
      end
  end.

Fixpoint drop_zeros (s : jsstring) : jsstring :=
  match s with
  | c :: s' => if (c =? 48)%N then drop_zeros s' else s
  | [] => []
  end.

(** The digits of the shortest decimal that reads back as the positive
    number [x = num / den], and the place of its decimal point: the
    decimal is [0.digits * 10^n]. *)
Definition shortest_digits (x : float) (num den : Z) : jsstring * Z :=
  let n := point_place num den in
  match first_reading_back x num den n
          [1; 2; 3; 4; 5; 6; 7; 8; 9; 10; 11; 12; 13; 14; 15; 16; 17] with
  | Some (s, k) =>
      let digits := digits_of s in
      (rev (drop_zeros (rev digits)), n + (Z.of_nat (length digits) - k))
  | None => ([], n)
  end.

Definition zeros (n : Z) : jsstring := repeat 48%N (Z.to_nat n).

(** [String(x)] and [x + ''] *)
Definition plain_ToString (x : float) : jsstring :=
  match Prim2SF x with
  | S754_nan => js "NaN"
  | S754_zero _ => js "0"
  | S754_infinity negative => (if negative then js "-" else []) ++ js "Infinity"
  | S754_finite negative m e =>
      let '(num, den) := if 0 <=? e then (Zpos m * 2 ^ e, 1) else (Zpos m, 2 ^ (- e)) in
      let '(digits, n) := shortest_digits (PrimFloat.abs x) num den in
      let k := Z.of_nat (length digits) in
      (if negative then js "-" else [])
      ++ (if (k <=? n) && (n <=? 21) then digits ++ zeros (n - k)
          else if (0 <? n) && (n <=? 21)
          then firstn (Z.to_nat n) digits ++ js "." ++ skipn (Z.to_nat n) digits
          else if (-6 <? n) && (n <=? 0) then js "0." ++ zeros (- n) ++ digits
          else
            let exponent :=
              (if 0 <=? n - 1 then js "+" else js "-") ++ digits_of (Z.abs (n - 1)) in
            match digits with
            | [d] => [d] ++ js "e" ++ exponent
            | d :: rest => [d] ++ js "." ++ rest ++ js "e" ++ exponent
            | [] => []
            end)
  end.

(** [x.toFixed(f)]; [None] when it throws [RangeError]. *)
Definition plain_toFixed (x : float) (f : Z) : option jsstring :=
  if (f <? 0) || (100 <? f) then None
  else
    Some match Prim2SF x with
         | S754_finite negative m e =>
             let '(num, den) :=
               if 0 <=? e then (Zpos m * 2 ^ e, 1) else (Zpos m, 2 ^ (- e)) in
             if 10 ^ 21 * den <=? num then plain_ToString x
             else
               let n := (2 * num * 10 ^ f + den) / (2 * den) in
               let digits := digits_of n in
               let padded := zeros (f + 1 - Z.of_nat (length digits)) ++ digits in
               let whole := (length padded - Z.to_nat f)%nat in
               (if negative then js "-" else [])
               ++ (if f =? 0 then padded
                   else firstn whole padded ++ js "." ++ skipn whole padded)
         | S754_zero _ =>
             if f =? 0 then js "0" else js "0." ++ zeros f
         | _ => plain_ToString x
         end.

Fixpoint take_digits (s : jsstring) : jsstring * jsstring :=
  match s with
  | c :: s' =>
      if ((48 <=? c) && (c <=? 57))%N
      then let '(ds, rest) := take_digits s' in (c :: ds, rest)
      else ([], s)
  | [] => ([], [])
  end.

Definition digits_number (ds : jsstring) : Z :=
  match digits_value 0 ds with Some v => v | None => 0 end.

(** The sign a string starts with, and what follows it. *)
Definition take_sign (s : jsstring) : bool * jsstring :=
  match s with
  | c :: s' =>
      if (c =? 45)%N then (true, s')
      else if (c =? 43)%N then (false, s')
      else (false, s)
  | [] => (false, [])
  end.

(** The exponent part a string starts with, 0 when it starts with none. *)
Definition take_exponent (s : jsstring) : Z :=
  match s with
  | c :: s' =>
      if (c =? 101)%N || (c =? 69)%N then
        let '(negative, s'') := take_sign s' in
        let '(ds, _) := take_digits s'' in
        match ds with
        | [] => 0
        | _ :: _ => if negative then - digits_number ds else digits_number ds
        end
      else 0
  | [] => 0
  end.

(** [parseFloat(s)] *)
Definition plain_parseFloat (s : jsstring) : float :=
  let '(negative, s) := take_sign (trimStart s) in
  if startsWith s (js "Infinity") then (if negative then neg_infinity else infinity)
  else
    let '(whole, s) := take_digits s in
    let '(fraction, s) :=
      match s with
      | c :: s' => if (c =? 46)%N then take_digits s' else ([], s)
      | [] => ([], [])
      end in
    match whole ++ fraction with
    | [] => nan
    | _ :: _ =>
        let exponent := take_exponent s - Z.of_nat (length fraction) in
        let '(p, q) := times_power_of_ten (digits_number (whole ++ fraction)) 1 exponent in
        nearest_number negative p q
    end.

Definition plain_runtime : Runtime := {|
  toLowerCase := List.map lower_ascii;
  localeCompare := code_unit_compare;
  Date_getTime := iso_millis;
  Date_now := 1700000000000;
  match_filename_star := fun _ => None;
  match_filename := fun _ => None;
  decodeURIComponent := fun s => Some s;
  Math_log := plain_log;
  Math_pow := plain_pow;
  toFixed := plain_toFixed;
  parseFloat := plain_parseFloat;
  ToString := plain_ToString
|}.

Definition entry (i : Z) (n : string) (t : FileType) (sz : option Z) (created : string)
  : FileItem := {|
  id := i; name := js n; path := js "/" ++ js n; file_type := t;
  size_bytes := sz; mime_type := None;
  created_at := js created; updated_at := js created;
  can_read := true; can_write := true; can_delete := true; is_owner := true
|}.

Definition listing : list FileItem :=
  [ entry 1 "a.txt" FtFile (Some 100) "2024-03-01T09:00:00Z";
    entry 2 "docs" FtFolder None "2024-01-15T08:30:00.000Z";
    entry 3 "b.txt" FtFile (Some 5) "2024-03-02T10:00:00Z" ].

(** A listing in which one creation time does not parse; the file
    before it is older than the file after it. *)
Definition undated_listing : list FileItem :=
  [ entry 11 "january.txt" FtFile (Some 1) "2024-01-01T00:00:00Z";
    entry 12 "undated.txt" FtFile (Some 1) "not a date";
    entry 13 "june.txt" FtFile (Some 1) "2024-06-01T00:00:00Z" ].

Definition docs_store : gmap Z Storage.Entry :=
  <[ 1 := {| Storage.owner_id := 1; Storage.parent_id := None;
             Storage.entry_name := js ""; Storage.kind := Storage.Folder;
             Storage.entry_size := 0 |} ]>
  (<[ 2 := {| Storage.owner_id := 1; Storage.parent_id := Some 1;
              Storage.entry_name := js "docs"; Storage.kind := Storage.Folder;
              Storage.entry_size := 0 |} ]>
  (<[ 3 := {| Storage.owner_id := 1; Storage.parent_id := Some 2;
              Storage.entry_name := js "a.txt"; Storage.kind := Storage.File;
              Storage.entry_size := 100 |} ]> ∅)).

(** * Further parts of the client *)

(** ** hooks/useSelection.ts

    The selection is a JavaScript [Set] of ids, kept as the list of its
    members in insertion order. *)

Module useSelection.

(** [s.has(i)] *)
Definition Set_has (s : list Z) (i : Z) : bool := existsb (Z.eqb i) s.

(** [s.add(i)]: a member keeps its place, a new one goes last. *)
Definition Set_add (s : list Z) (i : Z) : list Z :=
  if Set_has s i then s else s ++ [i].

(** [s.delete(i)] *)
Definition Set_delete (s : list Z) (i : Z) : list Z :=
  List.filter (fun j => negb (j =? i)) s.

(** [new Set(iterable)] *)
Definition Set_of (iterable : list Z) : list Z := fold_left Set_add iterable [].

(** The updater that [handleSelect(id, multi)] hands to [setSelectedIds]. *)
Definition handleSelect (id : Z) (multi : bool) (prev : list Z) : list Z :=
  let newSelected := Set_of (if multi then prev else []) in
  if Set_has newSelected id then Set_delete newSelected id
  else Set_add newSelected id.

Definition handleSelectAll (allItemIds : list Z) (select : bool) : list Z :=
  if select then Set_of allItemIds else Set_of [].

Definition clearSelection : list Z := Set_of [].

End useSelection.

(** ** components/dashboard/FileList.tsx: the header of the listing *)

Module FileList.

(** [checked] of the check box in the header:
    [files.length > 0 && selectedIds.size === files.length] *)
Definition header_checked (files : list FileItem) (selectedIds : list Z) : bool :=
  (0 <? length files)%nat && (length selectedIds =? length files)%nat.

(** [selected] of the card of [file] *)
Definition card_selected (selectedIds : list Z) (file : FileItem) : bool :=
  useSelection.Set_has selectedIds (id file).

End FileList.

(** ** utils/format.ts and utils/fileUtils.ts: labels and icons *)

(** [m.startsWith(p)] on [mime_type?], where [undefined?.startsWith(p)]
    is [undefined] and counts as false. *)
Definition opt_startsWith (m : option jsstring) (p : jsstring) : bool :=
  match m with Some s => startsWith s p | None => false end.

Definition opt_includes (m : option jsstring) (p : jsstring) : bool :=
  match m with Some s => includes s p | None => false end.

Module format.

Section WithRuntime.
Context {rt : Runtime}.

Definition sizes : list jsstring := [js "B"; js "KB"; js "MB"; js "GB"; js "TB"].

(** [undefined] joined to a string is written out. *)
Definition or_undefined (u : option jsstring) : jsstring :=
  match u with Some s => s | None => js "undefined" end.

(** [formatBytes(bytes, decimals)]: [None] for [bytes] is the missing
    argument; [decimals] is an integer, and every caller leaves it to
    its default, 1.  The result is [None] when [toFixed] throws. *)
Definition formatBytes (bytes : option float) (decimals : Z) : option jsstring :=
  match bytes with
  | None => Some (js "0 B")
  | Some bytes =>
      if negb (Number_truthy bytes) || PrimFloat.eqb bytes 0 then Some (js "0 B")
      else
        let k := 1024%float in
        let dm := if decimals <? 0 then 0 else decimals in
        let i := Math_floor (Math_log bytes / Math_log k) in
        match toFixed (bytes / Math_pow k i) dm with
        | Some fixed =>
            Some (ToString (parseFloat fixed) ++ js " " ++ or_undefined (Array_at sizes i))
        | None => None
        end
  end.

End WithRuntime.

Section WithUpperCase.
(** [s.toUpperCase()] *)
Variable toUpperCase : jsstring -> jsstring.

(** [a[i]] of an array: [None] is [undefined]. *)
Definition at_index {A} (a : list A) (i : nat) : option A := nth_error a i.

Definition formatFileType (mimeType : option jsstring) (isFolder : bool) : jsstring :=
  if isFolder then js "Folder"
  else
    match mimeType with
    | None => js "Unknown File"
    | Some mimeType =>
        if negb (truthy mimeType) then js "Unknown File"
        else if startsWith mimeType (js "image/") then js "Image"
        else if startsWith mimeType (js "video/") then js "Video"
        else if startsWith mimeType (js "audio/") then js "Audio"
        else if includes mimeType (js "pdf") then js "PDF File"
        else if includes mimeType (js "word") || includes mimeType (js "document")
        then js "Word Document"
        else if includes mimeType (js "sheet") || includes mimeType (js "excel")
        then js "Excel Spreadsheet"
        else if includes mimeType (js "presentation")
                || includes mimeType (js "powerpoint")
        then js "PowerPoint"
        else if includes mimeType (js "zip") || includes mimeType (js "compressed")
        then js "Archive"
        else if includes mimeType (js "text") then js "Text File"
        else
          let parts := split slash mimeType in
          if (1 <? length parts)%nat then
            match at_index parts 1 with
            | Some subtype => toUpperCase subtype ++ js " File"
            | None => js "File"
            end
          else js "File"
    end.

End WithUpperCase.
End format.

Module fileUtils.

(** The pictographs the icon functions return. *)
Inductive Icon :=
| IconFolder       (* U+1F4C1, file folder *)
| IconPage         (* U+1F4C4, page facing up *)
| IconPicture      (* U+1F5BC, framed picture *)
| IconClapper      (* U+1F3AC, clapper board *)
| IconPackage      (* U+1F4E6, package *)
| IconCamera       (* U+1F3A5, movie camera *)
| IconNote         (* U+1F3B5, musical note *)
| IconRedBook      (* U+1F4D5, closed book *)
| IconBooks.       (* U+1F4DA, books *)

Definition getFileIcon (file : FileItem) : Icon :=
  match file_type file with
  | FtFolder => IconFolder
  | FtFile =>
      match mime_type file with
      | None => IconPage
      | Some m =>
          if negb (truthy m) then IconPage
          else if startsWith m (js "image/") then IconPicture
          else if startsWith m (js "video/") then IconClapper
          else if includes m (js "pdf") || includes m (js "document") then IconPage
          else if includes m (js "zip") || includes m (js "compressed") then IconPackage
          else IconPage
      end
  end.

End fileUtils.

(** ** components/dashboard/FileDetailsModal.tsx, the version for a
    selection of several entries *)

Module FileDetailsModal.
Import fileUtils.

Definition is_folder (f : FileItem) : bool := bool_decide (file_type f = FtFolder).
Definition is_file (f : FileItem) : bool := bool_decide (file_type f = FtFile).

(** [getFileIcon(files)] of the modal *)
Definition getFileIcon (files : list FileItem) : Icon :=
  match files with
  | [file] =>
      if is_folder file then IconFolder
      else if opt_startsWith (mime_type file) (js "image/") then IconPicture
      else if opt_startsWith (mime_type file) (js "video/") then IconCamera
      else if opt_startsWith (mime_type file) (js "audio/") then IconNote
      else if opt_includes (mime_type file) (js "pdf") then IconRedBook
      else IconPage
  | _ =>
      let folderCount := length (List.filter is_folder files) in
      let fileCount := length (List.filter is_file files) in
      if (folderCount =? length files)%nat then IconFolder
      else if (fileCount =? length files)%nat then IconPage
      else IconBooks
  end.

(** What the size row shows once the effect has run. *)
Inductive CalculatedSize :=
| Unknown                  (* [null]: the row shows a dash *)
| FromServer               (* [response.data.data.total_size_bytes] *)
| Local (total : Z).       (* the sum of the sizes of the selected files *)

(** [files.reduce((acc, f) => acc + (f.size_bytes || 0), 0)] *)
Definition local_total (files : list FileItem) : Z :=
  fold_left (fun acc f => acc + useFileFilter.size_or_0 f) files 0.

(** The effect that runs when the modal opens or the selection changes. *)
Definition calculate (isOpen : bool) (files : list FileItem) : Client CalculatedSize :=
  if negb isOpen || bool_decide (files = []) then ret Unknown
  else
    let hasFolders := existsb is_folder files in
    if hasFolders then
      try_catch
        (_ <- fileService.calculateSize (List.map id files) ;; ret FromServer)
        (fun _ => emit ConsoleError ;; ret Unknown)
    else ret (Local (local_total files)).

(** The text of the type row. *)
Inductive TypeDisplay :=
| OfFormat (mimeType : option jsstring) (isFolder : bool)   (* [formatFileType(...)] *)
| AllFolders
| AllFiles
| Mixed (folderCount fileCount : nat).

(** [None] when the modal renders nothing. *)
Definition typeDisplay (files : list FileItem) : option TypeDisplay :=
  match files with
  | [] => None
  | file :: _ =>
      let isSingleFile := (length files =? 1)%nat in
      let folderCount := length (List.filter is_folder files) in
      let fileCount := length (List.filter is_file files) in
      Some (if isSingleFile then OfFormat (mime_type file) (is_folder file)
            else if (folderCount =? length files)%nat then AllFolders
            else if (fileCount =? length files)%nat then AllFiles
            else Mixed folderCount fileCount)
  end.

End FileDetailsModal.

(** ** hooks/useThumbnail.ts and components/dashboard/FileCard.tsx:
    what stands in the icon area of a card *)

Module FileCard.
Import fileUtils.

(** The effect of [useThumbnail]: [true] when it ends with an object
    URL in [thumbnailUrl], [false] when it ends with [null].  Until it
    has ended [thumbnailUrl] is [null]. *)
Definition useThumbnail (file : FileItem) : Client bool :=
  if opt_startsWith (mime_type file) (js "image/") then
    try_catch
      (_ <- fileService.downloadFile (id file) ;; ret true)
      (fun _ => emit ConsoleError ;; ret false)
  else ret false.

Inductive ViewMode := Grid | ListView.   (* 'grid' | 'list' *)

Inductive IconArea :=
| Thumbnail                  (* the [img] of the thumbnail *)
| YellowFolder               (* the folder icon of the card *)
| FileIcon (icon : Icon).    (* [getFileIcon(file)] *)

(** The icon area, given whether [thumbnailUrl] is set. *)
Definition icon_area (viewMode : ViewMode) (thumbnailUrl : bool) (file : FileItem)
  : IconArea :=
  match viewMode with
  | Grid =>
      if thumbnailUrl then Thumbnail
      else if bool_decide (file_type file = FtFolder) then YellowFolder
      else FileIcon (getFileIcon file)
  | ListView =>
      if bool_decide (file_type file = FtFolder) then YellowFolder
      else if thumbnailUrl then Thumbnail
      else FileIcon (getFileIcon file)
  end.

End FileCard.

(** ** components/dashboard/DashboardModals.tsx: stepping through the
    previewed images *)

Module DashboardModals.

(** [previewImages.findIndex(f => f.id === previewFile?.id)]; -1 when
    nothing matches, in particular when no file is previewed. *)
Fixpoint findIndex_from (k : Z) (previewImages : list FileItem) (previewFile : option FileItem)
  : Z :=
  match previewImages with
  | [] => -1
  | f :: rest =>
      match previewFile with
      | Some p => if id f =? id p then k else findIndex_from (k + 1) rest previewFile
      | None => findIndex_from (k + 1) rest previewFile
      end
  end.

Definition findIndex := findIndex_from 0.

(** [previewImages[i]]: [None] is [undefined]. *)
Definition image_at (previewImages : list FileItem) (i : Z) : option FileItem :=
  if i <? 0 then None else nth_error previewImages (Z.to_nat i).

Definition hasNext (previewImages : list FileItem) (previewFile : option FileItem) : bool :=
  findIndex previewImages previewFile <? Z.of_nat (length previewImages) - 1.

Definition hasPrev (previewImages : list FileItem) (previewFile : option FileItem) : bool :=
  0 <? findIndex previewImages previewFile.

(** What [setPreviewFile] is called with. *)
Inductive Shown :=
| Unchanged                       (* [setPreviewFile] is not called *)
| Show (file : option FileItem).  (* [Show None] is [setPreviewFile(undefined)] *)

Definition onNext (previewImages : list FileItem) (previewFile : option FileItem) : Shown :=
  let currentIndex := findIndex previewImages previewFile in
  if currentIndex <? Z.of_nat (length previewImages) - 1
  then Show (image_at previewImages (currentIndex + 1))
  else Unchanged.

Definition onPrev (previewImages : list FileItem) (previewFile : option FileItem) : Shown :=
  let currentIndex := findIndex previewImages previewFile in
  if 0 <? currentIndex
  then Show (image_at previewImages (currentIndex - 1))
  else Unchanged.

(** The previewed file after the handler ran. *)
Definition shown (s : Shown) (previewFile : option FileItem) : option FileItem :=
  match s with Unchanged => previewFile | Show f => f end.

(** [excludePath] handed to the selector of the move modal. *)
Definition move_excludePath (itemToMove : option FileItem) : option jsstring :=
  match itemToMove with
  | Some item => if bool_decide (file_type item = FtFolder) then Some (path item) else None
  | None => None
  end.

End DashboardModals.

(** ** context/ProgressContext.tsx

    The optional [speed] and [cancel] of a task are set by no caller
    and are left out. *)

Module ProgressContext.

Inductive Status := Pending | Active | Completed | Error | Cancelled.

Record ProgressTask := {
  task_id : nat;
  task_fileName : jsstring;
  task_type : TaskType;
  task_progress : Z;            (* 0-100 *)
  task_status : Status;
  task_error : option jsstring
}.

(** The statuses the file hook writes. *)
Definition of_TaskStatus (s : TaskStatus) : Status :=
  match s with
  | StatusActive => Active
  | StatusCompleted => Completed
  | StatusError => Error
  end.

(** [{ ...task, ...updates }] *)
Definition merge (task : ProgressTask) (updates : TaskUpdate) : ProgressTask :=
  {| task_id := task_id task;
     task_fileName :=
       match upd_fileName updates with Some n => n | None => task_fileName task end;
     task_type := task_type task;
     task_progress :=
       match upd_progress updates with Some p => p | None => task_progress task end;
     task_status :=
       match upd_status updates with
       | Some s => of_TaskStatus s
       | None => task_status task
       end;
     task_error :=
       match upd_error updates with Some e => Some e | None => task_error task end |}.

Definition addTask (id : nat) (fileName : jsstring) (type : TaskType)
    (prev : list ProgressTask) : list ProgressTask :=
  prev ++ [ {| task_id := id; task_fileName := fileName; task_type := type;
               task_progress := 0; task_status := Pending; task_error := None |} ].

Definition updateTask (id : nat) (updates : TaskUpdate) (prev : list ProgressTask)
  : list ProgressTask :=
  List.map (fun task => if (task_id task =? id)%nat then merge task updates else task) prev.

Definition removeTask (id : nat) (prev : list ProgressTask) : list ProgressTask :=
  List.filter (fun task => negb (task_id task =? id)%nat) prev.

Definition cancelTask (id : nat) (prev : list ProgressTask) : list ProgressTask :=
  List.map (fun t =>
              if (task_id t =? id)%nat then
                {| task_id := task_id t; task_fileName := task_fileName t;
                   task_type := task_type t; task_progress := task_progress t;
                   task_status := Cancelled; task_error := task_error t |}
              else t) prev.

(** components/common/Progress: a task in one of these statuses is
    removed three seconds later. *)
Definition auto_removed (task : ProgressTask) : bool :=
  match task_status task with
  | Completed | Error | Cancelled => true
  | Pending | Active => false
  end.

End ProgressContext.

(** ** context/ToastContext.tsx

    The ids come from [uuidv4]; they are drawn from a counter here. *)

Module ToastContext.

Inductive ToastType := TypeSuccess | TypeError | TypeInfo | TypeWarning.

#[global] Instance ToastType_eq_dec : EqDecision ToastType.
Proof. solve_decision. Defined.

Record ToastProps := {
  toast_id : nat;
  toast_message : jsstring;
  toast_type : ToastType;
  toast_duration : Z
}.

Record State := {
  toasts : list ToastProps;
  next_id : nat
}.

Definition no_toasts : State := {| toasts := []; next_id := O |}.

Definition removeToast (id : nat) (st : State) : State :=
  {| toasts := List.filter (fun toast => negb (toast_id toast =? id)%nat) (toasts st);
     next_id := next_id st |}.

(** [duration = 3000] when the argument is left out. *)
Definition showToast (message : jsstring) (type : ToastType) (duration : option Z)
    (st : State) : State :=
  let duration := match duration with Some d => d | None => 3000 end in
  let isDuplicate :=
    existsb (fun t => jsstring_eqb (toast_message t) message
                      && bool_decide (toast_type t = type)) (toasts st) in
  if isDuplicate then st
  else
    {| toasts := toasts st ++ [ {| toast_id := next_id st; toast_message := message;
                                   toast_type := type; toast_duration := duration |} ];
       next_id := S (next_id st) |}.

Definition success (message : jsstring) (duration : option Z) : State -> State :=
  showToast message TypeSuccess duration.
Definition error (message : jsstring) (duration : option Z) : State -> State :=
  showToast message TypeError duration.
Definition info (message : jsstring) (duration : option Z) : State -> State :=
  showToast message TypeInfo duration.
Definition warning (message : jsstring) (duration : option Z) : State -> State :=
  showToast message TypeWarning duration.

(** What happens to the toasts: a component shows one, or a toast is
    closed (by its timer or its button). *)
Inductive Action :=
| DoShow (message : jsstring) (type : ToastType) (duration : option Z)
| DoClose (id : nat).

Definition step (st : State) (a : Action) : State :=
  match a with
  | DoShow message type duration => showToast message type duration st
  | DoClose id => removeToast id st
  end.

Definition run (actions : list Action) : State := fold_left step actions no_toasts.

End ToastContext.

(** ** FileSelectorModal.tsx: the controls of the selector

    The folders listed are those of the last answer of the server; any
    entry may stand for one of them here. *)

Module FileSelectorControls.
Import FileSelectorModal.

Definition loadFolders (path : jsstring) : Client unit :=
  try_catch
    (_ <- fileService.listFiles path ;; ret tt)
    (fun _ => emit ConsoleError).

(** The state set by the effect that runs when the modal opens. *)
Definition opened : State := {| currentPath := js "/"; selectedPath := None |}.

Definition handleNavigate (path : jsstring) (st : State) : Client State :=
  loadFolders path ;;
  ret {| currentPath := path; selectedPath := None |}.

Definition handleFolderClick (folder : FileItem) (st : State) : State :=
  {| currentPath := currentPath st; selectedPath := Some (path folder) |}.

Definition handleFolderDoubleClick (folder : FileItem) (st : State) : Client State :=
  handleNavigate (path folder) st.

(** The Up button. *)
Definition handleBack_click (st : State) : Client State :=
  match handleBack st with
  | Some parentPath => handleNavigate parentPath st
  | None => ret st
  end.

Inductive Action :=
| Click (folder : FileItem)
| DoubleClick (folder : FileItem)
| Up.

(** The handlers of a row run only when the row is not excluded. *)
Definition step (excludePath : option jsstring) (a : Action) (st : State) : Client State :=
  match a with
  | Click folder =>
      if isExcluded excludePath folder then ret st
      else ret (handleFolderClick folder st)
  | DoubleClick folder =>
      if isExcluded excludePath folder then ret st
      else handleFolderDoubleClick folder st
  | Up => handleBack_click st
  end.

Fixpoint run (excludePath : option jsstring) (actions : list Action) (st : State)
  : Client State :=
  match actions with
  | [] => ret st
  | a :: rest => st' <- step excludePath a st ;; run excludePath rest st'
  end.

(** The modal is opened and then used. *)
Definition session (excludePath : option jsstring) (actions : list Action) : Client State :=
  loadFolders (js "/") ;;
  run excludePath actions opened.

End FileSelectorControls.

(** ** pages/Dashboard.tsx: the other handlers *)

Module DashboardHandlers.
Section WithRuntime.
Context {rt : Runtime}.

Definition previewImages (processedFiles : list FileItem) : list FileItem :=
  List.filter (fun f => opt_startsWith (mime_type f) (js "image/")) processedFiles.

(** What a click on an entry opens. *)
Inductive Opened :=
| OpenFolder (path : jsstring)      (* [setCurrentPath(file.path)] *)
| OpenPreview (file : FileItem)     (* [setPreviewFile(file)] *)
| OpenVideo (file : FileItem)       (* [setVideoFile(file)] *)
| OpenNothing.

Definition handleFileClick (file : FileItem) : Opened :=
  if bool_decide (file_type file = FtFolder) then OpenFolder (path file)
  else if opt_startsWith (mime_type file) (js "image/") then OpenPreview file
  else if opt_startsWith (mime_type file) (js "video/") then OpenVideo file
  else OpenNothing.

(** [handleDetails(file?)]: [Some l] when [setDetailsFiles(l)] is called. *)
Definition handleDetails (processedFiles : list FileItem) (selectedIds : list Z)
    (file : option FileItem) : option (list FileItem) :=
  let selectedFiles :=
    List.filter (fun f => useSelection.Set_has selectedIds (id f)) processedFiles in
  match file with
  | Some file =>
      if useSelection.Set_has selectedIds (id file) && (1 <? length selectedIds)%nat
      then Some selectedFiles
      else Some [file]
  | None =>
      if (0 <? length selectedIds)%nat then Some selectedFiles else None
  end.

Definition handleDownload (files : list FileItem) (selectedIds : list Z) (file : FileItem)
  : Client (option bool) :=
  if useSelection.Set_has selectedIds (id file) && (1 <? length selectedIds)%nat
  then useFileOperations.batchDownloadFiles files selectedIds
  else useFileOperations.batchDownloadFiles files [id file].

(** The [onDownload] handed to the action toolbar. *)
Definition toolbar_onDownload (files : list FileItem) (selectedIds : list Z)
  : Client (option bool) :=
  if (0 <? length selectedIds)%nat
  then useFileOperations.batchDownloadFiles files selectedIds
  else ret None.

End WithRuntime.

(** The state of the move modal (useDashboardModals). *)
Record MoveModal := {
  showMoveModal : bool;
  itemToMove : option FileItem
}.

Definition openMoveModal (file : FileItem) : MoveModal :=
  {| showMoveModal := true; itemToMove := Some file |}.

Definition closeMoveModal : MoveModal :=
  {| showMoveModal := false; itemToMove := None |}.

Definition handleMove (st : MoveModal) (destinationPath : jsstring) : Client MoveModal :=
  match itemToMove st with
  | None => ret st
  | Some item =>
      success <- useFileOperations.moveFile (id item) destinationPath ;;
      if success : bool then ret closeMoveModal else ret st
  end.

(** The state of the rename modal (useDashboardModals). *)
Record RenameModal := {
  showRenameModal : bool;
  renameFileState : option FileItem;
  newName : jsstring
}.

Definition openRenameModal (file : FileItem) : RenameModal :=
  {| showRenameModal := true; renameFileState := Some file; newName := name file |}.

Definition closeRenameModal : RenameModal :=
  {| showRenameModal := false; renameFileState := None; newName := js "" |}.

Definition setNewName (n : jsstring) (st : RenameModal) : RenameModal :=
  {| showRenameModal := showRenameModal st; renameFileState := renameFileState st;
     newName := n |}.

Definition handleRename (st : RenameModal) : Client RenameModal :=
  match renameFileState st with
  | None => ret st
  | Some file =>
      success <- useFileOperations.renameFile (id file) (newName st) ;;
      if success : bool then ret closeRenameModal else ret st
  end.

(** The state of the create-folder modal. *)
Record CreateFolderModal := {
  showCreateFolder : bool;
  newFolderName : jsstring
}.

Definition handleCreateFolder (currentPath : jsstring) (st : CreateFolderModal)
  : Client CreateFolderModal :=
  success <- useFileOperations.createFolder currentPath (newFolderName st) ;;
  if success : bool then ret {| showCreateFolder := false; newFolderName := js "" |}
  else ret st.

(** Moving an entry through the modal: the modal opens for [file],
    the user works the selector and presses the action button. *)
Definition move_through_modal (file : FileItem)
    (actions : list FileSelectorControls.Action) : Client MoveModal :=
  let st := openMoveModal file in
  let excludePath := DashboardModals.move_excludePath (itemToMove st) in
  sel <- FileSelectorControls.session excludePath actions ;;
  match FileSelectorModal.handleConfirm excludePath sel with
  | Some targetPath => handleMove st targetPath
  | None => ret st
  end.

End DashboardHandlers.

(** ** components/dashboard/Toolbar.tsx: the crumbs of the older toolbar *)

Module Toolbar.

(** [parts.join(sep)] *)
Fixpoint Array_join (sep : N) (parts : list jsstring) : jsstring :=
  match parts with
  | [] => []
  | [p] => p
  | p :: rest => p ++ sep :: Array_join sep rest
  end.

Definition pathParts (currentPath : jsstring) : list jsstring :=
  List.filter truthy (split slash currentPath).

(** The path [handleBreadcrumbClick(index, parts)] hands to [onNavigate]. *)
Definition handleBreadcrumbClick (index : nat) (parts : list jsstring) : jsstring :=
  let newPath := Array_join slash (firstn (index + 1) parts) in
  or_else newPath (js "/").

End Toolbar.

(** ** Regular expressions

    The patterns of the sign-up page are anchored at both ends and are
    built from classes of code units, concatenation and repetition.
    [test] then tells whether the whole string is in the language of
    the pattern, which is decided here by derivatives. *)

Module RegExp.

Inductive regex :=
| Never                       (* matches no string *)
| Empty                       (* matches the empty string *)
| Class (p : N -> bool)       (* one code unit of a class *)
| Seq (r1 r2 : regex)
| Alt (r1 r2 : regex)
| Star (r : regex).

(** [r+] *)
Definition Plus (r : regex) : regex := Seq r (Star r).

(** One given code unit. *)
Definition Chr (c : N) : regex := Class (N.eqb c).

Fixpoint nullable (r : regex) : bool :=
  match r with
  | Never => false
  | Empty => true
  | Class _ => false
  | Seq r1 r2 => nullable r1 && nullable r2
  | Alt r1 r2 => nullable r1 || nullable r2
  | Star _ => true
  end.

Fixpoint deriv (c : N) (r : regex) : regex :=
  match r with
  | Never => Never
  | Empty => Never
  | Class p => if p c then Empty else Never
  | Seq r1 r2 =>
      if nullable r1 then Alt (Seq (deriv c r1) r2) (deriv c r2)
      else Seq (deriv c r1) r2
  | Alt r1 r2 => Alt (deriv c r1) (deriv c r2)
  | Star r1 => Seq (deriv c r1) (Star r1)
  end.

(** [/^r$/.test(s)] *)
Fixpoint test (r : regex) (s : jsstring) : bool :=
  match s with
  | [] => nullable r
  | c :: s' => test (deriv c r) s'
  end.

End RegExp.

(** ** pages/SignUp.tsx: the checks of the form *)

Module SignUp.
Import RegExp.

(** [[a-zA-Z0-9_]] *)
Definition is_word_char (c : N) : bool :=
  ((97 <=? c) && (c <=? 122) || (65 <=? c) && (c <=? 90)
   || (48 <=? c) && (c <=? 57) || (c =? 95))%N.

(** [/^[a-zA-Z0-9_]+$/] *)
Definition usernameRegex : regex := Plus (Class is_word_char).

(** [[^\s@]]: the class [\s] holds the white space and the line
    terminators, the code units that [trim] removes. *)
Definition not_space_nor_at (c : N) : bool :=
  negb (is_js_space c || (c =? 64)%N).

(** [/^[^\s@]+@[^\s@]+\.[^\s@]+$/] *)
Definition emailRegex : regex :=
  Seq (Plus (Class not_space_nor_at))
      (Seq (Chr 64)
           (Seq (Plus (Class not_space_nor_at))
                (Seq (Chr 46) (Plus (Class not_space_nor_at))))).

Definition validateUsername (value : jsstring) : jsstring :=
  if negb (truthy (trim value)) then js "Username is required"
  else if (length value <? 3)%nat then js "Username must be at least 3 characters"
  else if (20 <? length value)%nat then js "Username must not exceed 20 characters"
  else if negb (test usernameRegex value)
  then js "Username can only contain letters, numbers, and underscores"
  else js "".

Definition validateEmail (value : jsstring) : jsstring :=
  if negb (truthy (trim value)) then js "Email is required"
  else if negb (test emailRegex value) then js "Please enter a valid email address"
  else js "".

Definition validatePassword (value : jsstring) : jsstring :=
  if negb (truthy value) then js "Password is required"
  else if (length value <? 6)%nat then js "Password must be at least 6 characters"
  else if (50 <? length value)%nat then js "Password must not exceed 50 characters"
  else js "".

(** What [handleSubmit] does with the three fields. *)
Inductive Submitted :=
| Stopped (usernameError emailError passwordError : jsstring)
    (* the errors are shown and nothing is sent *)
| Registers (username email password : jsstring).
    (* [register(username, email, password)] is called *)

Definition handleSubmit (username email password : jsstring) : Submitted :=
  let usernameError := validateUsername username in
  let emailError := validateEmail email in
  let passwordError := validatePassword password in
  if truthy usernameError || truthy emailError || truthy passwordError
  then Stopped usernameError emailError passwordError
  else Registers username email password.

End SignUp.

(** ** Numbers as strings

    [n.toString()] for an integer below 10^21 and [parseInt(s, 10)];
    the value read is exact for the integers up to 2^53, which the
    times in milliseconds are. *)

Fixpoint digits_fuel (fuel : nat) (n : Z) (acc : jsstring) : jsstring :=
  match fuel with
  | O => acc
  | S fuel' =>
      let acc' := (48 + Z.to_N (n mod 10))%N :: acc in
      if n / 10 =? 0 then acc' else digits_fuel fuel' (n / 10) acc'
  end.

Definition Number_toString (n : Z) : jsstring :=
  if n <? 0 then 45%N :: digits_fuel (S (Z.to_nat (Z.log2 (- n)))) (- n) []
  else digits_fuel (S (Z.to_nat (Z.log2 n))) n [].

Definition is_digit (c : N) : bool := ((48 <=? c) && (c <=? 57))%N.

(** The value of the digits a string starts with. *)
Fixpoint digits_prefix (acc : Z) (s : jsstring) : Z :=
  match s with
  | c :: s' =>
      if is_digit c then digits_prefix (10 * acc + Z.of_N (c - 48)) s' else acc
  | [] => acc
  end.

Definition unsigned_prefix (s : jsstring) : option Z :=
  match s with
  | c :: _ => if is_digit c then Some (digits_prefix 0 s) else None
  | [] => None
  end.

(** [parseInt(s, 10)]; [None] is [NaN]. *)
Definition parseInt (s : jsstring) : option Z :=
  match trimStart s with
  | c :: s' =>
      if (c =? 45)%N then option_map Z.opp (unsigned_prefix s')
      else if (c =? 43)%N then unsigned_prefix s'
      else unsigned_prefix (c :: s')
  | [] => None
  end.

(** ** context/AuthContext.tsx and the interceptors of services/api.ts *)

Module AuthContext.

Record AuthResponse := {
  token : jsstring;
  user_id : Z;
  username : jsstring;
  role : jsstring
}.

(** [localStorage]: the keys with their values. *)
Definition Storage := list (string * jsstring).

Definition getItem (key : string) (s : Storage) : option jsstring :=
  option_map snd (List.find (fun kv => String.eqb (fst kv) key) s).

Definition removeItem (key : string) (s : Storage) : Storage :=
  List.filter (fun kv => negb (String.eqb (fst kv) key)) s.

Definition setItem (key : string) (value : jsstring) (s : Storage) : Storage :=
  (key, value) :: removeItem key s.

(** [if (x)] on what [getItem] returned: [null] and the empty string
    are falsy. *)
Definition present (x : option jsstring) : bool :=
  match x with Some s => truthy s | None => false end.

(** The string that [getItem] returned, once it is known to be one. *)
Definition text (x : option jsstring) : jsstring :=
  match x with Some s => s | None => [] end.

Record State := {
  user : option AuthResponse;
  localStorage : Storage
}.

Definition clear_session (s : Storage) : Storage :=
  removeItem "token_expires_at" (removeItem "user" (removeItem "token" s)).

Definition thirty_days : Z := 30 * 24 * 60 * 60 * 1000.

Section WithJSON.
(** [JSON.stringify] and [JSON.parse] on the user data; [None] when
    [JSON.parse] throws. *)
Variable JSON_stringify : AuthResponse -> jsstring.
Variable JSON_parse : jsstring -> option AuthResponse.

(** The effect of [AuthProvider] that runs when the page is loaded, at
    the time [now]; [None] when it throws. *)
Definition restore (now : Z) (st : State) : option State :=
  let token := getItem "token" (localStorage st) in
  let savedUser := getItem "user" (localStorage st) in
  let expiresAt := getItem "token_expires_at" (localStorage st) in
  if present token && present savedUser then
    let expired :=
      if present expiresAt then
        match parseInt (text expiresAt) with
        | Some expirationTime => expirationTime <? now
        | None => false
        end
      else false in
    if expired then
      Some {| user := user st; localStorage := clear_session (localStorage st) |}
    else
      match JSON_parse (text savedUser) with
      | Some u => Some {| user := Some u; localStorage := localStorage st |}
      | None => None
      end
  else Some st.

(** [login], given what [authService.login] answered. *)
Definition login (answer : Thrown + AuthResponse) (now : Z) (rememberMe : bool)
    (st : State) : State * (Thrown + unit) :=
  match answer with
  | inl error => (st, inl error)
  | inr userData =>
      let s := setItem "token" (token userData) (localStorage st) in
      let s := setItem "user" (JSON_stringify userData) s in
      let s :=
        if rememberMe
        then setItem "token_expires_at" (Number_toString (now + thirty_days)) s
        else removeItem "token_expires_at" s in
      ({| user := Some userData; localStorage := s |}, inr tt)
  end.

(** [register], given what [authService.register] answered. *)
Definition register (answer : Thrown + AuthResponse) (st : State)
  : State * (Thrown + unit) :=
  match answer with
  | inl error => (st, inl error)
  | inr userData =>
      let s := setItem "token" (token userData) (localStorage st) in
      let s := setItem "user" (JSON_stringify userData) s in
      ({| user := Some userData; localStorage := s |}, inr tt)
  end.

End WithJSON.

Definition logout (st : State) : State :=
  {| user := None; localStorage := clear_session (localStorage st) |}.

Definition isAuthenticated (st : State) : bool :=
  match user st with Some _ => true | None => false end.

(** The request interceptor: the value of the Authorization header it
    sets, if any. *)
Definition authorization (s : Storage) : option jsstring :=
  let token := getItem "token" s in
  if present token then Some (js "Bearer " ++ text token) else None.

(** The response interceptor on a rejected request: the storage
    afterwards and the page it redirects to, if any.  The rejection is
    handed on in every case. *)
Definition on_rejected (error : Thrown) (pathname : jsstring) (s : Storage)
  : Storage * option jsstring :=
  if useFileOperations_useState.is_unauthorized error then
    (clear_session s,
     if jsstring_eqb pathname (js "/login") then None else Some (js "/login"))
  else (s, None).

End AuthContext.

(** ** What further properties speak of *)

Definition size_request (fileIds : list Z) : Request :=
  {| method := POST; endpoint := "/api/files/size"; query := [];
     body := [("file_ids"%string, VNums fileIds)] |}.

(** The tasks shown after the effects [evs] of a hook, from an empty
    list of tasks. *)
Definition apply_event (tasks : list ProgressContext.ProgressTask) (e : Event)
  : list ProgressContext.ProgressTask :=
  match e with
  | AddTask id fileName ty => ProgressContext.addTask id fileName ty tasks
  | UpdateTask id u => ProgressContext.updateTask id u tasks
  | _ => tasks
  end.

Definition tasks_after (evs : list Event) : list ProgressContext.ProgressTask :=
  fold_left apply_event evs [].

(** The key by which [showToast] recognises a duplicate. *)
Definition toast_key (t : ToastContext.ToastProps) : jsstring * ToastContext.ToastType :=
  (ToastContext.toast_message t, ToastContext.toast_type t).

(** The request that lists the folder [path]. *)
Definition list_request (path : jsstring) : Request :=
  {| method := GET; endpoint := "/api/files";
     query := [("path"%string, VStr path)]; body := [] |}.

Definition move_request (fileId : Z) (destinationPath : jsstring) : Request :=
  {| method := PUT; endpoint := "/api/files/move"; query := [];
     body := [("file_id"%string, VNum fileId);
              ("destination_path"%string, VStr destinationPath)] |}.

(** A request the move modal may send for the folder [q] with id
    [fileId]: a listing of a folder outside [q], or the move of
    [fileId] to a destination outside [q]. *)
Definition outside_request (q : jsstring) (fileId : Z) (r : Request) : Prop :=
  exists p, into_itself q p = false
            /\ (r = list_request p \/ r = move_request fileId p).

(** The listings asked of the server are all for folders outside [q]. *)
Definition lists_outside (q : jsstring) (evs : list Event) : Prop :=
  Forall (fun r => exists p, into_itself q p = false /\ r = list_request p)
         (requests evs).

(** Neither the folder shown nor the destination that the action button
    would take is [q] or a path under it. *)
Definition stays_outside (q : jsstring) (st : FileSelectorModal.State) : Prop :=
  into_itself q (FileSelectorModal.currentPath st) = false
  /\ into_itself q (target st) = false.

Definition rename_request (fileId : Z) (newName : jsstring) : Request :=
  {| method := PUT; endpoint := "/api/files/rename"; query := [];
     body := [("file_id"%string, VNum fileId); ("new_name"%string, VStr newName)] |}.

Definition folder_request (path name : jsstring) : Request :=
  {| method := POST; endpoint := "/api/files/folder"; query := [];
     body := [("path"%string, VStr path); ("name"%string, VStr name)] |}.

(** The invariant of the toasts: no two share a message and a type, no
    two share an id, and every id is below the next one to be drawn. *)
Definition toasts_distinct (st : ToastContext.State) : Prop :=
  NoDup (List.map toast_key (ToastContext.toasts st))
  /\ NoDup (List.map ToastContext.toast_id (ToastContext.toasts st))
  /\ Forall (fun t => (ToastContext.toast_id t < ToastContext.next_id st)%nat)
            (ToastContext.toasts st).



(** What the upload of one file does when it is started. *)
Definition upload_started (path : jsstring) (task : nat * jsstring) : list Event :=
  [UpdateTask task.1 {| upd_status := Some StatusActive; upd_progress := None;
                        upd_error := None; upd_fileName := None |};
   ApiCall (upload_request task.2 path)].

(** What it does when the answer has arrived. *)
Definition upload_finished (srv : Server) (path : jsstring) (task : nat * jsstring)
  : list Event :=
  match srv (upload_request task.2 path) with
  | Resolved _ =>
      [UpdateTask task.1 {| upd_status := Some StatusCompleted;
                            upd_progress := Some 100;
                            upd_error := None; upd_fileName := None |}]
  | Rejected error =>
      [ConsoleError;
       UpdateTask task.1 {| upd_status := Some StatusError; upd_progress := None;
                            upd_error := Some (useFileOperations.upload_error_text error);
                            upd_fileName := None |}]
  end.

(** How the promise of one upload settles. *)
Definition upload_outcome (srv : Server) (path : jsstring) (task : nat * jsstring)
  : Thrown + unit :=
  match srv (upload_request task.2 path) with
  | Resolved _ => inr tt
  | Rejected error => inl error
  end.



(** The ids that the confirmation of the delete modal is about: the
    item the modal was opened for, or else the selection. *)
Definition to_delete (st : Dashboard.State) : list Z :=
  match Dashboard.itemToDelete st with
  | Some item => [id item]
  | None => Dashboard.selectedIds st
  end.

(** A server that accepts every request and names no file. *)
Definition accepting : Server :=
  in_order (fun _ => Resolved {| content_disposition := None |}).

(** How a back end that has no room for the file named [a.txt] answers:
    it refuses the upload of that file and accepts everything else. *)
Definition no_room_for_a_txt (r : Request) : Outcome :=
  match body r with
  | [_; (_, VFile file)] =>
      if jsstring_eqb file (js "a.txt") then Rejected quota_exceeded_no_message
      else Resolved {| content_disposition := None |}
  | _ => Resolved {| content_disposition := None |}
  end.

(** The strings a pattern matches. *)
Inductive matches : RegExp.regex -> jsstring -> Prop :=
| matches_Empty : matches RegExp.Empty []
| matches_Class (p : N -> bool) (c : N) : p c = true -> matches (RegExp.Class p) [c]
| matches_Seq (r1 r2 : RegExp.regex) (s1 s2 : jsstring) :
    matches r1 s1 -> matches r2 s2 -> matches (RegExp.Seq r1 r2) (s1 ++ s2)
| matches_Alt_l (r1 r2 : RegExp.regex) (s : jsstring) :
    matches r1 s -> matches (RegExp.Alt r1 r2) s
| matches_Alt_r (r1 r2 : RegExp.regex) (s : jsstring) :
    matches r2 s -> matches (RegExp.Alt r1 r2) s
| matches_Star_nil (r : RegExp.regex) : matches (RegExp.Star r) []
| matches_Star_app (r : RegExp.regex) (s1 s2 : jsstring) :
    matches r s1 -> matches (RegExp.Star r) s2 -> matches (RegExp.Star r) (s1 ++ s2).

(** A non-empty run of code units that are neither white space nor
    an at sign. *)
Definition email_part (s : jsstring) : Prop :=
  s <> [] /\ Forall (fun c => SignUp.not_space_nor_at c = true) s.

(** A page that was just loaded over the storage [s]. *)
Definition loaded (s : AuthContext.Storage) : AuthContext.State :=
  {| AuthContext.user := None; AuthContext.localStorage := s |}.

(** A user, for worked examples. *)
Definition alice : AuthContext.AuthResponse :=
  {| AuthContext.token := js "t0k3n"; AuthContext.user_id := 1;
     AuthContext.username := js "alice"; AuthContext.role := js "user" |}.

(** * Properties *)

(** ** Strings *)

Lemma truthy_true_iff (s : jsstring) : truthy s = true <-> s <> [].
Proof. destruct s; simpl; split; congruence. Qed.

Lemma jsstring_eqb_true (a b : jsstring) : jsstring_eqb a b = true <-> a = b.
Proof. unfold jsstring_eqb. apply bool_decide_eq_true. Qed.

Lemma jsstring_eqb_false (a b : jsstring) : jsstring_eqb a b = false <-> a <> b.
Proof. unfold jsstring_eqb. apply bool_decide_eq_false. Qed.

Lemma startsWith_app (s p : jsstring) : startsWith (p ++ s) p = true.
Proof.
  induction p as [|c p IH]; simpl; [done|].
  now rewrite N.eqb_refl, IH.
Qed.

Lemma startsWith_prefix (s p : jsstring) :
  startsWith s p = true <-> exists r, s = p ++ r.
Proof.
  revert s. induction p as [|c p IH]; intros s; simpl.
  - split; [intros _; now exists s|done].
  - destruct s as [|d s].
    + split; [done|]. intros [r Hr]. discriminate.
    + rewrite andb_true_iff, N.eqb_eq, IH. split.
      * intros [-> [r ->]]. eauto.
      * intros [r Hr]. injection Hr as -> ->. eauto.
Qed.

Lemma split_nonempty sep s : split sep s <> [].
Proof.
  destruct s as [|c s]; simpl; [done|].
  destruct (c =? sep)%N; [done|].
  destruct (split sep s); done.
Qed.

Lemma split_cons_sep sep s : split sep (sep :: s) = [] :: split sep s.
Proof. simpl. now rewrite N.eqb_refl. Qed.

Lemma split_cons_other sep c s :
  c <> sep ->
  split sep (c :: s) = (c :: hd [] (split sep s)) :: tl (split sep s).
Proof.
  intros Hc. simpl. apply N.eqb_neq in Hc. rewrite Hc.
  pose proof (split_nonempty sep s). destruct (split sep s); done.
Qed.

Lemma split_sep_free sep s : Forall (fun p => sep ∉ p) (split sep s).
Proof.
  induction s as [|c s IH].
  - simpl. constructor; [|constructor]. apply not_elem_of_nil.
  - destruct (N.eq_dec c sep) as [->|Hc].
    + rewrite split_cons_sep. constructor; [apply not_elem_of_nil|done].
    + rewrite split_cons_other by done.
      pose proof (split_nonempty sep s) as Hne.
      destruct (split sep s) as [|w ws]; [done|]. simpl.
      inversion IH as [|? ? Hw Hws]; subst.
      constructor; [|done]. rewrite elem_of_cons. intros [?|?]; congruence.
Qed.

(** ** Breadcrumbs: decomposition and recomposition of a path *)

Section PathProperties.
Import Breadcrumbs PathSpec.

Lemma unsplit_split s : unsplit (split slash s) = s.
Proof.
  induction s as [|c s IH]; [done|].
  destruct (N.eq_dec c slash) as [->|Hc].
  - rewrite split_cons_sep. pose proof (split_nonempty slash s).
    simpl. destruct (split slash s); [done|]. now rewrite IH.
  - rewrite split_cons_other by done.
    pose proof (split_nonempty slash s).
    destruct (split slash s) as [|w ws]; [done|].
    simpl in *. destruct ws; simpl; now rewrite <- IH.
Qed.

Lemma collapse_cons_other c s :
  c <> slash -> collapse_slashes (c :: s) = c :: collapse_slashes s.
Proof.
  intros Hc. apply N.eqb_neq in Hc.
  destruct s as [|d s]; [done|].
  change (collapse_slashes (c :: d :: s))
    with (if (c =? slash)%N && (d =? slash)%N
          then collapse_slashes (d :: s) else c :: collapse_slashes (d :: s)).
  now rewrite Hc.
Qed.

Lemma collapse_word w r :
  slash ∉ w -> collapse_slashes (w ++ r) = w ++ collapse_slashes r.
Proof.
  induction w as [|c w IH]; intros Hw; [done|].
  apply not_elem_of_cons in Hw as [Hc Hw].
  change ((c :: w) ++ r) with (c :: (w ++ r)).
  rewrite collapse_cons_other by congruence.
  now rewrite IH.
Qed.

Lemma collapse_slash_slash r :
  collapse_slashes (slash :: slash :: r) = collapse_slashes (slash :: r).
Proof. reflexivity. Qed.

Lemma collapse_slash_word c r :
  c <> slash ->
  collapse_slashes (slash :: c :: r) = slash :: collapse_slashes (c :: r).
Proof.
  intros Hc. apply N.eqb_neq in Hc.
  change (collapse_slashes (slash :: c :: r))
    with (if (slash =? slash)%N && (c =? slash)%N
          then collapse_slashes (c :: r) else slash :: collapse_slashes (c :: r)).
  now rewrite Hc, andb_false_r.
Qed.

Lemma collapse_unsplit parts :
  parts <> [] -> Forall (fun p => slash ∉ p) parts ->
  collapse_slashes (slash :: unsplit parts)
  = join (List.filter truthy parts) ++ trailing parts.
Proof.
  induction parts as [|p ps IH]; [done|]. intros _ Hall.
  inversion Hall as [|? ? Hp Hps]; subst.
  destruct ps as [|q qs].
  - destruct p as [|c p]; [done|].
    apply not_elem_of_cons in Hp as Hp'. destruct Hp' as [Hc Hp'].
    change (unsplit [c :: p]) with (c :: p).
    rewrite collapse_slash_word by congruence.
    rewrite <- (app_nil_r (c :: p)) at 1. rewrite collapse_word by done.
    unfold join, trailing. simpl. now rewrite !app_nil_r.
  - specialize (IH ltac:(done) Hps).
    change (unsplit (p :: q :: qs)) with (p ++ slash :: unsplit (q :: qs)).
    assert (trailing (p :: q :: qs) = trailing (q :: qs)) as -> by done.
    destruct p as [|c p].
    + change ([] ++ slash :: unsplit (q :: qs)) with (slash :: unsplit (q :: qs)).
      change (List.filter truthy ([] :: q :: qs))
        with (List.filter truthy (q :: qs)).
      rewrite collapse_slash_slash. exact IH.
    + apply not_elem_of_cons in Hp as Hp'. destruct Hp' as [Hc Hp'].
      change ((c :: p) ++ slash :: unsplit (q :: qs))
        with (c :: (p ++ slash :: unsplit (q :: qs))).
      rewrite collapse_slash_word by congruence.
      change (c :: (p ++ slash :: unsplit (q :: qs)))
        with ((c :: p) ++ slash :: unsplit (q :: qs)).
      rewrite collapse_word by done. rewrite IH.
      change (List.filter truthy ((c :: p) :: q :: qs))
        with ((c :: p) :: List.filter truthy (q :: qs)).
      unfold join. simpl. now rewrite <- !app_assoc.
Qed.

Lemma filter_truthy_nil_last parts :
  List.filter truthy parts = [] -> truthy (List.last parts []) = false.
Proof.
  induction parts as [|p ps IH]; [done|]. simpl.
  destruct p; simpl; [|done]. intros H.
  destruct ps; [done|]. now apply IH.
Qed.

Lemma endsWith_snoc (s : jsstring) (d c : N) :
  endsWith (s ++ [d]) [c] = (c =? d)%N.
Proof.
  unfold endsWith. rewrite rev_app_distr. simpl. now rewrite andb_true_r.
Qed.

(** A non-empty recomposition ends in the last character of its last
    segment. *)
Lemma join_last segs :
  segs <> [] -> Forall (fun p => p <> [] /\ slash ∉ p) segs ->
  exists y d, join segs = y ++ [d] /\ d <> slash /\ y <> [].
Proof.
  intros Hne Hall.
  destruct (exists_last Hne) as [segs' [seg ->]].
  apply Forall_app in Hall as [_ Hseg].
  inversion Hseg as [|? ? [Hn Hfree] _]; subst.
  destruct (exists_last Hn) as [seg' [d ->]].
  exists (join segs' ++ slash :: seg'), d. split; [|split].
  - unfold join. rewrite map_app, concat_app. simpl.
    now rewrite app_nil_r, <- app_assoc.
  - intros ->. apply Hfree. apply elem_of_app. right. apply list_elem_of_here.
  - destruct (join segs'); done.
Qed.

Lemma segments_parts s :
  Forall (fun p => p <> [] /\ slash ∉ p) (segments s).
Proof.
  unfold segments. pose proof (split_sep_free slash s) as H.
  induction H as [|p ps Hp Hps IH]; simpl; [constructor|].
  destruct p; simpl; [done|]. constructor; done.
Qed.

(** Collapsing the separators of an absolute path and stripping the
    trailing one leaves its segments, joined again. *)
Lemma normalize_absolute s :
  normalize (slash :: s) = recompose (segments s).
Proof.
  unfold normalize.
  rewrite <- (unsplit_split s) at 1.
  rewrite collapse_unsplit by (apply split_nonempty || apply split_sep_free).
  fold (segments s). pose proof (segments_parts s) as Hsegs.
  destruct (segments s) as [|g gs] eqn:E.
  - unfold trailing. rewrite filter_truthy_nil_last by done. done.
  - destruct (join_last (g :: gs)) as (y & d & Hj & Hd & Hy); [done|done|].
    change (recompose (g :: gs)) with (join (g :: gs)).
    unfold strip_trailing_slash, trailing.
    destruct (truthy (List.last (split slash s) [])).
    + rewrite app_nil_r, Hj.
      assert (jsstring_eqb (y ++ [d]) (js "/") = false) as ->.
      { apply jsstring_eqb_false. destruct y as [|? [|? ?]]; done. }
      change (js "/") with [slash]. rewrite endsWith_snoc.
      assert ((slash =? d)%N = false) as -> by (apply N.eqb_neq; congruence).
      done.
    + assert (jsstring_eqb (join (g :: gs) ++ [slash]) (js "/") = false) as ->.
      { apply jsstring_eqb_false. rewrite Hj. intros H.
        apply (f_equal length) in H. rewrite !length_app in H.
        destruct y; simpl in H; [done|lia]. }
      change (js "/") with [slash]. rewrite endsWith_snoc, N.eqb_refl.
      apply removelast_last.
Qed.

Lemma segments_cons_slash s : segments (slash :: s) = segments s.
Proof. unfold segments. now rewrite split_cons_sep. Qed.

Lemma push_parts_names acc parts :
  List.map crumb_name (push_parts acc parts) = parts.
Proof.
  revert acc. induction parts as [|p ps IH]; intros acc; simpl; [done|].
  now rewrite IH.
Qed.

(** The crumb at position [k] carries the recomposition of the first
    [k + 1] parts. *)
Lemma push_parts_lookup acc parts k c :
  push_parts acc parts !! k = Some c ->
  crumb_path c = acc ++ join (take (S k) parts).
Proof.
  revert acc k. induction parts as [|p ps IH]; intros acc k; simpl; [done|].
  destruct k as [|k]; simpl.
  - intros [= <-]. simpl. unfold join. simpl.
    rewrite ?take_0. simpl. now rewrite ?app_nil_r.
  - intros H. apply IH in H. rewrite H. unfold join. simpl.
    now rewrite <- app_assoc.
Qed.

Lemma push_parts_length acc parts :
  length (push_parts acc parts) = length parts.
Proof.
  revert acc. induction parts as [|p ps IH]; intros acc; simpl; [done|].
  now rewrite IH.
Qed.

Lemma getBreadcrumbs_unfold p :
  getBreadcrumbs p = root_crumb :: push_parts [] (segments p).
Proof.
  unfold getBreadcrumbs. destruct (jsstring_eqb p (js "/")) eqn:E; [|done].
  apply jsstring_eqb_true in E as ->. reflexivity.
Qed.

Lemma getBreadcrumbs_last p :
  crumb_path (List.last (getBreadcrumbs p) root_crumb) = recompose (segments p).
Proof.
  rewrite getBreadcrumbs_unfold.
  destruct (segments p) as [|g gs] eqn:E; [done|].
  pose proof (push_parts_length [] (g :: gs)) as Hlen.
  destruct (push_parts [] (g :: gs)) as [|c cs] eqn:Ec; [done|].
  destruct (exists_last (l := c :: cs)) as [cs' [c' Hl]]; [done|].
  change (List.last (root_crumb :: c :: cs) root_crumb) with (List.last (c :: cs) root_crumb).
  rewrite Hl, last_last.
  assert (push_parts [] (g :: gs) !! length cs' = Some c') as Hk.
  { rewrite Ec, Hl. rewrite lookup_app_r by lia.
    now rewrite Nat.sub_diag. }
  apply push_parts_lookup in Hk. rewrite Hk.
  rewrite Hl, length_app in Hlen. simpl in Hlen.
  rewrite take_ge by (simpl; lia). done.
Qed.

End PathProperties.

Section BreadcrumbsFacts.
Import Breadcrumbs PathSpec.

(** C7, as amended.  For every absolute path the breadcrumbs start at
    the root, carry one crumb per non-empty segment of the path (so
    "." and ".." are kept as ordinary segments, not rejected), the crumb
    at position k holds the recomposition of the first k segments, and
    the last crumb holds the normal form of the path: repeated separators
    collapsed and the trailing slash stripped, except for the root. *)
Theorem breadcrumbs_normalize_path (p : jsstring) :
  startsWith p (js "/") = true ->
  let crumbs := getBreadcrumbs p in
  hd_error crumbs = Some root_crumb /\
  List.map crumb_name crumbs = js "My Files" :: segments p /\
  (forall k c, crumbs !! S k = Some c ->
               crumb_path c = recompose (take (S k) (segments p))) /\
  crumb_path (List.last crumbs root_crumb) = normalize p /\
  normalize p = recompose (segments p).
Proof.
  intros Hp crumbs.
  assert (normalize p = recompose (segments p)) as Hn.
  { change (js "/") with [slash] in Hp.
    apply startsWith_prefix in Hp as [s ->]. simpl app.
    rewrite segments_cons_slash. apply normalize_absolute. }
  subst crumbs. split; [|split; [|split; [|split]]].
  - now rewrite getBreadcrumbs_unfold.
  - rewrite getBreadcrumbs_unfold. simpl. now rewrite push_parts_names.
  - intros k c. rewrite getBreadcrumbs_unfold. simpl. intros H.
    pose proof (push_parts_lookup _ _ _ _ H) as Hc. rewrite Hc. simpl.
    apply lookup_lt_Some in H. rewrite push_parts_length in H.
    destruct (segments p); [simpl in H; lia|done].
  - rewrite getBreadcrumbs_last. now rewrite Hn.
  - exact Hn.
Qed.

Lemma breadcrumbs_normalize_path_witness :
  startsWith (js "/a//b/") (js "/") = true /\
  crumb_path (List.last (getBreadcrumbs (js "/a//b/")) root_crumb) = js "/a/b".
Proof.
  split; [reflexivity|].
  destruct (breadcrumbs_normalize_path (js "/a//b/") eq_refl) as (_ & _ & _ & H & _).
  rewrite H. reflexivity.
Defined.

(** C7 as stated does not hold: a ".." segment is not rejected, it
    becomes a breadcrumb of its own. *)
Lemma breadcrumbs_keep_dot_segments :
  ~ (forall p c, In c (getBreadcrumbs p) -> is_dot_segment (crumb_name c) = false).
Proof.
  intros H.
  specialize (H (js "/a/../b") {| crumb_name := js ".."; crumb_path := js "/a/.." |}).
  assert (is_dot_segment (js "..") = true) as Hdot by reflexivity.
  simpl crumb_name in H. rewrite H in Hdot; [discriminate|].
  vm_compute. tauto.
Qed.

(** Without a leading separator the crumbs are those of the path made
    absolute. *)
Lemma breadcrumbs_relative (p : jsstring) :
  crumb_path (List.last (getBreadcrumbs p) root_crumb) = normalize (slash :: p).
Proof. rewrite getBreadcrumbs_last. symmetry. apply normalize_absolute. Qed.

Lemma lastIndexOf_absent c (s : jsstring) : c ∉ s -> lastIndexOf c s = None.
Proof.
  induction s as [|d s IH]; [done|]. intros H.
  apply not_elem_of_cons in H as [Hd Hs]. simpl. rewrite IH by done.
  assert ((d =? c)%N = false) as -> by (apply N.eqb_neq; congruence). done.
Qed.

Lemma lastIndexOf_last c (a s : jsstring) :
  c ∉ s -> lastIndexOf c (a ++ c :: s) = Some (length a).
Proof.
  intros Hs. induction a as [|d a IH]; simpl.
  - now rewrite lastIndexOf_absent, N.eqb_refl.
  - now rewrite IH.
Qed.

(** The Up button of the destination selector leads from a recomposed
    path to the recomposition of all segments but the last. *)
Lemma handleBack_parent (segs : list jsstring) (seg : jsstring) cur sel :
  seg <> [] -> slash ∉ seg ->
  cur = recompose (segs ++ [seg]) ->
  FileSelectorModal.handleBack
    {| FileSelectorModal.currentPath := cur; FileSelectorModal.selectedPath := sel |}
  = Some (recompose segs).
Proof.
  intros Hne Hseg ->. unfold FileSelectorModal.handleBack. simpl.
  assert (recompose (segs ++ [seg]) = join segs ++ slash :: seg) as ->.
  { unfold recompose, join. destruct segs; simpl; [now rewrite app_nil_r|].
    rewrite map_app, concat_app. simpl. now rewrite app_nil_r, <- app_assoc. }
  destruct (jsstring_eqb (join segs ++ slash :: seg) (js "/")) eqn:E.
  - apply jsstring_eqb_true in E. exfalso.
    destruct segs as [|g gs].
    + injection E as E. done.
    + apply (f_equal length) in E. unfold join in E. simpl in E.
      rewrite !length_app in E. simpl in E. lia.
  - rewrite lastIndexOf_last by done. unfold substring0.
    rewrite firstn_app, Nat.sub_diag, firstn_all. simpl. rewrite app_nil_r.
    unfold or_else, recompose. destruct segs; [done|].
    unfold join. done.
Qed.

End BreadcrumbsFacts.

(** ** The destination selector of a move *)

Section SelectorFacts.
Import FileSelectorModal.

(** What [handleConfirm] does: the selection goes through unless the
    moved folder's path is a prefix of it, character by character. *)
Lemma handleConfirm_spec (q : jsstring) (st : State) :
  handleConfirm (Some q) st
  = if truthy q && startsWith (target st) q then None else Some (target st).
Proof. reflexivity. Qed.

(** A move into the folder itself or below it is never requested. *)
Lemma handleConfirm_never_into_itself (q : jsstring) (st : State) :
  q <> [] -> into_itself q (target st) = true -> handleConfirm (Some q) st = None.
Proof.
  intros Hq H. rewrite handleConfirm_spec.
  apply truthy_true_iff in Hq. rewrite Hq. simpl.
  unfold into_itself in H. apply orb_true_iff in H as [H|H].
  - apply jsstring_eqb_true in H. rewrite H.
    rewrite <- (app_nil_r q) at 1. now rewrite startsWith_app.
  - apply startsWith_prefix in H as [r Hr]. rewrite Hr, <- app_assoc.
    now rewrite startsWith_app.
Qed.

(** C1, the failing input.  While "/docs" is being moved, the sibling
    folder "/docs2" is offered as an enabled row ([isExcluded] is false,
    it is neither "/docs" nor below it), yet confirming it sends no move
    request: [handleConfirm] compares by bare prefix. *)
Lemma handleConfirm_blocks_sibling :
  into_itself (js "/docs") (js "/docs2") = false /\
  isExcluded (Some (js "/docs")) docs2 = false /\
  handleConfirm (Some (js "/docs"))
    {| currentPath := js "/"; selectedPath := Some (js "/docs2") |} = None.
Proof. repeat split. Qed.

(** The disabled rows of the list are exactly the destinations inside
    the moved folder. *)
Lemma isExcluded_into_itself (q : jsstring) (f : FileItem) :
  q <> [] -> isExcluded (Some q) f = into_itself q (path f).
Proof.
  intros Hq. apply truthy_true_iff in Hq. unfold isExcluded, into_itself.
  now rewrite Hq.
Qed.

End SelectorFacts.

(** ** Array.prototype.sort *)

Section SortProperties.
Context {A : Type} (comparefn : A -> A -> option Z).

Lemma sort_insert_perm x l : Permutation (sort_insert comparefn x l) (x :: l).
Proof.
  induction l as [|y l IH]; simpl; [done|].
  destruct (compare_result (comparefn x y) <=? 0); [done|].
  rewrite IH. apply perm_swap.
Qed.

Lemma Array_sort_perm l : Permutation (Array_sort comparefn l) l.
Proof.
  induction l as [|x l IH]; simpl; [done|].
  rewrite sort_insert_perm. now constructor.
Qed.

Lemma Array_sort_elem_of l x : x ∈ Array_sort comparefn l <-> x ∈ l.
Proof. now rewrite Array_sort_perm. Qed.

(** Any transitive relation the comparator decides is established by
    the sort, on the elements satisfying [P]. *)
Section Sorted.
Variable P : A -> Prop.
Variable R : A -> A -> Prop.
Hypothesis R_trans : forall a b c, P a -> P b -> P c -> R a b -> R b c -> R a c.
Hypothesis R_le : forall a b, P a -> P b -> cmp_le comparefn a b -> R a b.
Hypothesis R_gt : forall a b, P a -> P b -> ~ cmp_le comparefn a b -> R b a.

Lemma sort_insert_sorted x l :
  P x -> Forall P l -> StronglySorted R l ->
  StronglySorted R (sort_insert comparefn x l).
Proof.
  intros Px Pl Hs. induction Hs as [|y l Hs IH Hy]; simpl.
  - repeat constructor.
  - inversion Pl as [|? ? Py Pl']; subst.
    destruct (Z.leb_spec (compare_result (comparefn x y)) 0) as [Hle|Hgt].
    + constructor; [now constructor|].
      assert (R x y) as Hxy by (apply R_le; done).
      constructor; [done|].
      rewrite Forall_forall in Hy, Pl' |- *. intros z Hz.
      apply (R_trans x y z); auto.
    + constructor; [auto|].
      assert (R y x) as Hyx by (apply R_gt; [done|done|unfold cmp_le; lia]).
      rewrite Forall_forall in Hy |- *. intros z Hz.
      rewrite sort_insert_perm in Hz. apply elem_of_cons in Hz as [->|Hz]; auto.
Qed.

Lemma Array_sort_sorted l :
  Forall P l -> StronglySorted R (Array_sort comparefn l).
Proof.
  induction l as [|x l IH]; intros Pl; simpl; [constructor|].
  inversion Pl as [|? ? Px Pl']; subst.
  apply sort_insert_sorted; auto.
  rewrite Forall_forall in Pl' |- *. intros z Hz. apply Pl'.
  now apply Array_sort_elem_of.
Qed.
End Sorted.

End SortProperties.

Lemma StronglySorted_lookup {A} (R : A -> A -> Prop) (l : list A) i j a b :
  StronglySorted R l -> (i < j)%nat -> l !! i = Some a -> l !! j = Some b -> R a b.
Proof.
  intros Hs. revert i j. induction Hs as [|x l Hs IH Hx]; intros i j Hij Hi Hj; [done|].
  destruct j as [|j]; [lia|]. simpl in Hj.
  destruct i as [|i]; simpl in Hi.
  - injection Hi as ->. rewrite Forall_forall in Hx. apply Hx.
    apply list_elem_of_lookup. eauto.
  - apply (IH i j); [lia|done|done].
Qed.

(** ** useFileFilter: the order of the listing *)

Section FilterFacts.
Import useFileFilter.
Context {rt : Runtime}.

Lemma comparator_kind_le sortBy a b :
  cmp_le (comparator sortBy) a b -> kind_le a b.
Proof.
  unfold cmp_le, comparator, kind_le.
  destruct (file_type a), (file_type b); simpl; try done.
Qed.

Lemma comparator_kind_gt sortBy a b :
  ~ cmp_le (comparator sortBy) a b -> kind_le b a.
Proof.
  unfold cmp_le, comparator, kind_le.
  destruct (file_type a), (file_type b); simpl; try done.
  intros H _. exfalso. apply H. done.
Qed.

Lemma kind_le_trans a b c : kind_le a b -> kind_le b c -> kind_le a c.
Proof. unfold kind_le. auto. Qed.

(** Folders stay on top whatever the key comparison does. *)
Lemma sorted_folders_first sortBy l :
  StronglySorted kind_le (Array_sort (comparator sortBy) l).
Proof.
  apply (Array_sort_sorted (comparator sortBy) (fun _ => True)).
  - intros a b c _ _ _. apply kind_le_trans.
  - intros a b _ _. apply comparator_kind_le.
  - intros a b _ _. apply comparator_kind_gt.
  - rewrite Forall_forall. done.
Qed.

Lemma comparator_same_kind sortBy a b :
  file_type a = file_type b ->
  cmp_le (comparator sortBy) a b ->
  key_valid sortBy a -> key_valid sortBy b -> key_le sortBy a b.
Proof.
  unfold cmp_le, comparator, key_le, key_valid. intros ->.
  rewrite bool_decide_eq_true_2 by done. simpl.
  destruct sortBy; simpl; try lia.
  intros H [ta Hta] [tb Htb]. rewrite Hta, Htb in *. simpl in H. lia.
Qed.

Lemma comparator_trans sortBy l :
  sort_key_consistent sortBy l ->
  forall a b c, key_valid sortBy a -> key_valid sortBy b -> key_valid sortBy c ->
    cmp_le (comparator sortBy) a b -> cmp_le (comparator sortBy) b c ->
    cmp_le (comparator sortBy) a c.
Proof.
  intros Hc a b c Ha Hb Hcv. unfold cmp_le, comparator.
  destruct (file_type a), (file_type b), (file_type c); simpl; try done; try lia.
  all: destruct sortBy; simpl in *; try lia.
  all: try (apply localeCompare_trans).
  all: destruct Ha as [ta Hta], Hb as [tb Htb], Hcv as [tc Htc];
    rewrite Hta, Htb, Htc; simpl; lia.
Qed.

Lemma comparator_total sortBy l :
  sort_key_consistent sortBy l ->
  forall a b, key_valid sortBy a -> key_valid sortBy b ->
    ~ cmp_le (comparator sortBy) a b -> cmp_le (comparator sortBy) b a.
Proof.
  intros Hc a b Ha Hb. unfold cmp_le, comparator.
  destruct (file_type a), (file_type b); simpl; try done; try lia.
  all: destruct sortBy; simpl in *; try lia.
  all: try (pose proof (localeCompare_antisym (name a) (name b)); lia).
  all: destruct Ha as [ta Hta], Hb as [tb Htb]; rewrite Hta, Htb; simpl; lia.
Qed.

End FilterFacts.

Lemma elem_of_List_filter {A} (f : A -> bool) (l : list A) (x : A) :
  x ∈ List.filter f l <-> x ∈ l /\ f x = true.
Proof. rewrite !list_elem_of_In. apply filter_In. Qed.

Section FilterStages.
Import useFileFilter.
Context {rt : Runtime}.

Lemma category_keeps_folder cat f :
  file_type f = FtFolder -> category_keeps cat f = true.
Proof. unfold category_keeps. now intros ->. Qed.

Lemma filter_by_category_elem cat l x :
  x ∈ filter_by_category cat l <->
  x ∈ l /\ (cat = CatAll \/ category_keeps cat x = true).
Proof.
  unfold filter_by_category.
  destruct cat; rewrite ?elem_of_List_filter; intuition congruence.
Qed.

Lemma filter_by_search_elem q l x :
  x ∈ filter_by_search q l <->
  x ∈ l /\ (truthy q = false \/ search_keeps q x = true).
Proof.
  unfold filter_by_search.
  destruct (truthy q); rewrite ?elem_of_List_filter; intuition congruence.
Qed.

Lemma processedFiles_elem files cat q sortBy x :
  x ∈ processedFiles files cat q sortBy <->
  x ∈ files /\ (cat = CatAll \/ category_keeps cat x = true)
  /\ (truthy q = false \/ search_keeps q x = true).
Proof.
  unfold processedFiles.
  rewrite Array_sort_elem_of, filter_by_search_elem, filter_by_category_elem.
  tauto.
Qed.

(** The category filter keeps every folder, and so does the whole
    pipeline for the folders that match the search. *)
Lemma folders_survive_category files cat q sortBy f :
  f ∈ files -> file_type f = FtFolder ->
  f ∈ filter_by_category cat files /\
  (truthy q = false \/ search_keeps q f = true ->
   f ∈ processedFiles files cat q sortBy).
Proof.
  intros Hf Hk. pose proof (category_keeps_folder cat f Hk) as Hc. split.
  - apply filter_by_category_elem. auto.
  - intros Hq. apply processedFiles_elem. auto.
Qed.

(** Folders come before files for every input, also when the key
    comparison is undefined on some entries. *)
Lemma processedFiles_folders_first files cat q sortBy i j a b :
  let result := processedFiles files cat q sortBy in
  (i < j)%nat -> result !! i = Some a -> result !! j = Some b -> kind_le a b.
Proof.
  intros result. apply StronglySorted_lookup. apply sorted_folders_first.
Qed.

Lemma key_valid_files sortBy files :
  sort_key_consistent sortBy files -> Forall (key_valid sortBy) files.
Proof.
  destruct sortBy; simpl; [| |done]; intros _; rewrite Forall_forall; done.
Qed.

(** C9.  For every listing, category, search query and sort option
    whose key comparison is consistent (a collation order for names,
    parseable timestamps for dates), [processedFiles] puts every folder
    before every file, orders entries of the same kind by the selected
    key (name ascending by locale comparison, size descending with a
    missing size read as 0, creation time descending), and its category
    filter removes no folder. *)
Theorem processedFiles_order (files : list FileItem) (cat : CategoryOption)
    (q : jsstring) (sortBy : SortOption) :
  sort_key_consistent sortBy files ->
  let result := processedFiles files cat q sortBy in
  (forall i j a b, (i < j)%nat -> result !! i = Some a -> result !! j = Some b ->
     kind_le a b /\ (file_type a = file_type b -> key_le sortBy a b)) /\
  (forall f, f ∈ files -> file_type f = FtFolder ->
     f ∈ filter_by_category cat files /\
     (truthy q = false \/ search_keeps q f = true -> f ∈ result)).
Proof.
  intros Hc result. split.
  - intros i j a b Hij Hi Hj.
    assert (Forall (key_valid sortBy) result) as Hv.
    { pose proof (key_valid_files _ _ Hc) as Hf.
      rewrite Forall_forall in Hf |- *. intros x Hx.
      apply processedFiles_elem in Hx. apply Hf. tauto. }
    assert (StronglySorted (cmp_le (comparator sortBy)) result) as Hs.
    { apply (Array_sort_sorted (comparator sortBy) (key_valid sortBy)).
      - apply (comparator_trans sortBy files Hc).
      - auto.
      - apply (comparator_total sortBy files Hc).
      - rewrite Forall_forall in Hv |- *. intros x Hx. apply Hv.
        now apply Array_sort_elem_of. }
    pose proof (StronglySorted_lookup _ _ _ _ _ _ Hs Hij Hi Hj) as Hab.
    split; [now apply (comparator_kind_le sortBy)|].
    intros Hk. rewrite Forall_forall in Hv.
    apply comparator_same_kind; [done|done| |]; apply Hv;
      apply list_elem_of_lookup; eauto.
  - intros f. apply folders_survive_category.
Qed.

End FilterStages.

Lemma storage_refreshed_app evs evs' :
  storage_refreshed (evs ++ evs') = storage_refreshed evs || storage_refreshed evs'.
Proof. apply existsb_app. Qed.

(** ** Promises that settle in the order of the answers *)

Lemma storage_refreshed_calls (rs : list Request) :
  storage_refreshed (List.map ApiCall rs) = false.
Proof. induction rs as [|r rs IH]; [done|exact IH]. Qed.

Lemma requests_app evs evs' : requests (evs ++ evs') = requests evs ++ requests evs'.
Proof. apply omap_app. Qed.

Lemma requests_calls (rs : list Request) : requests (List.map ApiCall rs) = rs.
Proof.
  induction rs as [|r rs IH]; [done|].
  change (List.map ApiCall (r :: rs)) with ([ApiCall r] ++ List.map ApiCall rs).
  rewrite requests_app, IH. reflexivity.
Qed.

Lemma next_settled_lt (srv : Server) (w : World) (n : nat) :
  n <> O -> (next_settled srv w n < n)%nat.
Proof. intros Hn. unfold next_settled. now apply Nat.mod_upper_bound. Qed.

Lemma world_eta (w : World) :
  {| log := log w; next_uuid := next_uuid w; later := later w |} = w.
Proof. now destruct w. Qed.

Section PromiseFacts.
Context {A T : Type} (srv : Server).
Variable does : T -> list Event.
Variable gives : T -> Thrown + A.

(** Promises that nobody awaits settle all the same, each once. *)
Lemma settle_detached_run (n : nat) (pending : list (Promise A)) (items : list T)
    (w : World) :
  length pending = n ->
  Forall2 (fun p t => settles_with srv p (does t) (gives t)) pending items ->
  exists rest,
    rest ≡ₚ items
    /\ settle_detached n pending srv w
       = ({| log := log w; next_uuid := next_uuid w;
             later := later w ++ flat_map does rest |}, inr tt).
Proof.
  revert pending items w. induction n as [|n IH]; intros pending items w Hlen HF.
  - destruct pending; [|done]. apply Forall2_nil_inv_l in HF as ->.
    exists []. split; [done|]. cbn. unfold ret. now rewrite app_nil_r, world_eta.
  - cbn [settle_detached]. cbv zeta.
    set (i := next_settled srv w (length pending)).
    assert (i < length pending)%nat as Hi by (apply next_settled_lt; lia).
    destruct (lookup_lt_is_Some_2 pending i Hi) as [p Hp]. rewrite Hp.
    destruct (Forall2_lookup_l _ _ _ _ _ HF Hp) as (t & Ht & Hpt).
    unfold bind at 1, detached. rewrite Hpt. cbn [log next_uuid later app].
    destruct (IH (delete i pending) (delete i items)
                {| log := log w; next_uuid := next_uuid w;
                   later := later w ++ does t ++ [] |}) as (rest & Hperm & ->).
    + rewrite length_delete by eauto. lia.
    + now apply Forall2_delete.
    + exists (t :: rest). split.
      * rewrite (delete_Permutation items i t Ht). now constructor.
      * cbn [log next_uuid later flat_map]. rewrite app_nil_r, <- app_assoc. reflexivity.
Qed.

(** The promises awaited settle in the order of arrival.  Either all
    of them resolve, or the first that rejects ends the wait: those
    settled until then have done their part, the others do theirs
    later. *)
Lemma settle_all_run (n : nat) (pending : list (nat * Promise A)) (items : list T)
    (values : list (nat * A)) (w : World) :
  length pending = n ->
  Forall2 (fun p t => settles_with srv p.2 (does t) (gives t)) pending items ->
  exists settled rest res,
    settled ++ rest ≡ₚ items
    /\ settle_all n pending values srv w
       = ({| log := log w ++ flat_map does settled; next_uuid := next_uuid w;
             later := later w ++ flat_map does rest |}, res)
    /\ ((Forall (fun t => exists a, gives t = inr a) settled
         /\ rest = [] /\ exists vs, res = inr vs)
        \/ (exists resolved_before t e,
              settled = resolved_before ++ [t]
              /\ Forall (fun t => exists a, gives t = inr a) resolved_before
              /\ gives t = inl e /\ res = inl e)).
Proof.
  revert pending items values w.
  induction n as [|n IH]; intros pending items values w Hlen HF.
  - destruct pending; [|done]. apply Forall2_nil_inv_l in HF as ->.
    exists [], [], (inr values). split; [done|]. split.
    + cbn. unfold ret. now rewrite !app_nil_r, world_eta.
    + left. split; [constructor|]. split; [done|]. now exists values.
  - cbn [settle_all]. cbv zeta.
    set (i := next_settled srv w (length pending)).
    assert (i < length pending)%nat as Hi by (apply next_settled_lt; lia).
    destruct (lookup_lt_is_Some_2 pending i Hi) as [[place p] Hp]. rewrite Hp.
    destruct (Forall2_lookup_l _ _ _ _ _ HF Hp) as (t & Ht & Hpt).
    cbn [snd] in Hpt. rewrite Hpt.
    assert (length (delete i pending) = n) as Hlen'
      by (rewrite length_delete by eauto; lia).
    pose proof (Forall2_delete _ _ _ i HF) as HF'.
    pose proof (delete_Permutation items i t Ht) as Hitems.
    destruct (gives t) as [e|a] eqn:Hgives.
    + unfold bind at 1.
      destruct (settle_detached_run n (List.map snd (delete i pending)) (delete i items)
                  {| log := log w ++ does t; next_uuid := next_uuid w; later := later w |})
        as (rest & Hperm & ->).
      * now rewrite length_map.
      * apply Forall2_fmap_l. exact HF'.
      * exists [t], rest, (inl e). split.
        { rewrite Hitems. cbn. now constructor. }
        split.
        { cbn [log next_uuid later flat_map throw]. now rewrite app_nil_r. }
        right. exists [], t, e. split; [done|]. split; [constructor|]. done.
    + destruct (IH (delete i pending) (delete i items) ((place, a) :: values)
                  {| log := log w ++ does t; next_uuid := next_uuid w; later := later w |}
                  Hlen' HF')
        as (settled & rest & res & Hperm & -> & Hres).
      exists (t :: settled), rest, res. split.
      { rewrite Hitems. cbn. now constructor. }
      split.
      { cbn [log next_uuid later flat_map]. now rewrite <- app_assoc. }
      destruct Hres as [(Hall & -> & Hvs)|(before & t' & e & -> & Hall & Ht' & ->)].
      * left. split; [|done]. constructor; [now exists a|done].
      * right. exists (t :: before), t', e. split; [done|]. split; [|done].
        constructor; [now exists a|done].
Qed.

Lemma combine_seq_awaits (k : nat) (promises : list (Promise A)) (items : list T) :
  Forall2 (fun p t => settles_with srv p (does t) (gives t)) promises items ->
  Forall2 (fun p t => settles_with srv p.2 (does t) (gives t))
          (combine (seq k (length promises)) promises) items.
Proof.
  intros HF. revert k. induction HF as [|p t ps ts Hp _ IH]; intros k; [constructor|].
  cbn [length seq combine]. constructor; [exact Hp|apply IH].
Qed.

Lemma Promise_all_run (promises : list (Promise A)) (items : list T) (w : World) :
  Forall2 (fun p t => settles_with srv p (does t) (gives t)) promises items ->
  exists settled rest res,
    settled ++ rest ≡ₚ items
    /\ Promise_all promises srv w
       = ({| log := log w ++ flat_map does settled; next_uuid := next_uuid w;
             later := later w ++ flat_map does rest |}, res)
    /\ ((Forall (fun t => exists a, gives t = inr a) settled
         /\ rest = [] /\ exists vs, res = inr vs)
        \/ (exists resolved_before t e,
              settled = resolved_before ++ [t]
              /\ Forall (fun t => exists a, gives t = inr a) resolved_before
              /\ gives t = inl e /\ res = inl e)).
Proof.
  intros HF. unfold Promise_all, bind.
  destruct (settle_all_run (length promises)
              (combine (seq 0 (length promises)) promises) items [] w)
    as (settled & rest & res & Hperm & -> & Hres).
  - rewrite length_combine, length_seq. lia.
  - now apply combine_seq_awaits.
  - destruct Hres as [(Hall & -> & vs & ->)|(before & t & e & -> & Hall & Ht & ->)].
    + exists settled, [], (inr (omap (value_at vs) (seq 0 (length promises)))).
      split; [done|]. split; [reflexivity|]. left. split; [done|]. split; [done|].
      eexists. reflexivity.
    + exists (before ++ [t]), rest, (inl e). split; [done|]. split; [reflexivity|].
      right. exists before, t, e. done.
Qed.

(** Whether the whole resolves does not depend on the order of
    arrival: it does exactly when every promise does. *)
Lemma Promise_all_resolves (promises : list (Promise A)) (items : list T) (w : World) :
  Forall2 (fun p t => settles_with srv p (does t) (gives t)) promises items ->
  match (Promise_all promises srv w).2 with
  | inr _ => forall t, t ∈ items -> exists a, gives t = inr a
  | inl e => exists t, t ∈ items /\ gives t = inl e
  end.
Proof.
  intros HF.
  destruct (Promise_all_run promises items w HF) as (settled & rest & res & Hperm & -> & Hres).
  cbn [snd].
  destruct Hres as [(Hall & -> & vs & ->)|(before & t & e & -> & Hall & Ht & ->)].
  - intros t Ht. rewrite app_nil_r in Hperm. rewrite <- Hperm in Ht.
    rewrite Forall_forall in Hall. now apply Hall.
  - exists t. split; [|done]. rewrite <- Hperm.
    rewrite !elem_of_app, list_elem_of_singleton. now left; right.
Qed.

End PromiseFacts.

(** ** The batches of the file hook *)

Section BatchFacts.
Import useFileMutations useFileOperations.

Lemma flat_map_nil {T} (l : list T) : flat_map (fun _ => @nil Event) l = [].
Proof. induction l as [|t l IH]; [done|exact IH]. Qed.

Lemma unawaited_request (r : Request) (srv : Server) (w : World) :
  exists promise,
    unawaited (request r) srv w
    = ({| log := log w ++ [ApiCall r]; next_uuid := next_uuid w; later := later w |},
       inr promise)
    /\ settles_with srv promise [] (outcome srv r).
Proof.
  unfold unawaited, request. eexists. split; [reflexivity|].
  intros w'. unfold outcome. now rewrite app_nil_r, world_eta.
Qed.

(** Every deletion of a batch is sent at once, in the order of the ids. *)
Lemma start_deletes (l : list Z) (srv : Server) (w : World) :
  exists promises,
    mapM (fun id => unawaited (fileService.deleteFile id)) l srv w
    = ({| log := log w ++ List.map ApiCall (List.map delete_request l);
          next_uuid := next_uuid w; later := later w |}, inr promises)
    /\ Forall2 (fun p i => settles_with srv p [] (outcome srv (delete_request i)))
               promises l.
Proof.
  revert w. induction l as [|i l IH]; intros w; cbn [mapM List.map].
  - exists []. split; [|constructor]. unfold ret. now rewrite app_nil_r, world_eta.
  - unfold bind at 1.
    destruct (unawaited_request (delete_request i) srv w) as (p & Hp & Hsettles).
    unfold fileService.deleteFile at 1. fold (delete_request i). rewrite Hp.
    unfold bind at 1.
    destruct (IH {| log := log w ++ [ApiCall (delete_request i)];
                    next_uuid := next_uuid w; later := later w |})
      as (ps & -> & Hps).
    exists (p :: ps). split; [|now constructor].
    cbn [log next_uuid later ret]. unfold ret. now rewrite <- app_assoc.
Qed.

Lemma forallb_resolved {T} (srv : Server) (f : T -> Request) (l : list T) :
  forallb (fun t => resolved srv (f t)) l = true
  <-> forall t, t ∈ l -> exists a, outcome srv (f t) = inr a.
Proof.
  rewrite forallb_forall. split.
  - intros H t Ht. apply list_elem_of_In, H in Ht. unfold resolved, outcome in *.
    destruct (srv (f t)); [eauto|done].
  - intros H t Ht. apply list_elem_of_In, H in Ht as [a Ha]. unfold resolved, outcome in *.
    destruct (srv (f t)); done.
Qed.

Lemma batch_mutation_run (l : list Z) (srv : Server) (w : World) :
  let ok := forallb (fun i => resolved srv (delete_request i)) l in
  exists r,
    mutationFn useBatchDeleteMutation l srv w
    = ({| log := log w ++ List.map ApiCall (List.map delete_request l);
          next_uuid := next_uuid w; later := later w |}, r)
    /\ if ok then r = inr tt
       else exists i e, i ∈ l /\ srv (delete_request i) = Rejected e /\ r = inl e.
Proof.
  intros ok. cbn [mutationFn useBatchDeleteMutation]. unfold bind at 1.
  destruct (start_deletes l srv w) as (promises & -> & Hpromises).
  unfold bind at 1.
  destruct (Promise_all_run srv (fun _ => []) (fun i => outcome srv (delete_request i))
              promises l
              {| log := log w ++ List.map ApiCall (List.map delete_request l);
                 next_uuid := next_uuid w; later := later w |} Hpromises)
    as (settled & rest & res & Hperm & -> & Hres).
  rewrite !flat_map_nil, !app_nil_r. cbn [log next_uuid later].
  destruct Hres as [(Hall & -> & vs & ->)|(before & t & e & -> & Hall & Ht & ->)].
  - assert (ok = true) as ->.
    { unfold ok. apply (forallb_resolved srv delete_request). intros i Hi. rewrite app_nil_r in Hperm.
      rewrite <- Hperm in Hi. rewrite Forall_forall in Hall. now apply Hall. }
    eexists. split; reflexivity.
  - assert (t ∈ l) as Htl.
    { rewrite <- Hperm, !elem_of_app, list_elem_of_singleton. now left; right. }
    assert (ok = false) as ->.
    { apply not_true_is_false. intros Hok.
      destruct (proj1 (forallb_resolved srv delete_request l) Hok t Htl) as [a Ha].
      congruence. }
    eexists. split; [reflexivity|]. exists t, e. split; [done|]. split; [|done].
    unfold outcome in Ht. destruct (srv (delete_request t)); congruence.
Qed.

(** A batch delete: the requests, then one toast.  It reports success,
    and refreshes the listing and the storage info, exactly when the
    server accepted every request; otherwise it shows the message of one
    of the rejections. *)
Lemma batchDeleteFiles_run (l : list Z) (srv : Server) (w : World) :
  let ok := forallb (fun i => resolved srv (delete_request i)) l in
  exists tail,
    batchDeleteFiles l srv w
    = ({| log := log w ++ List.map ApiCall (List.map delete_request l) ++ tail;
          next_uuid := next_uuid w; later := later w |}, inr ok)
    /\ if ok
       then tail = [Toast ToastSuccess (js "Files deleted successfully");
                    InvalidateQueries KeyFiles; InvalidateQueries KeyStorage]
       else exists i e,
              i ∈ l /\ srv (delete_request i) = Rejected e
              /\ tail = [Toast ToastError
                           (opt_or_else (response_message e)
                                        (js "Failed to delete files"))].
Proof.
  intros ok. unfold batchDeleteFiles, try_catch, mutateAsync.
  unfold bind at 1. unfold bind at 1. unfold attempt.
  destruct (batch_mutation_run l srv w) as (r & -> & Hr). fold ok in Hr.
  destruct ok.
  - subst r. eexists.
    cbv beta iota zeta delta
      [onSuccess useBatchDeleteMutation bind ret emit toast_success
       log next_uuid later fst snd].
    rewrite <- !app_assoc. split; reflexivity.
  - destruct Hr as (i & e & Hi & He & ->). eexists.
    cbv beta iota zeta delta
      [onError useBatchDeleteMutation bind ret throw emit toast_error
       log next_uuid later fst snd].
    rewrite <- !app_assoc. split; [reflexivity|]. exists i, e. done.
Qed.

(** The first phase of an upload: one task is added for each file,
    numbered in order from the next id. *)
Lemma add_upload_tasks (files : list jsstring) (srv : Server) (w : World) :
  let tasks := combine (seq (next_uuid w) (length files)) files in
  mapM (fun file => id <- uuidv4 ;; emit (AddTask id file TaskUpload) ;; ret (id, file))
       files srv w
  = ({| log := log w ++ List.map (fun t => AddTask t.1 t.2 TaskUpload) tasks;
        next_uuid := (next_uuid w + length files)%nat; later := later w |}, inr tasks).
Proof.
  revert w. induction files as [|f files IH]; intros w; cbn [mapM length seq combine List.map].
  - unfold ret. rewrite app_nil_r, Nat.add_0_r. now destruct w.
  - unfold bind at 1. unfold bind at 1. unfold uuidv4 at 1. unfold bind at 1.
    unfold emit at 1. unfold bind at 1. unfold ret at 1. unfold bind at 1.
    rewrite IH. cbn [log next_uuid later ret fst snd]. unfold ret.
    rewrite <- app_assoc. cbn [app]. f_equal. f_equal. lia.
Qed.

Lemma upload_one_run (p : jsstring) (t : nat * jsstring) (srv : Server) (w : World) :
  exists promise,
    upload_one p t srv w
    = ({| log := log w ++ upload_started p t; next_uuid := next_uuid w;
          later := later w |}, inr promise)
    /\ settles_with srv promise (upload_finished srv p t) (upload_outcome srv p t).
Proof.
  destruct t as [i f]. unfold upload_one, upload_started.
  unfold bind at 1. unfold emit at 1. unfold bind at 1.
  unfold fileService.uploadFile. fold (upload_request f p).
  destruct (unawaited_request (upload_request f p) srv
              {| log := log w ++ [UpdateTask i {| upd_status := Some StatusActive;
                                                  upd_progress := None;
                                                  upd_error := None;
                                                  upd_fileName := None |}];
                 next_uuid := next_uuid w; later := later w |})
    as (answer & -> & Hanswer).
  eexists. split.
  - unfold ret. cbn [log next_uuid later fst snd]. rewrite <- app_assoc. reflexivity.
  - intros w'. unfold try_catch, bind. rewrite Hanswer.
    unfold upload_finished, upload_outcome, outcome. cbn [fst snd].
    destruct (srv (upload_request f p));
      cbv beta iota zeta delta [emit throw log next_uuid later];
      rewrite ?app_nil_r, <- ?app_assoc; reflexivity.
Qed.

(** The second phase: every upload is started, in the order of the
    files. *)
Lemma start_uploads (p : jsstring) (ts : list (nat * jsstring)) (srv : Server)
    (w : World) :
  exists promises,
    mapM (upload_one p) ts srv w
    = ({| log := log w ++ flat_map (upload_started p) ts;
          next_uuid := next_uuid w; later := later w |}, inr promises)
    /\ Forall2 (fun promise t =>
                  settles_with srv promise (upload_finished srv p t)
                               (upload_outcome srv p t))
               promises ts.
Proof.
  revert w. induction ts as [|t ts IH]; intros w; cbn [mapM flat_map].
  - exists []. split; [|constructor]. unfold ret. now rewrite app_nil_r, world_eta.
  - unfold bind at 1.
    destruct (upload_one_run p t srv w) as (promise & -> & Hpromise).
    unfold bind at 1.
    destruct (IH {| log := log w ++ upload_started p t;
                    next_uuid := next_uuid w; later := later w |})
      as (ps & -> & Hps).
    exists (promise :: ps). split; [|now constructor].
    cbn [log next_uuid later]. unfold ret. now rewrite <- app_assoc.
Qed.

Lemma forallb_tasks (srv : Server) (p : jsstring) (n : nat) (files : list jsstring) :
  forallb (fun t => resolved srv (upload_request t.2 p))
          (combine (seq n (length files)) files)
  = forallb (fun file => resolved srv (upload_request file p)) files.
Proof.
  revert n. induction files as [|f files IH]; intros n; [reflexivity|].
  cbn [length seq combine forallb snd]. now rewrite IH.
Qed.

(** An upload: the tasks are added, every upload is started, and the
    answers arrive in some order.  The hook returns when all were
    accepted or at the first that was rejected; the uploads whose
    answers have not arrived by then finish later. *)
Lemma uploadFiles_run (p : jsstring) (files : list jsstring) (srv : Server) (w : World) :
  files <> [] ->
  let tasks := combine (seq (next_uuid w) (length files)) files in
  let ok := forallb (fun file => resolved srv (upload_request file p)) files in
  exists settled rest tail,
    settled ++ rest ≡ₚ tasks
    /\ uploadFiles p files srv w
       = ({| log := log w ++ List.map (fun t => AddTask t.1 t.2 TaskUpload) tasks
                    ++ flat_map (upload_started p) tasks
                    ++ flat_map (upload_finished srv p) settled ++ tail;
             next_uuid := (next_uuid w + length files)%nat;
             later := later w ++ flat_map (upload_finished srv p) rest |},
          inr (Some ok))
    /\ if ok
       then rest = []
            /\ tail = [Toast ToastSuccess (js "Files uploaded successfully");
                       InvalidateQueries (KeyFilesAt p); InvalidateQueries KeyStorage]
       else tail = [ConsoleError].
Proof.
  intros Hne tasks ok. unfold uploadFiles. destruct files as [|f files]; [done|].
  unfold bind at 1. rewrite add_upload_tasks. fold tasks.
  unfold try_catch. unfold bind at 1.
  destruct (start_uploads p tasks srv
              {| log := log w ++ List.map (fun t => AddTask t.1 t.2 TaskUpload) tasks;
                 next_uuid := (next_uuid w + length (f :: files))%nat;
                 later := later w |}) as (promises & -> & Hpromises).
  unfold bind at 1. cbn [log next_uuid later].
  destruct (Promise_all_run srv (upload_finished srv p) (upload_outcome srv p)
              promises tasks
              {| log := (log w ++ List.map (fun t => AddTask t.1 t.2 TaskUpload) tasks)
                        ++ flat_map (upload_started p) tasks;
                 next_uuid := (next_uuid w + length (f :: files))%nat;
                 later := later w |} Hpromises)
    as (settled & rest & res & Hperm & -> & Hres).
  cbn [log next_uuid later].
  assert (forall t, (exists a, upload_outcome srv p t = inr a)
                    <-> resolved srv (upload_request t.2 p) = true) as Hone.
  { intros t. unfold upload_outcome, resolved.
    destruct (srv (upload_request t.2 p)); split; try done; [eauto|intros [? ?]; done]. }
  exists settled, rest.
  destruct Hres as [(Hall & -> & vs & ->)|(before & t & e & -> & Hall & Ht & ->)].
  - assert (ok = true) as Hok.
    { subst ok. rewrite <- (forallb_tasks srv p (next_uuid w)). fold tasks.
      apply forallb_forall. intros t Ht. apply Hone.
      rewrite app_nil_r in Hperm. apply list_elem_of_In in Ht. rewrite <- Hperm in Ht.
      rewrite Forall_forall in Hall. now apply Hall. }
    rewrite Hok. eexists. split; [done|].
    cbv beta iota zeta delta
      [bind ret emit toast_success log next_uuid later fst snd].
    rewrite <- !app_assoc. split; [reflexivity|done].
  - assert (ok = false) as Hok.
    { subst ok. rewrite <- (forallb_tasks srv p (next_uuid w)). fold tasks.
      apply not_true_is_false. intros Hok. rewrite forallb_forall in Hok.
      assert (t ∈ tasks) as Htl.
      { rewrite <- Hperm, !elem_of_app, list_elem_of_singleton. now left; right. }
      apply list_elem_of_In, Hok, Hone in Htl as [a Ha]. congruence. }
    rewrite Hok. eexists. split; [done|].
    cbv beta iota zeta delta [bind ret emit log next_uuid later fst snd].
    rewrite <- !app_assoc. split; reflexivity.
Qed.

End BatchFacts.

(** ** Which operations refresh the storage info *)

Section StorageRefresh.
Import useFileMutations useFileOperations.

Lemma added_tasks_quiet (ts : list (nat * jsstring)) :
  requests (List.map (fun t => AddTask t.1 t.2 TaskUpload) ts) = []
  /\ storage_refreshed (List.map (fun t => AddTask t.1 t.2 TaskUpload) ts) = false.
Proof. induction ts as [|t ts IH]; [done|exact IH]. Qed.

Lemma started_uploads_sent (p : jsstring) (ts : list (nat * jsstring)) :
  requests (flat_map (upload_started p) ts)
  = List.map (fun t => upload_request t.2 p) ts
  /\ storage_refreshed (flat_map (upload_started p) ts) = false.
Proof.
  induction ts as [|t ts [IH1 IH2]]; [done|]. cbn [flat_map List.map]. split.
  - rewrite requests_app, IH1. reflexivity.
  - rewrite storage_refreshed_app, IH2. reflexivity.
Qed.

Lemma finished_uploads_quiet (srv : Server) (p : jsstring) (ts : list (nat * jsstring)) :
  requests (flat_map (upload_finished srv p) ts) = []
  /\ storage_refreshed (flat_map (upload_finished srv p) ts) = false.
Proof.
  induction ts as [|t ts [IH1 IH2]]; [done|]. cbn [flat_map]. split.
  - rewrite requests_app, IH1. unfold upload_finished. now destruct (srv _).
  - rewrite storage_refreshed_app, IH2. unfold upload_finished. now destruct (srv _).
Qed.

Lemma tasks_files (p : jsstring) (n : nat) (files : list jsstring) :
  List.map (fun t => upload_request t.2 p) (combine (seq n (length files)) files)
  = List.map (fun file => upload_request file p) files.
Proof.
  revert n. induction files as [|f files IH]; intros n; [reflexivity|].
  cbn [length seq combine List.map snd]. now rewrite IH.
Qed.

Lemma forallb_mapped {T U} (f : U -> bool) (g : T -> U) (l : list T) :
  forallb f (List.map g l) = forallb (fun t => f (g t)) l.
Proof. induction l as [|t l IH]; [done|]. cbn. now rewrite IH. Qed.

Lemma refresh_single (op : Operation) (r : Request) (srv : Server) :
  single_request op = Some r ->
  requests (effects (run_operation op) srv) = [r]
  /\ storage_refreshed (effects (run_operation op) srv)
     = size_changing op && resolved srv r
  /\ effects_later (run_operation op) srv = [].
Proof.
  intros Hr. unfold effects, effects_later.
  destruct op; try discriminate; injection Hr as <-.
  all: cbv - [js answer].
  all: match goal with
       | S : Server |- _ =>
           match goal with |- context [answer S ?q] => destruct (answer S q) end
       end; repeat split; reflexivity.
Qed.

Lemma refresh_batch_delete (l : list Z) (srv : Server) :
  requests (effects (run_operation (OpBatchDelete l)) srv) = List.map delete_request l
  /\ storage_refreshed (effects (run_operation (OpBatchDelete l)) srv)
     = forallb (resolved srv) (List.map delete_request l)
  /\ effects_later (run_operation (OpBatchDelete l)) srv = [].
Proof.
  unfold effects, effects_later. cbn [run_operation].
  destruct (batchDeleteFiles_run l srv start_world) as (tail & -> & Htail).
  cbn [fst log later start_world app] in *.
  rewrite requests_app, storage_refreshed_app, requests_calls, storage_refreshed_calls.
  rewrite forallb_mapped.
  destruct (forallb (fun i => resolved srv (delete_request i)) l).
  - subst tail. split; [apply app_nil_r|]. done.
  - destruct Htail as (i & e & _ & _ & ->). split; [apply app_nil_r|]. done.
Qed.

Lemma refresh_upload (p : jsstring) (f : jsstring) (files : list jsstring)
    (srv : Server) :
  let op := OpUpload p (f :: files) in
  requests (effects (run_operation op) srv)
  = List.map (fun file => upload_request file p) (f :: files)
  /\ storage_refreshed (effects (run_operation op) srv)
     = forallb (fun file => resolved srv (upload_request file p)) (f :: files)
  /\ storage_refreshed (effects_later (run_operation op) srv) = false.
Proof.
  intros op. subst op. unfold effects, effects_later. cbn [run_operation].
  unfold bind.
  destruct (uploadFiles_run p (f :: files) srv start_world ltac:(done))
    as (settled & rest & tail & _ & -> & Htail).
  cbn [fst log later start_world app next_uuid ret] in *.
  rewrite !requests_app, !storage_refreshed_app.
  destruct (added_tasks_quiet (combine (seq 0 (length (f :: files))) (f :: files)))
    as [-> ->].
  destruct (started_uploads_sent p (combine (seq 0 (length (f :: files))) (f :: files)))
    as [-> ->].
  destruct (finished_uploads_quiet srv p settled) as [-> ->].
  destruct (finished_uploads_quiet srv p rest) as [_ ->].
  rewrite tasks_files. cbn [app orb].
  destruct (forallb (fun file => resolved srv (upload_request file p)) (f :: files)).
  - destruct Htail as [_ ->]. split; [apply app_nil_r|]. done.
  - subst tail. split; [apply app_nil_r|]. done.
Qed.

(** C5, as amended.  Create-folder, rename and move never refresh the
    storage info.  A delete and a copy refresh it exactly when the
    server accepted the request; a batch delete and an upload refresh it
    exactly when the server accepted every request of the batch.  The
    requests the verdict of the server is about are the requests the
    operation sends, and nothing that happens after the operation has
    returned refreshes the storage info. *)
Theorem storage_refresh_iff_size_changing (op : Operation) (srv : Server) :
  requests (effects (run_operation op) srv) = requests_of op
  /\ storage_refreshed (effects (run_operation op) srv)
     = size_changing op && accepted op srv
  /\ storage_refreshed (effects_later (run_operation op) srv) = false.
Proof.
  destruct (single_request op) as [r|] eqn:Hr.
  - destruct (refresh_single op r srv Hr) as (Hreq & Href & Hlater).
    rewrite Hreq, Href, Hlater.
    destruct op; try discriminate; injection Hr as <-;
      cbn [requests_of single_request accepted forallb]; now rewrite andb_true_r.
  - destruct op as [| | | | |l|p l]; try discriminate.
    + destruct (refresh_batch_delete l srv) as (Hreq & Href & Hlater).
      rewrite Hreq, Href, Hlater. done.
    + destruct l as [|f files]; [done|].
      destruct (refresh_upload p f files srv) as (Hreq & Href & Hlater).
      rewrite Hreq, Href, Hlater. cbn [requests_of accepted size_changing andb].
      now rewrite forallb_mapped.
Qed.

(** An upload that the server accepted is followed by a refresh. *)
Lemma storage_refresh_iff_size_changing_witness :
  storage_refreshed
    (effects (run_operation (OpUpload (js "/") [js "a.txt"; js "b.txt"])) accepting)
  = true.
Proof.
  rewrite (proj1 (proj2 (storage_refresh_iff_size_changing
                           (OpUpload (js "/") [js "a.txt"; js "b.txt"]) accepting))).
  reflexivity.
Defined.

(** C5 as stated does not hold: of a batch delete of the entries 1 and
    2 the server accepts the deletion of 1, which changes the bytes in
    use, and rejects that of 2; no refresh follows, neither before the
    hook returns nor afterwards. *)
Lemma partly_accepted_batch_not_refreshed : ~ size_change_refreshes.
Proof.
  intros H.
  specialize (H (OpBatchDelete [1; 2]) deletes_only_1 (delete_request 1) eq_refl).
  assert (requests (effects (run_operation (OpBatchDelete [1; 2])) deletes_only_1)
          = [delete_request 1; delete_request 2]) as Hsent by (vm_compute; reflexivity).
  rewrite Hsent in H. specialize (H ltac:(apply list_elem_of_here) eq_refl).
  vm_compute in H. discriminate H.
Qed.

End StorageRefresh.

(** ** What a failed operation shows *)

Section FailureFacts.
Import useFileMutations useFileOperations.

Ltac run_client :=
  cbv beta iota zeta delta
    [effects result run_operation createFolder renameFile moveFile copyFile deleteFile
     try_catch mutateAsync bind attempt ret throw emit toast_success toast_error
     mutationFn onSuccess onError
     useCreateFolderMutation useRenameFileMutation useMoveFileMutation
     useCopyFileMutation useDeleteFileMutation
     fileService.createFolder fileService.renameFile fileService.moveFile
     fileService.copyFile fileService.deleteFile request start_world log fst snd].

(** C8, as amended.  When a create-folder, rename, move, copy or
    delete request is rejected, the hook shows one error toast and
    returns false.  The toast is the server's message when the response
    carries a non-empty one; otherwise it is the fixed text of the
    operation. *)
Theorem failing_operation_toast (op : Operation) (r : Request) (srv : Server)
    (err : Thrown) :
  single_request op = Some r ->
  srv r = Rejected err ->
  effects (run_operation op) srv
    = [ApiCall r; Toast ToastError (opt_or_else (response_message err) (fallback_text op))]
  /\ result (run_operation op) srv = inr false
  /\ (forall m, response_message err = Some m -> m <> [] ->
        error_toasts (effects (run_operation op) srv) = [m]).
Proof.
  intros Hr Hsrv.
  assert (effects (run_operation op) srv
          = [ApiCall r; Toast ToastError
               (opt_or_else (response_message err) (fallback_text op))]
          /\ result (run_operation op) srv = inr false) as [He Hres].
  { destruct op; try discriminate; injection Hr as <-.
    all: run_client; rewrite Hsrv; split; reflexivity. }
  split; [exact He|]. split; [exact Hres|].
  intros m Hm Hne. rewrite He, Hm. simpl.
  unfold or_else. apply truthy_true_iff in Hne. now rewrite Hne.
Qed.

Lemma failing_operation_toast_witness :
  error_toasts (effects (run_operation (OpCreateFolder (js "/") (js "docs")))
                        (in_order (fun _ => Rejected name_taken)))
  = [js "Folder already exists"].
Proof.
  pose proof (failing_operation_toast (OpCreateFolder (js "/") (js "docs")) _
                (in_order (fun _ => Rejected name_taken)) name_taken eq_refl eq_refl) as (_ & _ & H).
  apply H; [reflexivity|discriminate].
Defined.

(** C8 as stated does not hold: a rejection without a message in its
    body and a network failure both end in the same generic toast and
    the same return value. *)
Lemma generic_failure_collapses : ~ failures_distinguishable.
Proof.
  intros H.
  apply (H (OpCopy 1 (js "/backup")) _
           (in_order (fun _ => Rejected network_down))
           (in_order (fun _ => Rejected quota_exceeded_no_message))
           network_down quota_exceeded_no_message eq_refl eq_refl eq_refl).
  - discriminate.
  - reflexivity.
Qed.

End FailureFacts.

(** ** Name validation and what the client checks before sending *)

Lemma trimStart_nil (s : jsstring) : trimStart s = [] <-> blank s = true.
Proof.
  induction s as [|c s IH]; simpl; [done|].
  destruct (is_js_space c); simpl; [exact IH|]. split; discriminate.
Qed.

Lemma trimStart_head (s : jsstring) c r :
  trimStart s = c :: r -> is_js_space c = false.
Proof.
  induction s as [|d s IH]; simpl; [done|].
  destruct (is_js_space d) eqn:E; [exact IH|]. now intros [= <- _].
Qed.

Lemma blank_rev (s : jsstring) : blank (rev s) = blank s.
Proof.
  unfold blank. induction s as [|c s IH]; simpl; [done|].
  rewrite forallb_app, IH. simpl. rewrite andb_true_r. apply andb_comm.
Qed.

Lemma trim_nil (s : jsstring) : trim s = [] <-> blank s = true.
Proof.
  unfold trim, trimEnd. split.
  - intros H. apply (f_equal (@rev N)) in H. rewrite rev_involutive in H. simpl in H.
    apply trimStart_nil in H. rewrite blank_rev in H.
    destruct (trimStart s) as [|c r] eqn:E; [now apply trimStart_nil|].
    apply trimStart_head in E. simpl in H. now rewrite E in H.
  - intros H. apply trimStart_nil in H. now rewrite H.
Qed.

Lemma truthy_trim (s : jsstring) : truthy (trim s) = negb (blank s).
Proof.
  destruct (blank s) eqn:E.
  - apply trim_nil in E. now rewrite E.
  - destruct (trim s) eqn:Et; [|done]. apply trim_nil in Et. congruence.
Qed.

Section NameFacts.
Import Storage.

Lemma validateName_invalid (name : jsstring) :
  validateName name = InvalidName <->
  name = [] \/ slash ∈ name \/ (max_name_bytes < utf8_length name)%nat.
Proof.
  unfold validateName.
  destruct name as [|c s] eqn:E; [simpl; tauto|]. rewrite <- E. simpl negb.
  assert (truthy name = true) as -> by now subst. simpl.
  destruct (existsb (N.eqb slash) name) eqn:Es.
  - apply existsb_exists in Es as (x & Hx & Hs). apply N.eqb_eq in Hs. subst x.
    apply list_elem_of_In in Hx. tauto.
  - assert (slash ∉ name) as Hs.
    { intros Hin. apply list_elem_of_In in Hin.
      assert (existsb (N.eqb slash) name = true) as Ht
        by (apply existsb_exists; exists slash; split; [done|apply N.eqb_refl]).
      congruence. }
    destruct (Nat.ltb_spec max_name_bytes (utf8_length name)).
    + tauto.
    + split; [done|]. intros [?|[?|?]]; [congruence|done|lia].
Qed.

Lemma upper_ascii_slash c : (slash =? upper_ascii c)%N = (slash =? c)%N.
Proof.
  unfold upper_ascii, slash.
  destruct (N.leb_spec 97 c), (N.leb_spec c 122); cbn [andb]; try done.
  destruct (N.eqb_spec 47 (c - 32)), (N.eqb_spec 47 c); try done; lia.
Qed.

Lemma upper_ascii_class c :
  (upper_ascii c <? 128)%N = (c <? 128)%N /\
  ((128 <=? c)%N = true -> upper_ascii c = c).
Proof.
  unfold upper_ascii.
  destruct (N.leb_spec 97 c), (N.leb_spec c 122); cbn [andb]; split; try done.
  - destruct (N.ltb_spec (c - 32) 128), (N.ltb_spec c 128); try done; lia.
  - intros H'. apply N.leb_le in H'. lia.
Qed.

Lemma upper_ascii_low_surrogate d :
  ((56320 <=? upper_ascii d) && (upper_ascii d <=? 57343))%N
  = ((56320 <=? d) && (d <=? 57343))%N.
Proof.
  unfold upper_ascii.
  destruct (N.leb_spec 97 d), (N.leb_spec d 122); cbn [andb]; try done.
  destruct (N.leb_spec 56320 (d - 32)), (N.leb_spec 56320 d); cbn [andb]; try done; lia.
Qed.

Lemma utf8_length_upper (s : jsstring) :
  utf8_length (List.map upper_ascii s) = utf8_length s.
Proof.
  assert (forall n s, (length s <= n)%nat ->
            utf8_length (List.map upper_ascii s) = utf8_length s) as H.
  { clear s. induction n as [|n IH]; intros s Hlen.
    - destruct s; [done|simpl in Hlen; lia].
    - destruct s as [|c s]; [done|]. simpl in Hlen.
      destruct (upper_ascii_class c) as [Hlt Hge].
      change (List.map upper_ascii (c :: s)) with (upper_ascii c :: List.map upper_ascii s).
      cbn [utf8_length]. rewrite Hlt.
      destruct (N.ltb_spec c 128) as [Hc|Hc].
      + rewrite IH by lia. done.
      + rewrite Hge by (apply N.leb_le; lia).
        destruct (c <? 2048)%N; [rewrite IH by lia; done|].
        destruct ((55296 <=? c) && (c <=? 56319))%N; [|rewrite IH by lia; done].
        destruct s as [|d s]; [done|]. simpl in Hlen.
        pose proof (IH (d :: s) ltac:(simpl; lia)) as IHd.
        change (List.map upper_ascii (d :: s))
          with (upper_ascii d :: List.map upper_ascii s) in IHd |- *.
        cbv beta iota. rewrite upper_ascii_low_surrogate.
        destruct ((56320 <=? d) && (d <=? 57343))%N.
        * rewrite IH by lia. done.
        * rewrite IHd. done. }
  apply (H (length s)). done.
Qed.

(** Validation does not look at letter case. *)
Lemma validateName_case (name : jsstring) :
  validateName (List.map upper_ascii name) = validateName name.
Proof.
  unfold validateName. rewrite utf8_length_upper.
  assert (truthy (List.map upper_ascii name) = truthy name) as -> by now destruct name.
  assert (existsb (N.eqb slash) (List.map upper_ascii name)
          = existsb (N.eqb slash) name) as ->; [|done].
  induction name as [|c s IH]; cbn [List.map existsb]; [done|].
  now rewrite upper_ascii_slash, IH.
Qed.

End NameFacts.

Section ClientGuardFacts.
Import Storage useFileOperations_useState.

Ltac run_hook :=
  cbv beta iota zeta delta
    [effects result createFolder renameFile try_catch bind ret throw emit
     toast_success toast_error fetchFiles
     fileService.createFolder fileService.renameFile fileService.listFiles request
     start_world log fst snd requests].

Ltac split_outcomes srv :=
  repeat match goal with
         | |- context [match answer srv ?q with _ => _ end] => destruct (answer srv q)
         | |- context [if is_unauthorized ?e then _ else _] =>
             destruct (is_unauthorized e)
         end;
  cbn [log app omap mbind option_bind is_request fst snd].

Lemma createFolder_requests (srv : Server) (cur name : jsstring) :
  requests (effects (createFolder cur name) srv) = [] <-> blank name = true.
Proof.
  unfold createFolder. rewrite truthy_trim, negb_involutive.
  destruct (blank name); [done|].
  split; [|done]. run_hook. split_outcomes srv; discriminate.
Qed.

Lemma renameFile_requests (srv : Server) (cur : jsstring) (f : FileItem)
    (newName : jsstring) :
  requests (effects (renameFile cur f newName) srv) = [] <-> blank newName = true.
Proof.
  unfold renameFile. rewrite truthy_trim, negb_involutive.
  destruct (blank newName); [done|].
  split; [|done]. run_hook. split_outcomes srv; discriminate.
Qed.

(** C3, as amended.  Name validation rejects exactly the empty names,
    the names containing a path separator and the names longer than 255
    bytes, whatever their letter case.  The client checks less before it
    sends: createFolder and renameFile perform no API request exactly
    when the name is empty or made of white space only; every other
    name, also one with a separator or an over-long one, is sent to the
    server. *)
Theorem name_validation_and_client_guard :
  (forall name, validateName name = InvalidName <->
     name = [] \/ slash ∈ name \/ (max_name_bytes < utf8_length name)%nat) /\
  (forall name, validateName (List.map upper_ascii name) = validateName name) /\
  (forall srv cur name,
     requests (effects (createFolder cur name) srv) = [] <-> blank name = true) /\
  (forall srv cur f newName,
     requests (effects (renameFile cur f newName) srv) = [] <-> blank newName = true).
Proof.
  split; [exact validateName_invalid|].
  split; [exact validateName_case|].
  split; [exact createFolder_requests|exact renameFile_requests].
Qed.

(** C3 as stated does not hold: a name with a separator fails the
    validation and is sent all the same. *)
Lemma separator_name_is_sent :
  ~ (forall srv cur name,
       validateName name = InvalidName ->
       requests (effects (createFolder cur name) srv) = []).
Proof.
  intros H.
  specialize (H accepting (js "/") (js "a/b") eq_refl).
  discriminate H.
Qed.

End ClientGuardFacts.

(** ** Which endpoint a download uses *)


Section DownloadFacts.
Import useFileOperations.
Context {rt : Runtime}.

(** Reading the header has no effect of its own. *)
Lemma filename_from_header_run (response : Response) (fileName : jsstring) srv w :
  exists r, filename_from_header response fileName srv w = (w, r).
Proof.
  unfold filename_from_header.
  destruct (content_disposition response) as [cd|]; [|eexists; reflexivity].
  destruct (truthy cd); [|eexists; reflexivity].
  repeat match goal with
         | |- context [match ?x with _ => _ end] => destruct x
         end; eexists; reflexivity.
Qed.

Lemma sends_ret {A} (a : A) : sends (ret a) [].
Proof. intros srv w. simpl. now rewrite app_nil_r. Qed.

Lemma sends_throw {A} e : sends (@throw A e) [].
Proof. intros srv w. simpl. now rewrite app_nil_r. Qed.

Lemma sends_request r : sends (request r) [r].
Proof. intros srv w. simpl. now rewrite requests_app. Qed.

Lemma sends_emit e : is_request e = None -> sends (emit e) [].
Proof. intros He srv w. simpl. rewrite requests_app. simpl. now rewrite He. Qed.

Lemma sends_uuidv4 : sends uuidv4 [].
Proof. intros srv w. simpl. now rewrite app_nil_r. Qed.

(** Once [m] has sent its requests the continuation sends none. *)
Lemma sends_bind_l {A B} (m : Client A) (k : A -> Client B) rs :
  sends m rs -> (forall a, sends (k a) []) -> sends (bind m k) rs.
Proof.
  intros Hm Hk srv w. unfold bind. specialize (Hm srv w).
  destruct (m srv w) as [w' [e|a]]; simpl in *; [done|].
  now rewrite Hk, app_nil_r.
Qed.

(** A silent step that cannot fail, then the continuation. *)
Lemma sends_emit_bind {B} e (k : unit -> Client B) rs :
  is_request e = None -> sends (k tt) rs -> sends (bind (emit e) k) rs.
Proof.
  intros He Hk srv w. unfold bind, emit. rewrite Hk. simpl.
  rewrite requests_app. simpl. now rewrite He, app_nil_r.
Qed.

Lemma sends_uuidv4_bind {B} (k : nat -> Client B) rs :
  (forall n, sends (k n) rs) -> sends (bind uuidv4 k) rs.
Proof. intros Hk srv w. unfold bind, uuidv4. now rewrite Hk. Qed.

Lemma sends_try_catch {A} (m : Client A) (h : Thrown -> Client A) rs :
  sends m rs -> (forall e, sends (h e) []) -> sends (try_catch m h) rs.
Proof.
  intros Hm Hh srv w. unfold try_catch. specialize (Hm srv w).
  destruct (m srv w) as [w' [e|a]]; simpl in *; [|done].
  now rewrite Hh, app_nil_r.
Qed.

Lemma sends_filename_from_header response fileName :
  sends (filename_from_header response fileName) [].
Proof.
  intros srv w. destruct (filename_from_header_run response fileName srv w) as [r ->].
  simpl. now rewrite app_nil_r.
Qed.










Ltac decide_types :=
  rewrite ?(bool_decide_eq_true_2 (FtFile = FtFile)) by done;
  rewrite ?(bool_decide_eq_true_2 (FtFolder = FtFolder)) by done;
  rewrite ?(bool_decide_eq_false_2 (FtFile = FtFolder)) by done;
  rewrite ?(bool_decide_eq_false_2 (FtFolder = FtFile)) by done;
  cbn [andb negb orb].

Ltac step_sends :=
  cbv beta zeta;
  lazymatch goal with
  | |- sends (bind uuidv4 _) _ => apply sends_uuidv4_bind; intros ?
  | |- sends (bind (emit _) _) _ => apply sends_emit_bind; [reflexivity|]
  | |- sends (bind (toast_error _) _) _ => apply sends_emit_bind; [reflexivity|]
  | |- sends (bind _ _) _ => apply sends_bind_l; [|intros ?]
  | |- sends (try_catch _ _) _ => apply sends_try_catch; [|intros ?]
  | |- sends (ret _) _ => apply sends_ret
  | |- sends (throw _) _ => apply sends_throw
  | |- sends (fileService.downloadFile _) _ => apply sends_request
  | |- sends (fileService.batchDownload _) _ => apply sends_request
  | |- sends (filename_from_header _ _) _ => apply sends_filename_from_header
  | |- sends (match ?x with _ => _ end) _ => destruct x
  end.

Lemma sends_batchDownloadFiles files first rest :
  sends (batchDownloadFiles files (first :: rest))
        [if direct files (first :: rest) then download_request first
         else batch_request (first :: rest)].
Proof.
  unfold batchDownloadFiles, direct. destruct rest as [|second rest].
  - rewrite bool_decide_eq_true_2 by done.
    destruct (List.find (fun f => id f =? first) files) as [f|].
    + destruct (file_type f); decide_types; repeat step_sends.
    + decide_types. repeat step_sends.
  - rewrite bool_decide_eq_false_2 by (simpl; lia). decide_types. repeat step_sends.
Qed.




(** A single id that is not in the listing is fetched from the direct
    endpoint as well: the file type defaults to a file. *)
Lemma download_unlisted_id (files : list FileItem) (i : Z) (srv : Server) :
  List.find (fun f => id f =? i) files = None ->
  requests (effects (batchDownloadFiles files [i]) srv) = [download_request i].
Proof.
  intros Hfind.
  pose proof (sends_batchDownloadFiles files i [] srv start_world) as Hs.
  unfold direct in Hs. rewrite Hfind in Hs. exact Hs.
Qed.

(** An empty selection sends nothing. *)
Lemma download_nothing (files : list FileItem) (srv : Server) :
  effects (batchDownloadFiles files []) srv = [].
Proof. reflexivity. Qed.

End DownloadFacts.

(** ** The delete flow of the dashboard *)

Section DeleteFlowFacts.
Import Dashboard.
Variable handleSelect : Z -> bool -> list Z -> list Z.

Ltac split_server srv :=
  repeat match goal with
         | |- context [answer srv ?q] => destruct (answer srv q)
         end.

(** The guard of [handleDelete]: without the capability nothing is
    opened and nothing is sent. *)
Lemma handleDelete_guard (f : FileItem) (st : State) (srv : Server) :
  can_delete f = false ->
  result (handleDelete f st) srv = inr st /\
  requests (effects (handleDelete f st) srv) = [].
Proof. intros H. unfold handleDelete. rewrite H. split; reflexivity. Qed.

(** Deleting one entry from its own menu sends a request only when the
    entry may be deleted. *)
Lemma single_delete_checked (f : FileItem) (srv : Server) :
  requests (effects (run handleSelect [ClickDelete f; ClickConfirm] (idle [])) srv)
  = if can_delete f then [delete_request (id f)] else [].
Proof.
  destruct f as [i n p t sz mt ca ua cr cw [|] io]; cbv - [answer]; [|reflexivity].
  split_server srv; reflexivity.
Qed.

(** Confirming with no item and a selection sends one delete request
    for each selected id, whatever the order of the answers. *)
Lemma confirmDelete_selection (st : State) (i : Z) (sel : list Z) (srv : Server)
    (w : World) :
  itemToDelete st = None -> selectedIds st = i :: sel ->
  requests (log (confirmDelete handleSelect st srv w).1)
  = requests (log w) ++ List.map delete_request (i :: sel).
Proof.
  intros Hitem Hsel. unfold confirmDelete. rewrite Hitem, Hsel.
  cbn [length Nat.ltb Nat.leb]. unfold bind.
  destruct (batchDeleteFiles_run (i :: sel) srv w) as (tail & -> & Htail).
  assert (requests tail = []) as Htl.
  { destruct (forallb _ _); [now subst tail|].
    destruct Htail as (j & e & _ & _ & ->). reflexivity. }
  destruct (forallb _ _); cbn [ret fst log];
    rewrite !requests_app, requests_calls, Htl, app_nil_r; reflexivity.
Qed.

(** C6, the failing input.  With the entry selected, the toolbar's
    Delete followed by the confirmation sends the delete request although
    [can_delete] is false: this path never reads the flag. *)
Lemma toolbar_delete_unchecked (srv : Server) :
  can_delete locked_report = false /\
  requests (effects (run handleSelect [ClickToolbarDelete; ClickConfirm]
                         (idle [id locked_report])) srv)
  = [delete_request (id locked_report)].
Proof.
  split; [reflexivity|]. unfold effects.
  pose proof (confirmDelete_selection
                (openDeleteModal None (idle [id locked_report]))
                (id locked_report) [] srv start_world eq_refl eq_refl) as Hsent.
  cbn [run step]. unfold bind at 1.
  cbn [toolbar_onDelete idle selectedIds length Nat.ltb Nat.leb ret showDeleteModal
       openDeleteModal].
  unfold bind.
  destruct (confirmDelete handleSelect _ srv start_world) as [w' [e|st']];
    exact Hsent.
Qed.

End DeleteFlowFacts.

(** ** The size aggregator *)

Section AggregatorFacts.
Import Storage.
Variable store : gmap Z Entry.
Variable owner : Z.

Local Abbreviation owned := (Storage.owned store owner).
Local Abbreviation children := (Storage.children store owner).
Local Abbreviation walk := (Storage.walk store owner).
Local Abbreviation weight := (Storage.weight store owner).
Local Abbreviation covered := (Storage.covered store owner).
Local Abbreviation tally := (Storage.tally store owner).
Local Abbreviation has_kind := (Storage.has_kind store owner).
Local Abbreviation keys := (List.map fst (map_to_list store)).
Local Abbreviation walk_inv := (Storage.walk_inv store owner).

Lemma owned_Some i e :
  owned i = Some e <-> store !! i = Some e /\ owner_id e = owner.
Proof.
  unfold Storage.owned. destruct (store !! i) as [e'|].
  - destruct (bool_decide_reflect (owner_id e' = owner)) as [Ho|Ho].
    + split; [by intros [= <-]|by intros [[= <-] _]].
    + split; [done|]. intros [[= <-] ?]. done.
  - split; [done|]. by intros [? _].
Qed.

Lemma visit_here (i : Z) (seen : gset Z) : i ∈ {[i]} ∪ seen.
Proof. apply elem_of_union. left. by apply elem_of_singleton. Qed.

Lemma visit_old (i j : Z) (seen : gset Z) : j ∈ seen -> j ∈ {[i]} ∪ seen.
Proof. intros H. apply elem_of_union. by right. Qed.

Lemma elem_of_children p c :
  c ∈ children p <-> exists e, owned c = Some e /\ parent_id e = Some p.
Proof.
  unfold Storage.children. rewrite list_elem_of_fmap. split.
  - intros ([i e] & -> & H). apply elem_of_List_filter in H as [Hin Hc].
    apply elem_of_map_to_list in Hin. unfold is_child_of in Hc. simpl in Hc.
    apply andb_true_iff in Hc as [Hp Ho].
    apply bool_decide_eq_true in Hp, Ho.
    exists e. split; [|done]. now apply owned_Some.
  - intros (e & Ho & Hp). apply owned_Some in Ho as [Hs Ho].
    exists (c, e). split; [done|]. apply elem_of_List_filter. split.
    + now apply elem_of_map_to_list.
    + unfold is_child_of. simpl.
      now rewrite !bool_decide_eq_true_2.
Qed.

Lemma owned_in_keys i e : owned i = Some e -> i ∈ keys.
Proof.
  intros H. apply owned_Some in H as [H _].
  apply list_elem_of_fmap. exists (i, e). split; [done|].
  now apply elem_of_map_to_list.
Qed.

Lemma weight_mono ks (seen : gset Z) i :
  (weight ks ({[i]} ∪ seen) <= weight ks seen)%nat.
Proof.
  induction ks as [|k ks IH]; simpl; [done|].
  destruct (bool_decide_reflect (k ∈ seen)) as [Hk|Hk].
  - rewrite bool_decide_eq_true_2 by (by apply visit_old). simpl. lia.
  - destruct (bool_decide (k ∈ {[i]} ∪ seen)); simpl; lia.
Qed.

Lemma weight_visit ks (seen : gset Z) i :
  i ∈ ks -> i ∉ seen ->
  (weight ks ({[i]} ∪ seen) + 1 + length (children i) <= weight ks seen)%nat.
Proof.
  induction ks as [|k ks IH]; intros Hin Hseen; [by apply elem_of_nil in Hin|].
  simpl. apply elem_of_cons in Hin as [<-|Hin].
  - rewrite bool_decide_eq_true_2 by apply visit_here.
    rewrite (bool_decide_eq_false_2 (i ∈ seen)) by done.
    pose proof (weight_mono ks seen i). simpl. lia.
  - specialize (IH Hin Hseen).
    destruct (bool_decide_reflect (k ∈ seen)) as [Hk|Hk].
    + rewrite bool_decide_eq_true_2 by (by apply visit_old). simpl. lia.
    + destruct (bool_decide (k ∈ {[i]} ∪ seen)); simpl; lia.
Qed.

(** The traversal ends within its budget. *)
Lemma walk_terminates fuel stack (seen : gset Z) acc :
  (length stack + weight keys seen <= fuel)%nat ->
  is_Some (walk fuel stack seen acc).
Proof.
  revert stack seen acc. induction fuel as [|fuel IH]; intros stack seen acc Hf.
  - destruct stack; [done|simpl in Hf; lia].
  - destruct stack as [|i rest]; [done|]. simpl in Hf |- *.
    destruct (bool_decide_reflect (i ∈ seen)) as [Hi|Hi]; [apply IH; lia|].
    destruct (owned i) as [e|] eqn:Ho; [|apply IH; lia].
    pose proof (weight_visit keys seen i (owned_in_keys _ _ Ho) Hi) as Hw.
    destruct (kind e); apply IH; rewrite ?length_app; lia.
Qed.

Lemma walk_inv_skip sel i rest seen vis acc :
  i ∈ seen \/ owned i = None ->
  walk_inv sel (i :: rest) seen vis acc -> walk_inv sel rest seen vis acc.
Proof.
  intros Hi (Hnd & Hvis & Hacc & Hseen & Hstack & Hsel & Hcl).
  repeat split; try done.
  - by apply Hvis.
  - by apply Hvis.
  - intros j Hj. apply Hstack. by right.
  - intros j Hj Hs. destruct (Hsel j Hj Hs) as [?|Hin]; [by left|].
    apply elem_of_cons in Hin as [->|?]; [|by right].
    destruct Hi as [?|Hn]; [by left|]. rewrite Hn in Hs. by destruct Hs.
  - intros p ep c Hp Hop Hk Hc. destruct (Hcl p ep c Hp Hop Hk Hc) as [?|Hin]; [by left|].
    apply elem_of_cons in Hin as [->|?]; [|by right].
    destruct Hi as [?|Hn]; [by left|].
    apply elem_of_children in Hc as (e & He & _). congruence.
Qed.

Lemma walk_inv_visit sel i e rest seen vis acc :
  i ∉ seen -> owned i = Some e ->
  walk_inv sel (i :: rest) seen vis acc ->
  walk_inv sel (match kind e with File => rest | Folder => children i ++ rest end)
           ({[i]} ∪ seen) (i :: vis) (count e acc).
Proof.
  intros Hi Ho (Hnd & Hvis & Hacc & Hseen & Hstack & Hsel & Hcl).
  assert (covered sel i) as Hcov.
  { apply Hstack; [by left|]. rewrite Ho. by eexists. }
  repeat split.
  - apply NoDup_cons. split; [|done]. by rewrite Hvis.
  - intros H. apply elem_of_cons in H as [->|H]; [apply visit_here|].
    apply Hvis in H. by apply visit_old.
  - intros H. apply elem_of_union in H as [H|H].
    + apply elem_of_singleton in H as ->. by left.
    + right. by apply Hvis.
  - simpl. rewrite Ho. by rewrite Hacc.
  - intros j Hj. apply elem_of_union in Hj as [Hj|Hj]; [|by apply Hseen].
    by apply elem_of_singleton in Hj as ->.
  - intros j Hj Hs. destruct (kind e) eqn:Hk.
    + apply Hstack; [by right|done].
    + apply elem_of_app in Hj as [Hj|Hj]; [|apply Hstack; [by right|done]].
      by apply (covered_child _ _ _ i e j).
  - intros j Hj Hs. destruct (Hsel j Hj Hs) as [?|Hin]; [left; by apply visit_old|].
    apply elem_of_cons in Hin as [->|?]; [left; apply visit_here|].
    right. destruct (kind e); [done|]. apply elem_of_app. by right.
  - intros p ep c Hp Hop Hk Hc. apply elem_of_union in Hp as [Hp|Hp].
    + apply elem_of_singleton in Hp as ->.
      assert (ep = e) as -> by congruence. rewrite Hk.
      right. apply elem_of_app. by left.
    + destruct (Hcl p ep c Hp Hop Hk Hc) as [?|Hin]; [left; by apply visit_old|].
      apply elem_of_cons in Hin as [->|?]; [left; apply visit_here|].
      right. destruct (kind e); [done|]. apply elem_of_app. by right.
Qed.

Lemma walk_preserves sel fuel stack seen vis acc seen' acc' :
  walk_inv sel stack seen vis acc ->
  walk fuel stack seen acc = Some (seen', acc') ->
  exists vis', walk_inv sel [] seen' vis' acc'.
Proof.
  revert stack seen vis acc.
  induction fuel as [|fuel IH]; intros stack seen vis acc Hinv Hw.
  - destruct stack; [|done]. simpl in Hw. injection Hw as <- <-. eauto.
  - destruct stack as [|i rest]; [simpl in Hw; injection Hw as <- <-; eauto|].
    simpl in Hw.
    destruct (bool_decide_reflect (i ∈ seen)) as [Hi|Hi].
    { apply (IH rest seen vis acc); [|done]. apply (walk_inv_skip sel i); auto. }
    destruct (owned i) as [e|] eqn:Ho.
    2: { apply (IH rest seen vis acc); [|done]. apply (walk_inv_skip sel i); auto. }
    pose proof (walk_inv_visit sel i e rest seen vis acc Hi Ho Hinv) as Hinv'.
    destruct (kind e); eapply IH; eauto.
Qed.

Lemma walk_inv_complete sel seen vis acc :
  walk_inv sel [] seen vis acc -> forall i, covered sel i <-> i ∈ vis.
Proof.
  intros (Hnd & Hvis & Hacc & Hseen & Hstack & Hsel & Hcl) i. split.
  - intros Hc. apply Hvis. induction Hc as [i Hi Hs|p ep c Hp IHp Hop Hk Hc].
    + destruct (Hsel i Hi Hs) as [?|H]; [done|by apply elem_of_nil in H].
    + destruct (Hcl p ep c IHp Hop Hk Hc) as [?|H]; [done|by apply elem_of_nil in H].
  - intros Hi. apply Hseen. by apply Hvis.
Qed.

Lemma tally_counts (l : list Z) :
  fileCount (tally l) = Z.of_nat (length (List.filter (has_kind File) l)) /\
  totalBytes (tally l)
    = sum_sizes store owner (List.filter (has_kind File) l) /\
  folderCount (tally l) = Z.of_nat (length (List.filter (has_kind Folder) l)).
Proof.
  induction l as [|i l (IHf & IHb & IHd)]; [done|].
  cbn [Storage.tally List.filter].
  unfold Storage.has_kind, sum_sizes, size_of in *.
  destruct (owned i) as [e|] eqn:Ho; [|done].
  unfold count. destruct (kind e) eqn:Hk;
    cbn [fileCount totalBytes folderCount length List.map fold_right];
    rewrite ?Ho; lia.
Qed.

Lemma has_kind_is_kind k i : has_kind k i = true <-> is_kind store owner k i.
Proof.
  unfold Storage.has_kind, is_kind. destruct (owned i) as [e|].
  - split.
    + intros H. exists e. split; [done|]. destruct (kind e), k; done.
    + intros (e' & [= <-] & <-). destruct (kind e); done.
  - split; [done|]. intros (e & H & _). done.
Qed.

(** C2.  For every selection of entry ids, overlapping or not, the
    aggregation returns totals in which each file covered by the
    selection is counted exactly once: there is a duplicate-free list of
    precisely the covered files whose length is [fileCount] and whose
    sizes sum to [totalBytes], and likewise for the covered folders and
    [folderCount]. *)
Theorem aggregate_counts_each_file_once (entryIds : list Z) :
  exists t files folders,
    aggregate store owner entryIds = Some t /\
    NoDup files /\
    (forall i, i ∈ files <-> covered entryIds i /\ is_kind store owner File i) /\
    fileCount t = Z.of_nat (length files) /\
    totalBytes t = sum_sizes store owner files /\
    NoDup folders /\
    (forall i, i ∈ folders <-> covered entryIds i /\ is_kind store owner Folder i) /\
    folderCount t = Z.of_nat (length folders).
Proof.
  unfold aggregate.
  destruct (walk_terminates (budget store owner entryIds) entryIds ∅ no_totals)
    as [[seen acc] Hw]; [unfold budget; lia|].
  rewrite Hw.
  assert (walk_inv entryIds entryIds ∅ [] no_totals) as Hinv.
  { repeat split.
    - constructor.
    - intros H. by apply elem_of_nil in H.
    - intros H. by apply elem_of_empty in H.
    - intros i H. by apply elem_of_empty in H.
    - intros i Hi Hs. by constructor.
    - intros i Hi Hs. by right.
    - intros p ep c H. by apply elem_of_empty in H. }
  destruct (walk_preserves _ _ _ _ _ _ _ _ Hinv Hw) as [vis Hfin].
  pose proof (walk_inv_complete _ _ _ _ Hfin) as Hcov.
  destruct Hfin as (Hnd & _ & -> & _).
  destruct (tally_counts vis) as (Hf & Hb & Hd).
  exists (tally vis), (List.filter (has_kind File) vis),
    (List.filter (has_kind Folder) vis).
  split; [done|].
  split; [by apply NoDup_ListNoDup, List.NoDup_filter, NoDup_ListNoDup|].
  split; [intros i; rewrite elem_of_List_filter, Hcov, has_kind_is_kind; tauto|].
  split; [done|]. split; [done|].
  split; [by apply NoDup_ListNoDup, List.NoDup_filter, NoDup_ListNoDup|].
  split; [intros i; rewrite elem_of_List_filter, Hcov, has_kind_is_kind; tauto|].
  done.
Qed.

End AggregatorFacts.

(** ** The size label *)

Section SizeLabelFacts.
Context {rt : Runtime}.

(** Nothing, and zero bytes, are labelled ['0 B'], whatever the
    runtime computes. *)
Lemma formatBytes_nothing (decimals : Z) :
  format.formatBytes None decimals = Some (js "0 B")
  /\ format.formatBytes (Some 0%float) decimals = Some (js "0 B").
Proof. split; reflexivity. Qed.

(** The quotient of the logarithms of [1024^5 - 1] and of 1024, each
    the number nearest to the real logarithm, is the number 5. *)
Lemma quotient_of_logarithms :
  Math_floor (0x1.1542457337d43p+5 / 0x1.bb9d3beb8c86bp+2) = 5%float.
Proof. vm_compute. reflexivity. Qed.

(** C10, refuted at the byte count just below [1024^5]: where
    [Math.log] gives the number nearest to the logarithm at 1024 and at
    [1024^5 - 1 = 1125899906842623], the index computed is 5, beyond
    the five units of the table, and the label ends in ['undefined']
    instead of a unit. *)
Theorem formatBytes_unit_undefined (decimals : Z) (fixed : jsstring) :
  Math_log 1024 = 0x1.bb9d3beb8c86bp+2%float ->
  Math_log 1125899906842623 = 0x1.1542457337d43p+5%float ->
  toFixed (1125899906842623 / Math_pow 1024 5)
          (if decimals <? 0 then 0 else decimals) = Some fixed ->
  PrimFloat.ltb 1125899906842623 (Number_of_Z (1024 ^ 5)) = true
  /\ Array_at format.sizes (Math_floor (Math_log 1125899906842623 / Math_log 1024))
     = None
  /\ format.formatBytes (Some 1125899906842623%float) decimals
     = Some (ToString (parseFloat fixed) ++ js " undefined").
Proof.
  intros Hk Hb Hfixed.
  split; [vm_compute; reflexivity|].
  unfold format.formatBytes.
  rewrite Hb, Hk, quotient_of_logarithms, Hfixed.
  split; reflexivity.
Qed.

End SizeLabelFacts.

(** With the numbers of the plain runtime, the label of [1024^5 - 1]
    bytes is ['1 undefined']. *)
Lemma formatBytes_unit_undefined_witness :
  Math_log (Runtime := plain_runtime) 1024 = 0x1.bb9d3beb8c86bp+2%float
  /\ Math_log (Runtime := plain_runtime) 1125899906842623
     = 0x1.1542457337d43p+5%float
  /\ toFixed (Runtime := plain_runtime) (1125899906842623 / 1125899906842624) 1
     = Some (js "1.0")
  /\ format.formatBytes (rt := plain_runtime) (Some 1125899906842623%float) 1
     = Some (js "1 undefined").
Proof.
  split; [vm_compute; reflexivity|].
  split; [vm_compute; reflexivity|].
  split; [vm_compute; reflexivity|].
  apply (formatBytes_unit_undefined (rt := plain_runtime) 1 (js "1.0"));
    vm_compute; reflexivity.
Defined.

(** ** Worked examples *)

Lemma code_unit_compare_antisym a b :
  Z.sgn (code_unit_compare a b) = - Z.sgn (code_unit_compare b a).
Proof.
  revert b. induction a as [|c a IH]; intros [|d b]; simpl; try done.
  destruct (N.ltb_spec c d), (N.ltb_spec d c); first [lia | done | apply IH].
Qed.

Lemma code_unit_compare_trans a b c :
  code_unit_compare a b <= 0 -> code_unit_compare b c <= 0 ->
  code_unit_compare a c <= 0.
Proof.
  revert b c. induction a as [|x a IH]; intros [|y b] [|z c]; simpl; try done; try lia.
  destruct (N.ltb_spec x y), (N.ltb_spec y x), (N.ltb_spec y z), (N.ltb_spec z y),
    (N.ltb_spec x z), (N.ltb_spec z x); first [lia | done | apply IH].
Qed.

#[global] Instance plain_runtime_consistent : LocaleConsistent plain_runtime.
Proof.
  split; [exact code_unit_compare_antisym|exact code_unit_compare_trans].
Qed.

Example listing_by_date :
  List.map id (useFileFilter.processedFiles (rt := plain_runtime) listing CatAll [] SortDate)
  = [2; 3; 1].
Proof. reflexivity. Qed.

Example listing_by_size :
  List.map id (useFileFilter.processedFiles (rt := plain_runtime) listing CatImages [] SortSize)
  = [2].
Proof. reflexivity. Qed.

Lemma processedFiles_order_witness :
  sort_key_consistent (rt := plain_runtime) SortDate listing /\
  let result := useFileFilter.processedFiles (rt := plain_runtime) listing CatAll [] SortDate in
  (forall i j a b, (i < j)%nat -> result !! i = Some a -> result !! j = Some b ->
     kind_le a b /\ (file_type a = file_type b -> key_le (rt := plain_runtime) SortDate a b)) /\
  (forall f, f ∈ listing -> file_type f = FtFolder ->
     f ∈ useFileFilter.filter_by_category (rt := plain_runtime) CatAll listing /\
     (truthy [] = false \/ useFileFilter.search_keeps (rt := plain_runtime) [] f = true ->
      f ∈ result)).
Proof.
  assert (sort_key_consistent (rt := plain_runtime) SortDate listing) as H.
  { repeat constructor; eexists; reflexivity. }
  split; [exact H|].
  exact (processedFiles_order (rt := plain_runtime) listing CatAll [] SortDate H).
Defined.

(** C9 as stated does not hold: one creation time that does not parse
    makes the comparator answer [NaN] next to it, and the sort then
    leaves the older january.txt before the newer june.txt. *)
Lemma unparseable_date_breaks_order : ~ always_ordered (rt := plain_runtime).
Proof.
  intros H.
  specialize (H undated_listing CatAll [] SortDate 0%nat 2%nat
                (entry 11 "january.txt" FtFile (Some 1) "2024-01-01T00:00:00Z")
                (entry 13 "june.txt" FtFile (Some 1) "2024-06-01T00:00:00Z")).
  cbv zeta in H.
  specialize (H ltac:(lia) eq_refl eq_refl eq_refl
                ltac:(eexists; reflexivity) ltac:(eexists; reflexivity)).
  vm_compute in H. apply H. reflexivity.
Qed.


(** A folder download is saved under a name ending in ".zip". *)
Example folder_download_saved :
  saved_as (effects (useFileOperations.batchDownloadFiles (rt := plain_runtime)
                       listing [2])
                    accepting)
  = [js "docs.zip"].
Proof. reflexivity. Qed.

(** ** The scenario of section 8: /docs with a.txt of 100 bytes *)

Example aggregate_docs :
  Storage.aggregate docs_store 1 [2]
  = Some {| Storage.totalBytes := 100; Storage.fileCount := 1; Storage.folderCount := 1 |}.
Proof. vm_compute. reflexivity. Qed.

(** The folder and its own child selected together: the file is still
    counted once. *)
Example aggregate_overlap :
  Storage.aggregate docs_store 1 [2; 3; 2]
  = Some {| Storage.totalBytes := 100; Storage.fileCount := 1; Storage.folderCount := 1 |}.
Proof. vm_compute. reflexivity. Qed.

Example validateName_examples :
  Storage.validateName (js "") = Storage.InvalidName /\
  Storage.validateName (js "a/b") = Storage.InvalidName /\
  Storage.validateName (js "README") = Storage.NameOk /\
  Storage.validateName (js "readme") = Storage.NameOk.
Proof. repeat split. Qed.

Section MultiDelete.
Import Dashboard.
Variable handleSelect : Z -> bool -> list Z -> list Z.

(** In a selection of several entries only the clicked one is checked:
    deleting from the menu of a deletable entry also sends the request
    for a selected entry that may not be deleted. *)
Lemma multi_delete_checks_clicked_only (srv : Server) :
  can_delete (entry 1 "a.txt" FtFile (Some 100) "2024-03-01T09:00:00Z") = true /\
  can_delete locked_report = false /\
  requests (effects (run handleSelect
                       [ClickDelete (entry 1 "a.txt" FtFile (Some 100) "2024-03-01T09:00:00Z"); ClickConfirm]
                       (idle [1; 7])) srv)
  = [delete_request 1; delete_request 7].
Proof.
  split; [reflexivity|]. split; [reflexivity|]. unfold effects.
  pose proof (confirmDelete_selection handleSelect
                (openDeleteModal None (idle [1; 7])) 1 [7] srv start_world
                eq_refl eq_refl) as Hsent.
  cbn [run step]. unfold bind at 1.
  assert (handleDelete (entry 1 "a.txt" FtFile (Some 100) "2024-03-01T09:00:00Z") (idle [1; 7])
            srv start_world
          = (start_world, inr (openDeleteModal None (idle [1; 7])))) as ->
    by reflexivity.
  cbn [showDeleteModal openDeleteModal]. unfold bind.
  destruct (confirmDelete handleSelect _ srv start_world) as [w' [e|st']];
    exact Hsent.
Qed.

End MultiDelete.

Lemma handleConfirm_never_into_itself_witness :
  FileSelectorModal.handleConfirm (Some (js "/docs"))
    {| FileSelectorModal.currentPath := js "/docs/drafts";
       FileSelectorModal.selectedPath := None |} = None.
Proof.
  apply handleConfirm_never_into_itself; [discriminate|reflexivity].
Defined.

Lemma handleBack_parent_witness :
  FileSelectorModal.handleBack
    {| FileSelectorModal.currentPath := js "/docs/drafts";
       FileSelectorModal.selectedPath := None |} = Some (js "/docs").
Proof.
  apply (handleBack_parent [js "docs"] (js "drafts")); [discriminate| |reflexivity].
  apply (bool_decide_eq_false_1 (slash ∈ js "drafts")). reflexivity.
Defined.

Lemma download_unlisted_id_witness :
  requests (effects (useFileOperations.batchDownloadFiles (rt := plain_runtime) listing [9])
                    (in_order (fun _ => Rejected network_down)))
  = [download_request 9].
Proof. apply download_unlisted_id. reflexivity. Defined.

(** * Further properties of the client *)

(** ** The selection *)

Section SelectionFacts.
Import useSelection.

Lemma Set_has_elem (s : list Z) (i : Z) : Set_has s i = true <-> i ∈ s.
Proof.
  unfold Set_has. rewrite existsb_exists. split.
  - intros (j & Hj & Heq). apply Z.eqb_eq in Heq as ->. now apply list_elem_of_In.
  - intros Hi. exists i. split; [now apply list_elem_of_In|apply Z.eqb_refl].
Qed.

Lemma Set_has_not_elem (s : list Z) (i : Z) : Set_has s i = false <-> i ∉ s.
Proof.
  rewrite <- Set_has_elem. destruct (Set_has s i); split; congruence.
Qed.

Lemma Set_add_elem (s : list Z) (i j : Z) : j ∈ Set_add s i <-> j ∈ s \/ j = i.
Proof.
  unfold Set_add. destruct (Set_has s i) eqn:Hi.
  - apply Set_has_elem in Hi. split; [tauto|]. intros [?| ->]; done.
  - rewrite elem_of_app, list_elem_of_singleton. tauto.
Qed.

Lemma Set_add_NoDup (s : list Z) (i : Z) : NoDup s -> NoDup (Set_add s i).
Proof.
  intros Hs. unfold Set_add. destruct (Set_has s i) eqn:Hi; [done|].
  apply Set_has_not_elem in Hi. apply NoDup_app. split; [done|].
  split; [|apply NoDup_singleton].
  intros j Hj Hj'. apply list_elem_of_singleton in Hj' as ->. done.
Qed.

Lemma Set_delete_elem (s : list Z) (i j : Z) : j ∈ Set_delete s i <-> j ∈ s /\ j <> i.
Proof.
  unfold Set_delete. rewrite elem_of_List_filter, negb_true_iff, Z.eqb_neq. tauto.
Qed.

Lemma Set_delete_NoDup (s : list Z) (i : Z) : NoDup s -> NoDup (Set_delete s i).
Proof.
  intros Hs. unfold Set_delete. apply NoDup_ListNoDup.
  apply List.NoDup_filter. now apply NoDup_ListNoDup.
Qed.

Lemma fold_Set_add_elem (l acc : list Z) (j : Z) :
  j ∈ fold_left Set_add l acc <-> j ∈ acc \/ j ∈ l.
Proof.
  revert acc. induction l as [|i l IH]; intros acc; simpl.
  - rewrite elem_of_nil. tauto.
  - rewrite IH, Set_add_elem, elem_of_cons. tauto.
Qed.

Lemma fold_Set_add_NoDup (l acc : list Z) : NoDup acc -> NoDup (fold_left Set_add l acc).
Proof.
  revert acc. induction l as [|i l IH]; intros acc Hacc; simpl; [done|].
  apply IH. now apply Set_add_NoDup.
Qed.

Lemma fold_Set_add_fresh (l acc : list Z) :
  NoDup (acc ++ l) -> fold_left Set_add l acc = acc ++ l.
Proof.
  revert acc. induction l as [|i l IH]; intros acc Hnd; simpl.
  - now rewrite app_nil_r.
  - assert (Set_add acc i = acc ++ [i]) as ->.
    { unfold Set_add. destruct (Set_has acc i) eqn:Hi; [|done].
      apply Set_has_elem in Hi. apply NoDup_app in Hnd as (_ & Hd & _).
      exfalso. apply (Hd i Hi). apply list_elem_of_here. }
    rewrite IH; rewrite <- app_assoc; done.
Qed.

Lemma Set_of_elem (l : list Z) (j : Z) : j ∈ Set_of l <-> j ∈ l.
Proof. unfold Set_of. rewrite fold_Set_add_elem, elem_of_nil. tauto. Qed.

Lemma Set_of_NoDup (l : list Z) : NoDup (Set_of l).
Proof. apply fold_Set_add_NoDup, NoDup_nil_2. Qed.

Lemma Set_of_fresh (l : list Z) : NoDup l -> Set_of l = l.
Proof. intros Hl. unfold Set_of. now rewrite fold_Set_add_fresh. Qed.

Lemma Set_of_length (l : list Z) : length (Set_of l) = length l <-> NoDup l.
Proof.
  split.
  - intros Hlen.
    assert (Set_of l ⊆+ l) as Hsub.
    { apply NoDup_submseteq; [apply Set_of_NoDup|]. intros j. apply Set_of_elem. }
    apply submseteq_length_Permutation in Hsub; [|lia].
    rewrite <- Hsub. apply Set_of_NoDup.
  - intros Hl. now rewrite Set_of_fresh.
Qed.

Lemma handleSelect_elem (id : Z) (prev : list Z) (j : Z) :
  j ∈ handleSelect id true prev <-> (j ∈ prev /\ j <> id) \/ (j = id /\ id ∉ prev).
Proof.
  unfold handleSelect. destruct (Set_has (Set_of prev) id) eqn:Hid.
  - apply Set_has_elem in Hid. rewrite Set_of_elem in Hid.
    rewrite Set_delete_elem, Set_of_elem. split; [tauto|].
    intros [?|[-> ?]]; tauto.
  - apply Set_has_not_elem in Hid. rewrite Set_of_elem in Hid.
    rewrite Set_add_elem, Set_of_elem. split.
    + intros [Hj| ->]; [left|right]; split; try done. intros ->. done.
    + tauto.
Qed.

Lemma handleSelect_NoDup (id : Z) (multi : bool) (prev : list Z) :
  NoDup (handleSelect id multi prev).
Proof.
  unfold handleSelect.
  destruct (Set_has _ id); [apply Set_delete_NoDup|apply Set_add_NoDup];
    apply Set_of_NoDup.
Qed.

(** A selecting click (the check box of a card, or a click on the card
    with a modifier key; both call [handleSelect] with [multi] set) flips
    the membership of that entry and of no other, and the selection
    never lists an id twice. *)
Theorem handleSelect_toggles (id : Z) (prev : list Z) :
  NoDup (handleSelect id true prev)
  /\ (id ∈ handleSelect id true prev <-> id ∉ prev)
  /\ (forall j, j <> id -> (j ∈ handleSelect id true prev <-> j ∈ prev)).
Proof.
  split; [apply handleSelect_NoDup|]. split.
  - rewrite handleSelect_elem. split.
    + intros [[_ ?]|[_ ?]]; done.
    + intros ?. right. done.
  - intros j Hj. rewrite handleSelect_elem. split.
    + intros [[? _]|[? _]]; done.
    + intros ?. left. done.
Qed.

(** Toggling the same entry twice gives back the selection: the same
    members, possibly in another order of insertion. *)
Theorem handleSelect_twice (id : Z) (prev : list Z) :
  NoDup prev ->
  handleSelect id true (handleSelect id true prev) ≡ₚ prev.
Proof.
  intros Hprev. apply NoDup_Permutation; [apply handleSelect_NoDup|done|].
  intros j. rewrite !handleSelect_elem.
  destruct (decide (j = id)) as [->|Hj]; destruct (decide (id ∈ prev)); tauto.
Qed.

Lemma handleSelect_twice_witness :
  handleSelect 2 true (handleSelect 2 true [1; 2; 3]) ≡ₚ [1; 2; 3].
Proof.
  apply (handleSelect_twice 2 [1; 2; 3]).
  apply (bool_decide_eq_true_1 (NoDup [1; 2; 3])). reflexivity.
Defined.

(** Select all selects every entry of the listing.  The check box of
    the header then shows checked exactly when the listing is not empty
    and no two of its entries share an id; after a deselect all it is
    unchecked. *)
Theorem select_all_header_checked (files : list FileItem) :
  let allItemIds := List.map id files in
  (forall f, f ∈ files ->
     FileList.card_selected (handleSelectAll allItemIds true) f = true)
  /\ (FileList.header_checked files (handleSelectAll allItemIds true) = true
      <-> files <> [] /\ NoDup allItemIds)
  /\ FileList.header_checked files (handleSelectAll allItemIds false) = false.
Proof.
  intros allItemIds. split; [|split].
  - intros f Hf. unfold FileList.card_selected, handleSelectAll.
    apply Set_has_elem, Set_of_elem. unfold allItemIds.
    apply list_elem_of_fmap. eauto.
  - unfold FileList.header_checked, handleSelectAll.
    rewrite andb_true_iff, Nat.ltb_lt, Nat.eqb_eq.
    rewrite <- (length_map id files) at 2. fold allItemIds.
    rewrite Set_of_length. split; intros [Hne Hnd]; split; try done.
    + intros ->. simpl in Hne. lia.
    + destruct files; [done|simpl; lia].
  - unfold FileList.header_checked, handleSelectAll. simpl.
    destruct files; reflexivity.
Qed.

(** When the selection was made from the entries of the listing, a
    checked header box means that every entry is selected. *)
Theorem header_checked_all_selected (files : list FileItem) (selectedIds : list Z) :
  NoDup selectedIds ->
  (forall i, i ∈ selectedIds -> i ∈ List.map id files) ->
  FileList.header_checked files selectedIds = true ->
  forall f, f ∈ files -> FileList.card_selected selectedIds f = true.
Proof.
  intros Hnd Hsub Hchk f Hf.
  unfold FileList.header_checked in Hchk.
  apply andb_true_iff in Hchk as [_ Hlen]. apply Nat.eqb_eq in Hlen.
  assert (selectedIds ⊆+ List.map id files) as Hms by now apply NoDup_submseteq.
  apply submseteq_length_Permutation in Hms; [|rewrite length_map; lia].
  unfold FileList.card_selected. apply Set_has_elem. rewrite Hms.
  apply list_elem_of_fmap. eauto.
Qed.

Lemma header_checked_all_selected_witness :
  Forall (fun f => FileList.card_selected [3; 1; 2] f = true) listing.
Proof.
  apply Forall_forall.
  apply (header_checked_all_selected listing [3; 1; 2]).
  - apply (bool_decide_eq_true_1 (NoDup [3; 1; 2])). reflexivity.
  - apply Forall_forall.
    apply (bool_decide_eq_true_1 (Forall (fun i => i ∈ List.map id listing) [3; 1; 2])).
    reflexivity.
  - reflexivity.
Defined.

End SelectionFacts.

(** ** Labels and icons *)

Section LabelFacts.
Import useFileFilter.
Context {rt : Runtime}.
Variable toUpperCase : jsstring -> jsstring.

Local Abbreviation formatFileType := (format.formatFileType toUpperCase).

Lemma startsWith_first (s : jsstring) (c : N) (p : jsstring) (d : N) (q : jsstring) :
  startsWith s (c :: p) = true -> startsWith s (d :: q) = true -> c = d.
Proof.
  destruct s as [|e s]; cbn [startsWith]; [discriminate|].
  rewrite !andb_true_iff, !N.eqb_eq. intros [-> _] [-> _]. reflexivity.
Qed.

Lemma suffixed_not_Image (x : jsstring) : x ++ js " File" <> js "Image".
Proof.
  intros H. destruct x as [|c r].
  - discriminate.
  - apply (f_equal length) in H. rewrite length_app in H. simpl in H. lia.
Qed.

Lemma suffixed_not_Video (x : jsstring) : x ++ js " File" <> js "Video".
Proof.
  intros H. destruct x as [|c r].
  - discriminate.
  - apply (f_equal length) in H. rewrite length_app in H. simpl in H. lia.
Qed.

Ltac split_label :=
  unfold format.formatFileType;
  repeat match goal with
         | |- context [if ?c then _ else _] => destruct c eqn:?
         | |- context [match ?o with Some _ => _ | None => _ end] => destruct o eqn:?
         end.

Lemma formatFileType_Image (m : jsstring) :
  formatFileType (Some m) false = js "Image" <-> startsWith m (js "image/") = true.
Proof.
  split.
  - intros H. destruct (startsWith m (js "image/")) eqn:Hs; [done|]. exfalso. revert H.
    unfold format.formatFileType. rewrite Hs. simpl.
    split_label; try discriminate. apply suffixed_not_Image.
  - intros H. unfold format.formatFileType. rewrite H.
    destruct m; [discriminate|reflexivity].
Qed.

Lemma formatFileType_Video (m : jsstring) :
  formatFileType (Some m) false = js "Video" <-> startsWith m (js "video/") = true.
Proof.
  split.
  - intros H. destruct (startsWith m (js "video/")) eqn:Hs; [done|]. exfalso. revert H.
    unfold format.formatFileType. rewrite Hs. simpl.
    split_label; try discriminate. apply suffixed_not_Video.
  - intros H. unfold format.formatFileType. rewrite H.
    destruct m as [|c m]; [discriminate|].
    destruct (startsWith (c :: m) (js "image/")) eqn:Hi; [|reflexivity].
    pose proof (startsWith_first _ _ _ _ _ H Hi) as E. discriminate E.
Qed.

Lemma useThumbnail_image (f : FileItem) (srv : Server) :
  opt_startsWith (mime_type f) (js "image/") = true ->
  requests (effects (FileCard.useThumbnail f) srv) = [download_request (id f)]
  /\ result (FileCard.useThumbnail f) srv = inr (resolved srv (download_request (id f))).
Proof.
  intros H. unfold FileCard.useThumbnail. rewrite H.
  cbv beta iota zeta delta
    [effects result try_catch bind ret emit fileService.downloadFile request resolved
     start_world log fst snd].
  fold (download_request (id f)).
  destruct (answer srv (download_request (id f))); split; reflexivity.
Qed.

Lemma useThumbnail_other (f : FileItem) (srv : Server) :
  opt_startsWith (mime_type f) (js "image/") = false ->
  effects (FileCard.useThumbnail f) srv = []
  /\ result (FileCard.useThumbnail f) srv = inr false.
Proof. intros H. unfold FileCard.useThumbnail. rewrite H. split; reflexivity. Qed.

(** The Images and Videos categories, the type label and what is shown
    agree on a file.  A file is kept by the Images category exactly when
    its label is Image; its card then asks for a thumbnail with one
    download request and shows the thumbnail once the request was
    accepted, the picture icon before that and when it was rejected; the
    details show the picture icon and the file counts as an image to
    preview.  A file is kept by the Videos category exactly when its
    label is Video; its card asks for no thumbnail and shows the clapper
    icon, the details show the camera icon. *)
Theorem category_label_icon (f : FileItem) (viewMode : FileCard.ViewMode)
    (srv : Server) :
  file_type f = FtFile ->
  (category_keeps CatImages f = true
   <-> formatFileType (mime_type f) false = js "Image")
  /\ (category_keeps CatImages f = true ->
      requests (effects (FileCard.useThumbnail f) srv) = [download_request (id f)]
      /\ result (FileCard.useThumbnail f) srv
         = inr (resolved srv (download_request (id f)))
      /\ FileCard.icon_area viewMode true f = FileCard.Thumbnail
      /\ FileCard.icon_area viewMode false f = FileCard.FileIcon fileUtils.IconPicture
      /\ FileDetailsModal.getFileIcon [f] = fileUtils.IconPicture
      /\ opt_startsWith (mime_type f) (js "image/") = true)
  /\ (category_keeps CatVideos f = true
      <-> formatFileType (mime_type f) false = js "Video")
  /\ (category_keeps CatVideos f = true ->
      effects (FileCard.useThumbnail f) srv = []
      /\ result (FileCard.useThumbnail f) srv = inr false
      /\ FileCard.icon_area viewMode false f = FileCard.FileIcon fileUtils.IconClapper
      /\ FileDetailsModal.getFileIcon [f] = fileUtils.IconCamera).
Proof.
  intros Hf.
  assert (forall t, FileCard.icon_area viewMode t f
                    = if t then FileCard.Thumbnail
                      else FileCard.FileIcon (fileUtils.getFileIcon f)) as Harea.
  { intros t. unfold FileCard.icon_area. rewrite Hf.
    rewrite (bool_decide_eq_false_2 (FtFile = FtFolder)) by discriminate.
    destruct viewMode, t; reflexivity. }
  split; [|split; [|split]].
  - unfold category_keeps. rewrite Hf.
    destruct (mime_type f) as [[|c m]|]; [split; discriminate| |split; discriminate].
    cbn [truthy negb]. symmetry. apply formatFileType_Image.
  - intros H.
    assert (opt_startsWith (mime_type f) (js "image/") = true) as Himg.
    { unfold category_keeps in H. rewrite Hf in H. unfold opt_startsWith.
      destruct (mime_type f) as [[|c m]|]; done. }
    destruct (useThumbnail_image f srv Himg) as [Hreq Hres].
    split; [exact Hreq|]. split; [exact Hres|]. rewrite !Harea.
    split; [done|].
    unfold fileUtils.getFileIcon, FileDetailsModal.getFileIcon,
      FileDetailsModal.is_folder.
    rewrite Hf, (bool_decide_eq_false_2 (FtFile = FtFolder)) by discriminate.
    rewrite Himg. unfold opt_startsWith in Himg.
    destruct (mime_type f) as [[|c m]|]; [done| |done].
    cbn [truthy negb]. rewrite Himg. done.
  - unfold category_keeps. rewrite Hf.
    destruct (mime_type f) as [[|c m]|]; [split; discriminate| |split; discriminate].
    cbn [truthy negb]. symmetry. apply formatFileType_Video.
  - intros H.
    assert (exists c m, mime_type f = Some (c :: m)
                        /\ startsWith (c :: m) (js "video/") = true) as (c & m & Hm & Hv).
    { unfold category_keeps in H. rewrite Hf in H.
      destruct (mime_type f) as [[|c m]|]; try done. eauto. }
    assert (startsWith (c :: m) (js "image/") = false) as Hi.
    { destruct (startsWith (c :: m) (js "image/")) eqn:Hi; [|done].
      pose proof (startsWith_first _ _ _ _ _ Hv Hi) as E. discriminate E. }
    assert (opt_startsWith (mime_type f) (js "image/") = false) as Himg
      by (unfold opt_startsWith; now rewrite Hm).
    destruct (useThumbnail_other f srv Himg) as [Heff Hres].
    split; [exact Heff|]. split; [exact Hres|]. rewrite Harea.
    unfold fileUtils.getFileIcon, FileDetailsModal.getFileIcon,
      FileDetailsModal.is_folder, opt_startsWith.
    rewrite Hf, (bool_decide_eq_false_2 (FtFile = FtFolder)) by discriminate.
    rewrite Hm. cbn [truthy negb]. rewrite Hi, Hv. done.
Qed.

End LabelFacts.

Lemma category_label_icon_witness :
  FileCard.icon_area FileCard.Grid true
    {| id := 4; name := js "sea.png"; path := js "/sea.png"; file_type := FtFile;
       size_bytes := Some 10; mime_type := Some (js "image/png");
       created_at := js "2024-03-01T09:00:00Z"; updated_at := js "2024-03-01T09:00:00Z";
       can_read := true; can_write := true; can_delete := true; is_owner := true |}
  = FileCard.Thumbnail
  /\ FileCard.icon_area FileCard.Grid false
       {| id := 4; name := js "sea.png"; path := js "/sea.png"; file_type := FtFile;
          size_bytes := Some 10; mime_type := Some (js "image/png");
          created_at := js "2024-03-01T09:00:00Z"; updated_at := js "2024-03-01T09:00:00Z";
          can_read := true; can_write := true; can_delete := true; is_owner := true |}
     = FileCard.FileIcon fileUtils.IconPicture.
Proof.
  pose proof (@category_label_icon plain_runtime (List.map upper_ascii)
                {| id := 4; name := js "sea.png"; path := js "/sea.png";
                   file_type := FtFile;
                   size_bytes := Some 10; mime_type := Some (js "image/png");
                   created_at := js "2024-03-01T09:00:00Z";
                   updated_at := js "2024-03-01T09:00:00Z";
                   can_read := true; can_write := true; can_delete := true;
                   is_owner := true |}
                FileCard.Grid accepting eq_refl) as (_ & H & _).
  destruct (H eq_refl) as (_ & _ & Hshown & Hicon & _). split; assumption.
Defined.

(** ** The details of a selection *)

Section DetailsFacts.
Import FileDetailsModal.

Lemma local_total_from (files : list FileItem) (acc : Z) :
  fold_left (fun acc f => acc + useFileFilter.size_or_0 f) files acc
  = acc + foldr Z.add 0 (List.map useFileFilter.size_or_0 files).
Proof.
  revert acc. induction files as [|f files IH]; intros acc; simpl; [lia|].
  rewrite IH. lia.
Qed.

(** The size of a selection is asked of the server exactly when the
    selection holds a folder, with the ids of all selected entries; a
    rejected request leaves the size unknown.  For files only nothing is
    sent and the size is the sum of their sizes, a missing size counting
    as 0.  A closed modal sends nothing. *)
Theorem calculate_size_request (files : list FileItem) (srv : Server) :
  requests (effects (calculate true files) srv)
    = (if existsb is_folder files then [size_request (List.map id files)] else [])
  /\ (existsb is_folder files = true ->
      result (calculate true files) srv
      = inr (match srv (size_request (List.map id files)) with
             | Resolved _ => FromServer
             | Rejected _ => Unknown
             end))
  /\ (existsb is_folder files = false -> files <> [] ->
      result (calculate true files) srv
      = inr (Local (foldr Z.add 0 (List.map useFileFilter.size_or_0 files))))
  /\ effects (calculate false files) srv = [].
Proof.
  unfold calculate. cbn [negb orb].
  destruct files as [|f files].
  - repeat split; try done.
  - rewrite (bool_decide_eq_false_2 (f :: files = [])) by discriminate.
    destruct (existsb is_folder (f :: files)) eqn:Hex.
    + split; [|split; [|split]]; try done.
      * cbv beta iota zeta delta
          [effects result try_catch bind ret emit fileService.calculateSize request
           start_world log fst snd size_request].
        destruct (srv _); reflexivity.
      * intros _.
        cbv beta iota zeta delta
          [effects result try_catch bind ret emit fileService.calculateSize request
           start_world log fst snd size_request].
        destruct (srv _); reflexivity.
    + split; [|split; [|split]]; try done.
      intros _ _. unfold result, ret, local_total. simpl snd.
      now rewrite local_total_from.
Qed.

Lemma filter_kinds_length (files : list FileItem) :
  (length (List.filter is_folder files) + length (List.filter is_file files)
   = length files)%nat.
Proof.
  induction files as [|f files IH]; [reflexivity|].
  assert (is_folder f = negb (is_file f)) as Hf
    by (unfold is_folder, is_file; destruct (file_type f); reflexivity).
  cbn [List.filter]. rewrite Hf. destruct (is_file f); simpl; lia.
Qed.

Lemma filter_length_all {A} (p : A -> bool) (l : list A) :
  length (List.filter p l) = length l <-> Forall (fun x => p x = true) l.
Proof.
  induction l as [|x l IH]; simpl.
  - split; [constructor|reflexivity].
  - pose proof (List.filter_length_le p l) as Hle.
    destruct (p x) eqn:Hx; simpl.
    + split.
      * intros H. constructor; [done|]. apply IH. lia.
      * intros H. inversion H; subst. f_equal. now apply IH.
    + split; [lia|]. intros H. inversion H; congruence.
Qed.

(** For a selection of several entries the icon and the type row
    agree: the folder icon with All folders when every entry is a
    folder, the page icon with All files when every entry is a file, and
    the books icon with the mixed text otherwise, whose two counts are
    both positive and add up to the number of selected entries. *)
Theorem details_type_icon (files : list FileItem) :
  (1 < length files)%nat ->
  match typeDisplay files with
  | Some AllFolders =>
      getFileIcon files = fileUtils.IconFolder
      /\ Forall (fun f => file_type f = FtFolder) files
  | Some AllFiles =>
      getFileIcon files = fileUtils.IconPage
      /\ Forall (fun f => file_type f = FtFile) files
  | Some (Mixed folderCount fileCount) =>
      getFileIcon files = fileUtils.IconBooks
      /\ (0 < folderCount)%nat /\ (0 < fileCount)%nat
      /\ (folderCount + fileCount = length files)%nat
  | _ => False
  end.
Proof.
  intros Hlen. destruct files as [|f [|g files]]; [simpl in Hlen; lia..|].
  pose proof (filter_kinds_length (f :: g :: files)) as Hsum.
  unfold typeDisplay, getFileIcon.
  set (l := f :: g :: files) in *.
  assert ((length l =? 1)%nat = false) as -> by (apply Nat.eqb_neq; lia).
  destruct (length (List.filter is_folder l) =? length l)%nat eqn:Hfo.
  - split; [reflexivity|]. apply Nat.eqb_eq, filter_length_all in Hfo.
    eapply Forall_impl; [exact Hfo|]. intros x Hx.
    now apply bool_decide_eq_true in Hx.
  - destruct (length (List.filter is_file l) =? length l)%nat eqn:Hfi.
    + split; [reflexivity|]. apply Nat.eqb_eq, filter_length_all in Hfi.
      eapply Forall_impl; [exact Hfi|]. intros x Hx.
      now apply bool_decide_eq_true in Hx.
    + apply Nat.eqb_neq in Hfo, Hfi. repeat split; lia.
Qed.

Lemma details_type_icon_witness :
  getFileIcon listing = fileUtils.IconBooks
  /\ (0 < 1)%nat /\ (0 < 2)%nat /\ (1 + 2 = length listing)%nat.
Proof.
  apply (details_type_icon listing). simpl. lia.
Defined.

End DetailsFacts.

(** ** Stepping through the previewed images *)

Section PreviewFacts.
Import DashboardModals.

Lemma findIndex_from_range (k : Z) (l : list FileItem) (p : option FileItem) :
  findIndex_from k l p = -1 \/
  (k <= findIndex_from k l p < k + Z.of_nat (length l)).
Proof.
  revert k. induction l as [|f l IH]; intros k; [now left|].
  cbn [findIndex_from length]. destruct p as [p|].
  - destruct (id f =? id p); [right; lia|].
    destruct (IH (k + 1)) as [->|H]; [now left|right; lia].
  - destruct (IH (k + 1)) as [->|H]; [now left|right; lia].
Qed.

Lemma findIndex_from_found (k : Z) (l : list FileItem) (p : option FileItem) :
  0 <= k -> findIndex_from k l p <> -1 ->
  exists f q, nth_error l (Z.to_nat (findIndex_from k l p - k)) = Some f
              /\ p = Some q /\ id f = id q.
Proof.
  revert k. induction l as [|f l IH]; intros k Hk Hne; [done|].
  cbn [findIndex_from] in *. destruct p as [q|].
  - destruct (id f =? id q) eqn:Hid.
    + exists f, q. rewrite Z.sub_diag. apply Z.eqb_eq in Hid. done.
    + destruct (IH (k + 1) ltac:(lia) Hne) as (g & q' & Hg & Hq & Hgq).
      exists g, q'. split; [|done].
      pose proof (findIndex_from_range (k + 1) l (Some q)) as [?|?]; [done|].
      replace (Z.to_nat (findIndex_from (k + 1) l (Some q) - k))
        with (S (Z.to_nat (findIndex_from (k + 1) l (Some q) - (k + 1)))) by lia.
      exact Hg.
  - destruct (IH (k + 1) ltac:(lia) Hne) as (g & q' & _ & Hq & _). discriminate.
Qed.

Lemma findIndex_from_at (k : Z) (l : list FileItem) (i : nat) (f : FileItem) :
  NoDup (List.map id l) -> nth_error l i = Some f ->
  findIndex_from k l (Some f) = k + Z.of_nat i.
Proof.
  revert k i. induction l as [|g l IH]; intros k i Hnd Hi.
  - destruct i; discriminate.
  - cbn [findIndex_from]. destruct i as [|i]; simpl in Hi.
    + injection Hi as ->. rewrite Z.eqb_refl. lia.
    + simpl in Hnd. apply NoDup_cons in Hnd as [Hg Hnd].
      destruct (id g =? id f) eqn:Hid.
      * exfalso. apply Hg. apply Z.eqb_eq in Hid. rewrite Hid.
        apply list_elem_of_fmap. exists f. split; [done|].
        apply list_elem_of_In. eapply nth_error_In; eauto.
      * rewrite (IH (k + 1) i Hnd Hi). lia.
Qed.

Lemma image_at_in (l : list FileItem) (i : Z) :
  0 <= i < Z.of_nat (length l) -> exists f, image_at l i = Some f /\ f ∈ l.
Proof.
  intros Hi. unfold image_at. destruct (i <? 0) eqn:Hneg; [lia|].
  destruct (nth_error l (Z.to_nat i)) as [f|] eqn:Hf.
  - exists f. split; [done|]. apply list_elem_of_In. eapply nth_error_In; eauto.
  - apply nth_error_None in Hf. lia.
Qed.

(** The arrows of the image preview never leave the list of images:
    whenever a step is taken, the file shown next is an entry of the
    list, never [undefined]; where the arrow is not offered the handler
    changes nothing.  When the previewed file is not in the list, the
    step back is not offered and the step forward shows the first
    image. *)
Theorem preview_step_in_range (previewImages : list FileItem)
    (previewFile : option FileItem) :
  (if hasNext previewImages previewFile
   then exists f, onNext previewImages previewFile = Show (Some f) /\ f ∈ previewImages
   else onNext previewImages previewFile = Unchanged)
  /\ (if hasPrev previewImages previewFile
      then exists f, onPrev previewImages previewFile = Show (Some f) /\ f ∈ previewImages
      else onPrev previewImages previewFile = Unchanged)
  /\ (findIndex previewImages previewFile = -1 ->
      hasPrev previewImages previewFile = false
      /\ onNext previewImages previewFile
         = match previewImages with
           | [] => Unchanged
           | first :: _ => Show (Some first)
           end).
Proof.
  unfold hasNext, hasPrev, onNext, onPrev, findIndex.
  pose proof (findIndex_from_range 0 previewImages previewFile) as Hr.
  set (i := findIndex_from 0 previewImages previewFile) in *.
  split; [|split].
  - destruct (i <? Z.of_nat (length previewImages) - 1) eqn:Hlt; [|done].
    apply Z.ltb_lt in Hlt.
    destruct (image_at_in previewImages (i + 1) ltac:(lia)) as (f & -> & Hf). eauto.
  - destruct (0 <? i) eqn:Hlt; [|done].
    apply Z.ltb_lt in Hlt.
    destruct (image_at_in previewImages (i - 1) ltac:(lia)) as (f & -> & Hf). eauto.
  - intros ->. split; [reflexivity|].
    destruct previewImages as [|first rest]; [reflexivity|].
    assert ((-1 <? Z.of_nat (length (first :: rest)) - 1) = true) as ->
      by (apply Z.ltb_lt; simpl length; lia).
    reflexivity.
Qed.

(** Forward and back again returns to the same image, when the images
    have distinct ids and the previewed one is among them. *)
Theorem preview_next_prev (previewImages : list FileItem) (i : nat) (f : FileItem) :
  NoDup (List.map id previewImages) ->
  nth_error previewImages i = Some f ->
  hasNext previewImages (Some f) = true ->
  exists g, onNext previewImages (Some f) = Show (Some g)
            /\ hasPrev previewImages (Some g) = true
            /\ onPrev previewImages (Some g) = Show (Some f).
Proof.
  intros Hnd Hi Hnext.
  unfold hasNext, hasPrev, onNext, onPrev, findIndex in *.
  rewrite (findIndex_from_at 0 previewImages i f Hnd Hi) in *.
  rewrite Hnext. apply Z.ltb_lt in Hnext.
  unfold image_at at 1.
  assert ((0 + Z.of_nat i + 1 <? 0) = false) as -> by (apply Z.ltb_ge; lia).
  replace (Z.to_nat (0 + Z.of_nat i + 1)) with (S i) by lia.
  destruct (nth_error previewImages (S i)) as [g|] eqn:Hg;
    [|apply nth_error_None in Hg; lia].
  exists g. split; [done|].
  rewrite (findIndex_from_at 0 previewImages (S i) g Hnd Hg).
  assert ((0 <? 0 + Z.of_nat (S i)) = true) as -> by (apply Z.ltb_lt; lia).
  split; [done|]. unfold image_at.
  assert ((0 + Z.of_nat (S i) - 1 <? 0) = false) as -> by (apply Z.ltb_ge; lia).
  replace (Z.to_nat (0 + Z.of_nat (S i) - 1)) with i by lia.
  now rewrite Hi.
Qed.

Lemma preview_next_prev_witness :
  exists g, onNext listing (nth_error listing 0) = Show (Some g)
            /\ hasPrev listing (Some g) = true
            /\ onPrev listing (Some g) = Show (nth_error listing 0).
Proof.
  apply (preview_next_prev listing 0).
  - apply (bool_decide_eq_true_1 (NoDup (List.map id listing))). reflexivity.
  - reflexivity.
  - reflexivity.
Defined.

End PreviewFacts.

(** ** The controls of the destination selector *)

Section SelectorControlFacts.
Import FileSelectorModal FileSelectorControls.

Lemma into_itself_extend (q p r : jsstring) :
  into_itself q p = true -> into_itself q (p ++ slash :: r) = true.
Proof.
  unfold into_itself. intros H. apply orb_true_iff in H as [H|H].
  - apply jsstring_eqb_true in H as ->. apply orb_true_iff. right.
    apply startsWith_prefix. exists r. now rewrite <- app_assoc.
  - apply startsWith_prefix in H as [r' ->]. apply orb_true_iff. right.
    apply startsWith_prefix. exists (r' ++ slash :: r). now rewrite <- !app_assoc.
Qed.

Lemma lastIndexOf_split (c : N) (s : jsstring) (k : nat) :
  lastIndexOf c s = Some k -> exists r, s = firstn k s ++ c :: r.
Proof.
  revert k. induction s as [|d s IH]; intros k; [discriminate|].
  cbn [lastIndexOf]. destruct (lastIndexOf c s) as [i|].
  - intros [= <-]. destruct (IH i eq_refl) as [r Hr].
    exists r. cbn [firstn]. rewrite <- app_comm_cons. now f_equal.
  - destruct (d =? c)%N eqn:Hd; [|discriminate].
    intros [= <-]. apply N.eqb_eq in Hd as ->. now exists s.
Qed.

Lemma root_outside (q : jsstring) :
  q <> [] -> q <> js "/" -> into_itself q (js "/") = false.
Proof.
  intros Hq Hroot. unfold into_itself. apply orb_false_iff. split.
  - apply jsstring_eqb_false. congruence.
  - destruct q as [|c q]; [done|].
    destruct (startsWith (js "/") ((c :: q) ++ js "/")) eqn:Hs; [|done].
    apply startsWith_prefix in Hs as [r Hr].
    apply (f_equal length) in Hr. rewrite !length_app in Hr. simpl in Hr. lia.
Qed.

(** The parent computed by the Up button is outside the moved folder
    when the current path is. *)
Lemma handleBack_outside (q : jsstring) (st : State) (parentPath : jsstring) :
  q <> [] -> q <> js "/" ->
  into_itself q (currentPath st) = false ->
  handleBack st = Some parentPath ->
  into_itself q parentPath = false.
Proof.
  intros Hq Hroot Hcur. unfold handleBack.
  destruct (jsstring_eqb (currentPath st) (js "/")); [discriminate|].
  intros [= <-]. unfold or_else.
  destruct (truthy (substring0 _ _)) eqn:Ht; [|now apply root_outside].
  destruct (lastIndexOf slash (currentPath st)) as [k|] eqn:Hk; [|discriminate].
  cbn [substring0] in *.
  destruct (lastIndexOf_split _ _ _ Hk) as [r Hr].
  destruct (into_itself q (firstn k (currentPath st))) eqn:Hin; [|done].
  apply (into_itself_extend q _ r) in Hin. rewrite <- Hr in Hin. congruence.
Qed.

Lemma loadFolders_run (p : jsstring) (srv : Server) (w : World) :
  exists evs, loadFolders p srv w
              = ({| log := log w ++ ApiCall (list_request p) :: evs;
                    next_uuid := next_uuid w; later := later w |}, inr tt)
              /\ requests evs = [].
Proof.
  unfold loadFolders, try_catch, bind, fileService.listFiles, request, ret, emit.
  fold (list_request p). destruct (srv (list_request p)); simpl.
  - exists []. done.
  - exists [ConsoleError]. rewrite <- app_assoc. done.
Qed.

Lemma handleNavigate_outside (q p : jsstring) (st : State) (srv : Server) (w : World) :
  into_itself q p = false -> lists_outside q (log w) ->
  exists w', handleNavigate p st srv w
             = (w', inr {| currentPath := p; selectedPath := None |})
             /\ lists_outside q (log w').
Proof.
  intros Hp Hw. unfold handleNavigate, bind.
  destruct (loadFolders_run p srv w) as (evs & -> & Hevs).
  eexists. split; [reflexivity|]. unfold lists_outside in *. cbn [log].
  rewrite requests_app. change (ApiCall ?r :: evs) with ([ApiCall r] ++ evs).
  rewrite requests_app, Hevs, app_nil_r. apply Forall_app. split; [done|].
  constructor; [|constructor]. eauto.
Qed.

Lemma step_outside (q : jsstring) (a : Action) (st : State) (srv : Server) (w : World) :
  q <> [] -> q <> js "/" ->
  stays_outside q st -> lists_outside q (log w) ->
  exists w' st', step (Some q) a st srv w = (w', inr st')
                 /\ stays_outside q st' /\ lists_outside q (log w').
Proof.
  intros Hq Hroot [Hcur Htar] Hw. destruct a as [folder|folder|]; cbn [step].
  - rewrite (isExcluded_into_itself q folder Hq).
    destruct (into_itself q (path folder)) eqn:Hf.
    + exists w, st. done.
    + exists w, (handleFolderClick folder st). split; [done|]. split; [|done].
      split; [exact Hcur|]. unfold target, handleFolderClick. cbn.
      unfold or_else. destruct (truthy (path folder)); done.
  - rewrite (isExcluded_into_itself q folder Hq).
    destruct (into_itself q (path folder)) eqn:Hf.
    + exists w, st. done.
    + destruct (handleNavigate_outside q (path folder) st srv w Hf Hw) as (w' & Hrun & Hw').
      exists w', {| currentPath := path folder; selectedPath := None |}.
      split; [exact Hrun|]. split; [|done]. split; done.
  - unfold handleBack_click. destruct (handleBack st) as [parentPath|] eqn:Hb.
    + pose proof (handleBack_outside q st parentPath Hq Hroot Hcur Hb) as Hp.
      destruct (handleNavigate_outside q parentPath st srv w Hp Hw) as (w' & Hrun & Hw').
      exists w', {| currentPath := parentPath; selectedPath := None |}.
      split; [exact Hrun|]. split; [|done]. split; done.
    + exists w, st. done.
Qed.

Lemma run_outside (q : jsstring) (actions : list Action) (st : State)
    (srv : Server) (w : World) :
  q <> [] -> q <> js "/" ->
  stays_outside q st -> lists_outside q (log w) ->
  exists w' st', run (Some q) actions st srv w = (w', inr st')
                 /\ stays_outside q st' /\ lists_outside q (log w').
Proof.
  intros Hq Hroot. revert st w.
  induction actions as [|a actions IH]; intros st w Hst Hw.
  - exists w, st. done.
  - cbn [run]. unfold bind.
    destruct (step_outside q a st srv w Hq Hroot Hst Hw) as (w1 & st1 & -> & Hst1 & Hw1).
    apply IH; done.
Qed.

Lemma session_outside (q : jsstring) (actions : list Action) (srv : Server) :
  q <> [] -> q <> js "/" ->
  exists w' st', session (Some q) actions srv start_world = (w', inr st')
                 /\ stays_outside q st' /\ lists_outside q (log w').
Proof.
  intros Hq Hroot. unfold session, bind.
  destruct (loadFolders_run (js "/") srv start_world) as (evs & -> & Hevs).
  apply run_outside; try done.
  - split; now apply root_outside.
  - unfold lists_outside. cbn [log start_world app].
    change (ApiCall ?r :: evs) with ([ApiCall r] ++ evs).
    rewrite requests_app, Hevs. constructor; [|constructor].
    exists (js "/"). split; [now apply root_outside|done].
Qed.

(** While a folder is being moved, the controls of the selector (a
    click or a double click on a row that is not disabled, the Up
    button) never lead inside that folder, whatever the server lists:
    neither the folder shown nor the destination that Move Here would
    take is the moved folder or a path under it, and no listing of such
    a path is requested.  So in every state the selector can reach, a
    refusal of Move Here concerns a destination outside the moved
    folder. *)
Theorem selector_stays_outside (q : jsstring) (actions : list Action) (srv : Server) :
  q <> [] -> q <> js "/" ->
  exists st, result (session (Some q) actions) srv = inr st
             /\ into_itself q (currentPath st) = false
             /\ into_itself q (target st) = false
             /\ (handleConfirm (Some q) st = None
                 <-> startsWith (target st) q = true)
             /\ lists_outside q (effects (session (Some q) actions) srv).
Proof.
  intros Hq Hroot.
  destruct (session_outside q actions srv Hq Hroot) as (w' & st & Hrun & [Hcur Htar] & Hw).
  exists st. unfold result, effects. rewrite Hrun. cbn [fst snd].
  split; [done|]. split; [done|]. split; [done|]. split; [|done].
  rewrite handleConfirm_spec. apply truthy_true_iff in Hq. rewrite Hq. cbn [andb].
  destruct (startsWith (target st) q); split; congruence.
Qed.

Lemma selector_stays_outside_witness :
  exists st, result (session (Some (js "/docs")) [DoubleClick docs2; Up; Click docs2])
               accepting = inr st
             /\ into_itself (js "/docs") (currentPath st) = false
             /\ into_itself (js "/docs") (target st) = false
             /\ (handleConfirm (Some (js "/docs")) st = None
                 <-> startsWith (target st) (js "/docs") = true)
             /\ lists_outside (js "/docs")
                  (effects (session (Some (js "/docs")) [DoubleClick docs2; Up; Click docs2])
                     accepting).
Proof.
  apply (selector_stays_outside (js "/docs")); discriminate.
Defined.

End SelectorControlFacts.

(** ** The modals of the dashboard *)

Section ModalFacts.
Import useFileMutations useFileOperations DashboardHandlers.

Ltac run_modal :=
  cbv beta iota zeta delta
    [createFolder renameFile moveFile try_catch mutateAsync bind attempt ret throw emit
     toast_success toast_error mutationFn onSuccess onError
     useCreateFolderMutation useRenameFileMutation useMoveFileMutation
     fileService.createFolder fileService.renameFile fileService.moveFile request
     resolved].

Lemma moveFile_run (i : Z) (d : jsstring) (srv : Server) (w : World) :
  exists evs, moveFile i d srv w
              = ({| log := log w ++ ApiCall (move_request i d) :: evs;
                    next_uuid := next_uuid w; later := later w |}, inr (resolved srv (move_request i d)))
              /\ requests evs = [].
Proof.
  run_modal. fold (move_request i d). destruct (srv (move_request i d)); cbn [log next_uuid].
  - eexists. rewrite <- !app_assoc. split; [reflexivity|reflexivity].
  - eexists. rewrite <- !app_assoc. split; [reflexivity|reflexivity].
Qed.

Lemma renameFile_run (i : Z) (n : jsstring) (srv : Server) (w : World) :
  exists evs, renameFile i n srv w
              = ({| log := log w ++ ApiCall (rename_request i n) :: evs;
                    next_uuid := next_uuid w; later := later w |}, inr (resolved srv (rename_request i n)))
              /\ requests evs = [].
Proof.
  run_modal. fold (rename_request i n). destruct (srv (rename_request i n));
    cbn [log next_uuid].
  - eexists. rewrite <- !app_assoc. split; [reflexivity|reflexivity].
  - eexists. rewrite <- !app_assoc. split; [reflexivity|reflexivity].
Qed.

Lemma createFolder_run (p n : jsstring) (srv : Server) (w : World) :
  exists evs, createFolder p n srv w
              = ({| log := log w ++ ApiCall (folder_request p n) :: evs;
                    next_uuid := next_uuid w; later := later w |}, inr (resolved srv (folder_request p n)))
              /\ requests evs = [].
Proof.
  run_modal. fold (folder_request p n). destruct (srv (folder_request p n));
    cbn [log next_uuid].
  - eexists. rewrite <- !app_assoc. split; [reflexivity|reflexivity].
  - eexists. rewrite <- !app_assoc. split; [reflexivity|reflexivity].
Qed.

Lemma requests_cons_call (r : Request) (evs : list Event) :
  requests evs = [] -> requests (ApiCall r :: evs) = [r].
Proof. intros H. change (ApiCall r :: evs) with ([ApiCall r] ++ evs).
  rewrite requests_app, H. reflexivity. Qed.

(** The rename and the create-folder dialogs send the name as it was
    typed, whatever it is (the empty name and an unchanged name
    included): one request each.  The dialog closes and forgets the name
    exactly when the server accepted the request; otherwise it stays as
    it was, with the typed name. *)
Theorem dialogs_send_name_as_typed (file : FileItem) (typed currentPath : jsstring)
    (srv : Server) :
  let renaming := setNewName typed (openRenameModal file) in
  let creating := {| showCreateFolder := true; newFolderName := typed |} in
  requests (effects (handleRename renaming) srv) = [rename_request (id file) typed]
  /\ result (handleRename renaming) srv
     = inr (if resolved srv (rename_request (id file) typed)
            then closeRenameModal else renaming)
  /\ requests (effects (handleCreateFolder currentPath creating) srv)
     = [folder_request currentPath typed]
  /\ result (handleCreateFolder currentPath creating) srv
     = inr (if resolved srv (folder_request currentPath typed)
            then {| showCreateFolder := false; newFolderName := js "" |} else creating).
Proof.
  intros renaming creating.
  unfold effects, result, handleRename, handleCreateFolder, bind.
  cbn [renaming creating setNewName openRenameModal renameFileState newName newFolderName].
  destruct (renameFile_run (id file) typed srv start_world) as (evs & -> & Hevs).
  destruct (createFolder_run currentPath typed srv start_world) as (evs' & -> & Hevs').
  cbn [fst snd log start_world app].
  destruct (resolved srv (rename_request (id file) typed));
    destruct (resolved srv (folder_request currentPath typed));
    cbn [fst snd log ret]; rewrite !requests_cons_call by done; done.
Qed.

(** Moving a folder through the modal: every request that is sent is
    a listing of a folder outside the moved folder or the move of that
    folder to a destination outside it; a move into the folder itself or
    below it is never requested.  The modal closes exactly when a move
    was requested and the server accepted it. *)
Theorem move_through_modal_outside (file : FileItem)
    (actions : list FileSelectorControls.Action) (srv : Server) :
  file_type file = FtFolder -> path file <> [] -> path file <> js "/" ->
  let evs := effects (move_through_modal file actions) srv in
  Forall (outside_request (path file) (id file)) (requests evs)
  /\ exists st, result (move_through_modal file actions) srv = inr st
                /\ (showMoveModal st = false
                    <-> exists d, move_request (id file) d ∈ requests evs
                                  /\ resolved srv (move_request (id file) d) = true).
Proof.
  intros Hty Hq Hroot evs. subst evs.
  unfold effects, result, move_through_modal, bind.
  cbn [openMoveModal itemToMove DashboardModals.move_excludePath].
  rewrite Hty, (bool_decide_eq_true_2 (FtFolder = FtFolder)) by done.
  destruct (session_outside (path file) actions srv Hq Hroot)
    as (w' & sel & -> & [Hcur Htar] & Hw).
  assert (Forall (outside_request (path file) (id file)) (requests (log w'))) as Hout.
  { eapply Forall_impl; [exact Hw|]. intros r (p & Hp & ->). exists p. eauto. }
  assert (forall d, move_request (id file) d ∉ requests (log w')) as Hnone.
  { intros d Hd. unfold lists_outside in Hw. rewrite Forall_forall in Hw.
    destruct (Hw _ Hd) as (p & _ & Heq). discriminate. }
  rewrite handleConfirm_spec.
  destruct (truthy (path file) && startsWith (target sel) (path file)).
  - cbn [ret fst snd]. split; [done|].
    eexists. split; [reflexivity|]. cbn [showMoveModal]. split; [discriminate|].
    intros (d & Hd & _). exfalso. now apply (Hnone d).
  - unfold handleMove. unfold bind. cbn [itemToMove openMoveModal]. cbv beta.
    destruct (moveFile_run (id file) (target sel) srv w') as (evs & -> & Hevs).
    assert (requests (log w' ++ ApiCall (move_request (id file) (target sel)) :: evs)
            = requests (log w') ++ [move_request (id file) (target sel)]) as Hreq.
    { rewrite requests_app, requests_cons_call by done. reflexivity. }
    destruct (resolved srv (move_request (id file) (target sel))) eqn:Hres;
      cbn [ret fst snd log]; rewrite Hreq.
    + split.
      * apply Forall_app. split; [done|]. constructor; [|constructor].
        exists (target sel). eauto.
      * eexists. split; [reflexivity|]. cbn [closeMoveModal showMoveModal].
        split; [|done]. intros _. exists (target sel). split; [|done].
        apply elem_of_app. right. apply list_elem_of_here.
    + split.
      * apply Forall_app. split; [done|]. constructor; [|constructor].
        exists (target sel). eauto.
      * eexists. split; [reflexivity|]. cbn [showMoveModal]. split; [discriminate|].
        intros (d & Hd & Hd'). apply elem_of_app in Hd as [Hd|Hd].
        -- exfalso. now apply (Hnone d).
        -- apply list_elem_of_singleton in Hd. rewrite Hd in Hd'. congruence.
Qed.

Lemma move_through_modal_outside_witness :
  Forall (outside_request (js "/docs") 9)
    (requests (effects (move_through_modal
                          {| id := 9; name := js "docs"; path := js "/docs";
                             file_type := FtFolder; size_bytes := None; mime_type := None;
                             created_at := js "2024-03-01T09:00:00Z"; updated_at := js "2024-03-01T09:00:00Z";
                             can_read := true; can_write := true; can_delete := true;
                             is_owner := true |}
                          [FileSelectorControls.Click docs2])
                       accepting)).
Proof.
  apply (move_through_modal_outside
           {| id := 9; name := js "docs"; path := js "/docs";
              file_type := FtFolder; size_bytes := None; mime_type := None;
              created_at := js "2024-03-01T09:00:00Z"; updated_at := js "2024-03-01T09:00:00Z";
              can_read := true; can_write := true; can_delete := true;
              is_owner := true |}); [reflexivity|discriminate|discriminate].
Defined.

End ModalFacts.

(** ** Downloads started from the dashboard *)

Section DownloadHandlerFacts.
Import useFileOperations DashboardHandlers.
Context {rt : Runtime}.

Lemma batchDownloadFiles_requests (files : list FileItem) (fileIds : list Z)
    (srv : Server) :
  requests (effects (batchDownloadFiles files fileIds) srv)
  = match fileIds with
    | [] => []
    | first :: _ =>
        [if direct files fileIds then download_request first else batch_request fileIds]
    end.
Proof.
  destruct fileIds as [|first rest]; [reflexivity|].
  apply (sends_batchDownloadFiles files first rest srv start_world).
Qed.

(** Download in the menu of an entry takes the whole selection, as one
    request to the batch endpoint, when the entry is part of a selection
    of more than one; otherwise it takes that entry alone, also while
    other entries are selected.  Download in the toolbar takes the
    selection and sends nothing when nothing is selected. *)
Theorem download_handlers_requests (files : list FileItem) (selectedIds : list Z)
    (file : FileItem) (srv : Server) :
  requests (effects (handleDownload files selectedIds file) srv)
    = (if useSelection.Set_has selectedIds (id file) && (1 <? length selectedIds)%nat
       then [batch_request selectedIds]
       else [if direct files [id file] then download_request (id file)
             else batch_request [id file]])
  /\ requests (effects (toolbar_onDownload files selectedIds) srv)
     = match selectedIds with
       | [] => []
       | [i] => [if direct files [i] then download_request i else batch_request [i]]
       | _ => [batch_request selectedIds]
       end.
Proof.
  unfold handleDownload, toolbar_onDownload. split.
  - destruct (useSelection.Set_has selectedIds (id file) && (1 <? length selectedIds)%nat)
      eqn:Hsel; rewrite batchDownloadFiles_requests; [|reflexivity].
    apply andb_true_iff in Hsel as [_ Hlen]. apply Nat.ltb_lt in Hlen.
    destruct selectedIds as [|a [|b rest]]; [simpl in Hlen; lia..|]. reflexivity.
  - destruct selectedIds as [|a [|b rest]]; [reflexivity| |];
      cbn [length Nat.ltb Nat.leb]; rewrite batchDownloadFiles_requests; reflexivity.
Qed.

End DownloadHandlerFacts.

(** ** Navigating by the breadcrumbs *)

Section CrumbFacts.
Import Breadcrumbs PathSpec.

Lemma split_word (w r : jsstring) :
  slash ∉ w -> split slash (w ++ slash :: r) = w :: split slash r.
Proof.
  induction w as [|c w IH]; intros Hw.
  - apply split_cons_sep.
  - apply not_elem_of_cons in Hw as [Hc Hw].
    change ((c :: w) ++ slash :: r) with (c :: (w ++ slash :: r)).
    rewrite split_cons_other by congruence. now rewrite IH.
Qed.

Lemma split_sep_free_word (w : jsstring) : slash ∉ w -> split slash w = [w].
Proof.
  induction w as [|c w IH]; intros Hw; [done|].
  apply not_elem_of_cons in Hw as [Hc Hw].
  rewrite split_cons_other by congruence. now rewrite IH.
Qed.

(** The segments of a recomposed path are the segments it was made of. *)
Lemma segments_join (segs : list jsstring) :
  Forall (fun p => p <> [] /\ slash ∉ p) segs -> segments (join segs) = segs.
Proof.
  induction 1 as [|p ps [Hne Hfree] Hps IH]; [reflexivity|].
  change (join (p :: ps)) with (slash :: (p ++ join ps)).
  rewrite segments_cons_slash. unfold segments in *.
  destruct ps as [|q qs].
  - change (join []) with (@nil N). rewrite app_nil_r, split_sep_free_word by done.
    cbn [List.filter]. apply truthy_true_iff in Hne. now rewrite Hne.
  - change (join (q :: qs)) with (slash :: (q ++ join qs)) in *.
    rewrite split_word by done. rewrite split_cons_sep in IH. cbn [List.filter] in *.
    apply truthy_true_iff in Hne. rewrite Hne. f_equal. exact IH.
Qed.

Lemma push_parts_take (acc : jsstring) (parts : list jsstring) (k : nat) :
  push_parts acc (take k parts) = take k (push_parts acc parts).
Proof.
  revert acc k. induction parts as [|p ps IH]; intros acc k.
  - now destruct k.
  - destruct k as [|k]; [reflexivity|]. cbn [take firstn push_parts]. now rewrite IH.
Qed.

Lemma push_parts_longer (acc : jsstring) (parts : list jsstring) (c : Crumb) :
  c ∈ push_parts acc parts -> (length acc < length (crumb_path c))%nat.
Proof.
  revert acc. induction parts as [|p ps IH]; intros acc Hc.
  - now apply elem_of_nil in Hc.
  - cbn [push_parts] in Hc. apply elem_of_cons in Hc as [->|Hc].
    + cbn [crumb_path]. rewrite length_app. simpl. lia.
    + apply IH in Hc. rewrite length_app in Hc. simpl in Hc. lia.
Qed.

Lemma push_parts_NoDup (acc : jsstring) (parts : list jsstring) :
  NoDup (List.map crumb_path (push_parts acc parts)).
Proof.
  revert acc. induction parts as [|p ps IH]; intros acc; [constructor|].
  cbn [push_parts List.map crumb_path]. apply NoDup_cons. split; [|apply IH].
  intros Hin. apply list_elem_of_fmap in Hin as (c & Heq & Hc).
  apply push_parts_longer in Hc. rewrite <- Heq in Hc. lia.
Qed.

(** A click on a crumb navigates to a path whose breadcrumbs are the
    crumbs up to the one that was clicked, so the crumbs left of it stay
    as they were.  No two crumbs of a path carry the same path. *)
Theorem crumb_click_prefix (currentPath : jsstring) :
  let crumbs := getBreadcrumbs currentPath in
  (forall k c, crumbs !! k = Some c ->
     getBreadcrumbs (crumb_path c) = take (S k) crumbs)
  /\ NoDup (List.map crumb_path crumbs).
Proof.
  intros crumbs. subst crumbs. rewrite getBreadcrumbs_unfold.
  pose proof (segments_parts currentPath) as Hparts.
  set (parts := segments currentPath) in *. split.
  - intros [|k] c Hc.
    + injection Hc as <-. reflexivity.
    + cbn [lookup list_lookup] in Hc.
      pose proof (push_parts_lookup _ _ _ _ Hc) as Hpath.
      rewrite Hpath. cbn [app]. rewrite getBreadcrumbs_unfold.
      rewrite segments_join by now apply Forall_take.
      rewrite push_parts_take. reflexivity.
  - cbn [List.map]. apply NoDup_cons. split; [|apply push_parts_NoDup].
    intros Hin. apply list_elem_of_fmap in Hin as (c & Heq & Hc).
    destruct parts as [|p ps]; [now apply elem_of_nil in Hc|].
    inversion Hparts as [|? ? [Hne _] _]; subst.
    cbn [push_parts] in Hc. apply elem_of_cons in Hc as [->|Hc].
    + cbn in Heq. destruct p; [done|]. discriminate.
    + apply push_parts_longer in Hc. rewrite <- Heq in Hc. cbn in Hc. lia.
Qed.

End CrumbFacts.

(** ** The crumbs of the older toolbar *)

Section ToolbarFacts.
Import Breadcrumbs PathSpec Toolbar.

Lemma join_Array_join (p : jsstring) (parts : list jsstring) :
  join (p :: parts) = slash :: Array_join slash (p :: parts).
Proof.
  revert p. induction parts as [|p' parts IH]; intros p.
  - unfold join. simpl. now rewrite app_nil_r.
  - change (join (p :: p' :: parts)) with ((slash :: p) ++ join (p' :: parts)).
    rewrite IH. reflexivity.
Qed.

Lemma pathParts_head (currentPath : jsstring) (p : jsstring) (rest : list jsstring) :
  pathParts currentPath = p :: rest -> exists c r, p = c :: r /\ c <> slash.
Proof.
  intros H.
  assert (p ∈ pathParts currentPath) as Hp by (rewrite H; apply list_elem_of_here).
  unfold pathParts in Hp. apply elem_of_List_filter in Hp as [Hin Ht].
  pose proof (split_sep_free slash currentPath) as Hfree.
  rewrite Forall_forall in Hfree. specialize (Hfree p Hin).
  destruct p as [|c r]; [discriminate|]. exists c, r. split; [done|].
  intros ->. apply Hfree. apply list_elem_of_here.
Qed.

(** A crumb of the older toolbar navigates to the path of the same
    crumb of the breadcrumbs without its leading separator: the path it
    hands on does not start with a slash. *)
Theorem toolbar_crumb_relative (currentPath : jsstring) (index : nat) :
  (index < length (pathParts currentPath))%nat ->
  let newPath := handleBreadcrumbClick index (pathParts currentPath) in
  startsWith newPath (js "/") = false
  /\ exists c, getBreadcrumbs currentPath !! S index = Some c
               /\ crumb_path c = slash :: newPath.
Proof.
  intros Hlen newPath. subst newPath.
  rewrite getBreadcrumbs_unfold. cbn [lookup list_lookup].
  change (segments currentPath) with (pathParts currentPath).
  destruct (pathParts currentPath) as [|p rest] eqn:Hparts; [simpl in Hlen; lia|].
  destruct (pathParts_head currentPath p rest Hparts) as (c & r & -> & Hc).
  unfold handleBreadcrumbClick. rewrite Nat.add_1_r.
  assert (exists rest', firstn (S index) ((c :: r) :: rest) = (c :: r) :: rest')
    as [rest' Hfirst] by (eexists; reflexivity).
  rewrite Hfirst.
  assert (Array_join slash ((c :: r) :: rest') = c :: List.tl (Array_join slash ((c :: r) :: rest')))
    as Hj by (destruct rest'; reflexivity).
  split.
  - rewrite Hj. unfold or_else. cbn [truthy startsWith js List.map list_ascii_of_string].
    apply andb_false_iff. left. apply N.eqb_neq. intros E. apply Hc. symmetry. exact E.
  - destruct (push_parts [] ((c :: r) :: rest) !! index) as [cr|] eqn:Hk.
    + exists cr. split; [reflexivity|]. apply push_parts_lookup in Hk. rewrite Hk.
      rewrite Hfirst, join_Array_join. cbn [app].
      rewrite Hj. reflexivity.
    + apply lookup_ge_None in Hk. rewrite push_parts_length in Hk. lia.
Qed.

Lemma toolbar_crumb_relative_witness :
  startsWith (handleBreadcrumbClick 1 (pathParts (js "/docs/2024/q1"))) (js "/") = false
  /\ exists c, getBreadcrumbs (js "/docs/2024/q1") !! 2%nat = Some c
               /\ crumb_path c
                  = slash :: handleBreadcrumbClick 1 (pathParts (js "/docs/2024/q1")).
Proof.
  apply (toolbar_crumb_relative (js "/docs/2024/q1") 1). simpl. lia.
Defined.

End ToolbarFacts.

(** ** Toasts *)

Section ToastFacts.
Import ToastContext.

Lemma isDuplicate_key (message : jsstring) (type : ToastType) (l : list ToastProps) :
  existsb (fun t => jsstring_eqb (toast_message t) message
                    && bool_decide (toast_type t = type)) l = true
  <-> (message, type) ∈ List.map toast_key l.
Proof.
  rewrite existsb_exists, list_elem_of_fmap. split.
  - intros (t & Hin & Ht). apply andb_true_iff in Ht as [Hm Hty].
    apply jsstring_eqb_true in Hm. apply bool_decide_eq_true in Hty.
    exists t. split; [|now apply list_elem_of_In].
    unfold toast_key. now rewrite Hm, Hty.
  - intros (t & [= -> ->] & Hin). exists t. split; [now apply list_elem_of_In|].
    apply andb_true_iff. split; [now apply jsstring_eqb_true|now apply bool_decide_eq_true].
Qed.

Lemma filter_map_NoDup {A B} `{EqDecision B} (f : A -> B) (p : A -> bool) (l : list A) :
  NoDup (List.map f l) -> NoDup (List.map f (List.filter p l)).
Proof.
  induction l as [|x l IH]; simpl; [done|]. intros Hnd.
  apply NoDup_cons in Hnd as [Hx Hnd]. destruct (p x); simpl; [|now apply IH].
  apply NoDup_cons. split; [|now apply IH].
  intros Hin. apply Hx. apply list_elem_of_fmap in Hin as (y & -> & Hy).
  apply list_elem_of_fmap. exists y. split; [done|].
  now apply elem_of_List_filter in Hy as [Hy _].
Qed.

Lemma step_distinct (st : State) (a : Action) :
  toasts_distinct st -> toasts_distinct (step st a).
Proof.
  intros (Hkey & Hid & Hlt). destruct a as [message type duration|id]; cbn [step].
  - unfold showToast.
    destruct (existsb _ (toasts st)) eqn:Hdup; [done|].
    assert ((message, type) ∉ List.map toast_key (toasts st)) as Hfresh.
    { intros Hin. apply isDuplicate_key in Hin. congruence. }
    unfold toasts_distinct. cbn [toasts next_id].
    rewrite !map_app. cbn [List.map]. repeat split.
    + apply NoDup_app. split; [done|]. split; [|apply NoDup_singleton].
      intros k Hk Hk'. apply list_elem_of_singleton in Hk'. subst k. done.
    + apply NoDup_app. split; [done|]. split; [|apply NoDup_singleton].
      intros k Hk Hk'. apply list_elem_of_singleton in Hk'. subst k.
      apply list_elem_of_fmap in Hk as (t & Heq & Ht).
      rewrite Forall_forall in Hlt. specialize (Hlt t Ht). cbn in Heq. lia.
    + apply Forall_app. split.
      * eapply Forall_impl; [exact Hlt|]. intros t Ht. cbn in *. lia.
      * constructor; [cbn; lia|constructor].
  - unfold removeToast, toasts_distinct. cbn [toasts next_id]. repeat split.
    + now apply filter_map_NoDup.
    + now apply filter_map_NoDup.
    + rewrite Forall_forall in *. intros t Ht.
      apply elem_of_List_filter in Ht as [Ht _]. now apply Hlt.
Qed.

Lemma fold_step_distinct (actions : list Action) (st : State) :
  toasts_distinct st -> toasts_distinct (fold_left step actions st).
Proof.
  revert st. induction actions as [|a actions IH]; intros st Hst; [done|].
  simpl. apply IH. now apply step_distinct.
Qed.

(** Whatever is shown and closed, in whatever order, the toasts on the
    screen never hold the same message with the same type twice, and
    their ids are distinct.  Showing a toast that is on the screen
    changes nothing; a toast that is not is added last. *)
Theorem toasts_never_duplicate (actions : list Action) (message : jsstring)
    (type : ToastType) (duration : option Z) :
  let st := run actions in
  NoDup (List.map toast_key (toasts st))
  /\ NoDup (List.map toast_id (toasts st))
  /\ ((message, type) ∈ List.map toast_key (toasts st) ->
      showToast message type duration st = st)
  /\ ((message, type) ∉ List.map toast_key (toasts st) ->
      exists t, toasts (showToast message type duration st) = toasts st ++ [t]
                /\ toast_key t = (message, type)).
Proof.
  intros st.
  assert (toasts_distinct st) as (Hkey & Hid & _).
  { apply fold_step_distinct. repeat split; cbn; constructor. }
  split; [done|]. split; [done|]. split.
  - intros Hin. apply isDuplicate_key in Hin. unfold showToast. now rewrite Hin.
  - intros Hout. unfold showToast.
    destruct (existsb _ (toasts st)) eqn:Hdup.
    + exfalso. apply Hout. now apply isDuplicate_key.
    + eexists. split; reflexivity.
Qed.

End ToastFacts.

(** ** The progress tasks *)

Section ProgressFacts.
Import ProgressContext.

Lemma updateTask_ids (id : nat) (u : TaskUpdate) (prev : list ProgressTask) :
  List.map task_id (updateTask id u prev) = List.map task_id prev.
Proof.
  unfold updateTask. rewrite List.map_map. apply List.map_ext.
  intros t. destruct (task_id t =? id)%nat; reflexivity.
Qed.

Lemma map_unchanged {A} (f : A -> A) (l : list A) :
  (forall x, x ∈ l -> f x = x) -> List.map f l = l.
Proof.
  induction l as [|x l IH]; intros H; simpl; [done|].
  rewrite H by apply list_elem_of_here. f_equal. apply IH.
  intros y Hy. apply H. now apply list_elem_of_further.
Qed.

Lemma filter_unchanged {A} (p : A -> bool) (l : list A) :
  (forall x, x ∈ l -> p x = true) -> List.filter p l = l.
Proof.
  induction l as [|x l IH]; intros H; simpl; [done|].
  rewrite H by apply list_elem_of_here. f_equal. apply IH.
  intros y Hy. apply H. now apply list_elem_of_further.
Qed.

Lemma other_id (id : nat) (prev : list ProgressTask) (t : ProgressTask) :
  id ∉ List.map task_id prev -> t ∈ prev -> (task_id t =? id)%nat = false.
Proof.
  intros Hid Ht. apply Nat.eqb_neq. intros E. apply Hid.
  apply list_elem_of_fmap. exists t. done.
Qed.

(** An update or a cancellation keeps the tasks, their ids and their
    order, and with an id that no task carries neither of them nor a
    removal changes anything.  A task that was added is gone after the
    removal of its id, with every other task of that id; the tasks of
    other ids stay. *)
Theorem progress_tasks_frame (id : nat) (u : TaskUpdate) (fileName : jsstring)
    (type : TaskType) (prev : list ProgressTask) :
  List.map task_id (updateTask id u prev) = List.map task_id prev
  /\ List.map task_id (cancelTask id prev) = List.map task_id prev
  /\ (id ∉ List.map task_id prev ->
      updateTask id u prev = prev /\ cancelTask id prev = prev
      /\ removeTask id prev = prev
      /\ removeTask id (addTask id fileName type prev) = prev)
  /\ (id ∉ List.map task_id (removeTask id (addTask id fileName type prev)))
  /\ (forall t, task_id t <> id ->
        (t ∈ removeTask id (addTask id fileName type prev) <-> t ∈ prev)).
Proof.
  split; [apply updateTask_ids|]. split.
  { unfold cancelTask. rewrite List.map_map. apply List.map_ext.
    intros t. destruct (task_id t =? id)%nat; reflexivity. }
  split.
  { intros Hid.
    assert (removeTask id prev = prev) as Hrem.
    { apply filter_unchanged. intros t Ht. now rewrite (other_id id prev t). }
    split; [|split; [|split]]; try done.
    - apply map_unchanged. intros t Ht. now rewrite (other_id id prev t).
    - apply map_unchanged. intros t Ht. now rewrite (other_id id prev t).
    - unfold removeTask, addTask in *. rewrite List.filter_app, Hrem. cbn.
      rewrite Nat.eqb_refl. cbn. apply app_nil_r. }
  split.
  - intros Hin. apply list_elem_of_fmap in Hin as (t & Heq & Ht).
    apply elem_of_List_filter in Ht as [_ Ht].
    apply negb_true_iff, Nat.eqb_neq in Ht. congruence.
  - intros t Ht. unfold removeTask, addTask.
    rewrite elem_of_List_filter, elem_of_app, list_elem_of_singleton.
    apply Nat.eqb_neq in Ht. rewrite Ht. cbn. split.
    + intros [[?| ->] _]; [done|]. cbn in Ht. now rewrite Nat.eqb_refl in Ht.
    + intros ?. split; [now left|done].
Qed.

End ProgressFacts.

Section DownloadTaskFacts.
Import useFileOperations ProgressContext.
Context {rt : Runtime}.

Ltac decide_types :=
  rewrite ?(bool_decide_eq_true_2 (FtFile = FtFile)) by done;
  rewrite ?(bool_decide_eq_true_2 (FtFolder = FtFolder)) by done;
  rewrite ?(bool_decide_eq_false_2 (FtFile = FtFolder)) by done;
  rewrite ?(bool_decide_eq_false_2 (FtFolder = FtFile)) by done;
  cbn [andb negb orb].

Ltac run_download srv :=
  cbv beta iota zeta delta
    [effects result bind ret emit uuidv4 try_catch request throw
     fileService.downloadFile fileService.batchDownload toast_error
     start_world log next_uuid fst snd];
  match goal with
  | |- context [answer srv ?q] => destruct (answer srv q) as [response|error]
  end;
  [ match goal with
    | |- context [filename_from_header ?a ?b ?c ?d] =>
        let r := fresh "r" in
        let Hr := fresh "Hr" in
        destruct (filename_from_header_run a b c d) as [r Hr]; rewrite Hr;
        destruct r as [error|downloadFilename]
    end | ];
  eexists; (split; [reflexivity|]); cbn;
  repeat split; eauto.

(** A download shows one task, and when the hook returns the task is
    settled: completed at 100 percent under the name the file was saved
    as when the hook reports success, failed with the message of the
    error toast when it reports failure.  It is never left pending or
    active, so it is removed from the stack after its delay. *)
Theorem download_task_settles (files : list FileItem) (fileIds : list Z) (srv : Server) :
  fileIds <> [] ->
  let evs := effects (batchDownloadFiles files fileIds) srv in
  exists t, tasks_after evs = [t]
    /\ task_type t = TaskDownload
    /\ auto_removed t = true
    /\ match result (batchDownloadFiles files fileIds) srv with
       | inr (Some true) =>
           task_status t = Completed /\ task_progress t = 100
           /\ saved_as evs = [task_fileName t] /\ error_toasts evs = []
       | inr (Some false) =>
           task_status t = Error /\ saved_as evs = []
           /\ exists message, task_error t = Some message
                /\ error_toasts evs = [js "Download failed: " ++ message]
       | _ => False
       end.
Proof.
  intros Hne evs. subst evs. destruct fileIds as [|first rest]; [done|].
  unfold batchDownloadFiles. destruct rest as [|second rest].
  - rewrite bool_decide_eq_true_2 by done.
    destruct (List.find (fun f => id f =? first) files) as [f|].
    + destruct (file_type f); decide_types; run_download srv.
    + decide_types. run_download srv.
  - rewrite bool_decide_eq_false_2 by (simpl; lia). decide_types. run_download srv.
Qed.

End DownloadTaskFacts.

(** ** The tasks of an upload *)

Section UploadTaskFacts.
Import useFileOperations ProgressContext.












End UploadTaskFacts.

(** ** Deleting and the selection *)

Section DeleteSelectionFacts.
Import useFileMutations useFileOperations Dashboard.

Lemma deleteFile_run (i : Z) (srv : Server) (w : World) :
  exists evs, deleteFile i srv w
              = ({| log := log w ++ ApiCall (delete_request i) :: evs;
                    next_uuid := next_uuid w; later := later w |}, inr (resolved srv (delete_request i)))
              /\ requests evs = [].
Proof.
  cbv beta iota zeta delta
    [deleteFile try_catch mutateAsync bind attempt ret throw emit
     toast_success toast_error mutationFn onSuccess onError
     useDeleteFileMutation fileService.deleteFile request resolved].
  fold (delete_request i). destruct (srv (delete_request i)); cbn [log next_uuid].
  - eexists. rewrite <- !app_assoc. split; [reflexivity|reflexivity].
  - eexists. rewrite <- !app_assoc. split; [reflexivity|reflexivity].
Qed.

(** Confirming the delete modal, with the selection hook in place:
    one delete request is sent for each id concerned (the item the
    modal was opened for, or else every selected id).  When the server
    accepted all of them the modal closes and the deleted ids leave the
    selection, the others stay selected; when it rejected one, the modal
    stays open and the selection is kept.  With no item and an empty
    selection nothing happens. *)
Theorem confirmDelete_unselects (st : State) (srv : Server) :
  let ids := to_delete st in
  let run := confirmDelete useSelection.handleSelect st in
  requests (effects run srv) = List.map delete_request ids
  /\ exists st', result run srv = inr st'
       /\ if negb (bool_decide (ids = []))
             && forallb (fun i => resolved srv (delete_request i)) ids
          then showDeleteModal st' = false /\ itemToDelete st' = None
               /\ forall i, i ∈ selectedIds st' <-> i ∈ selectedIds st /\ i ∉ ids
          else st' = st.
Proof.
  intros ids run. subst ids run. unfold to_delete, confirmDelete, effects, result.
  destruct (itemToDelete st) as [item|] eqn:Hitem.
  - unfold bind. destruct (deleteFile_run (id item) srv start_world) as (evs & -> & Hevs).
    cbn [forallb andb negb]. rewrite (bool_decide_eq_false_2 ([id item] = [])) by done.
    cbn [negb andb]. rewrite andb_true_r.
    destruct (resolved srv (delete_request (id item))).
    + cbn [closeDeleteModal selectedIds itemToDelete showDeleteModal].
      destruct (has (selectedIds st) (id item)) eqn:Hhas; cbn [ret fst snd log start_world app].
      * split; [now apply requests_cons_call|]. eexists. split; [reflexivity|].
        cbn [selectedIds itemToDelete showDeleteModal]. split; [done|]. split; [done|].
        intros i. rewrite handleSelect_elem, list_elem_of_singleton.
        apply Set_has_elem in Hhas. split.
        -- intros [[? ?]|[_ ?]]; done.
        -- intros [? ?]. left. done.
      * split; [now apply requests_cons_call|]. eexists. split; [reflexivity|].
        cbn [selectedIds itemToDelete showDeleteModal]. split; [done|]. split; [done|].
        intros i. rewrite list_elem_of_singleton.
        apply Set_has_not_elem in Hhas. split.
        -- intros Hi. split; [done|]. intros ->. done.
        -- intros [? _]. done.
    + cbn [ret fst snd log start_world app].
      split; [now apply requests_cons_call|]. eexists. split; reflexivity.
  - destruct (selectedIds st) as [|i sel] eqn:Hsel.
    + cbn. split; [reflexivity|]. eexists. split; reflexivity.
    + cbn [length Nat.ltb Nat.leb]. unfold bind.
      destruct (batchDeleteFiles_run (i :: sel) srv start_world) as (tail & -> & Htail).
      rewrite (bool_decide_eq_false_2 (i :: sel = [])) by done. cbn [negb andb].
      assert (requests (List.map ApiCall (List.map delete_request (i :: sel)) ++ tail)
              = List.map delete_request (i :: sel)) as Hsent.
      { rewrite requests_app, requests_calls.
        destruct (forallb _ _); [subst tail; apply app_nil_r|].
        destruct Htail as (j & e & _ & _ & ->). apply app_nil_r. }
      destruct (forallb _ (i :: sel)); cbn [ret fst snd log start_world app].
      * split; [exact Hsent|]. eexists. split; [reflexivity|].
        cbn [closeDeleteModal selectedIds itemToDelete showDeleteModal].
        split; [done|]. split; [done|]. intros j. rewrite elem_of_nil. tauto.
      * split; [exact Hsent|]. eexists. split; reflexivity.
Qed.

End DeleteSelectionFacts.

(** ** More on the file filter *)

Section FilterMoreFacts.
Import useFileFilter.
Context {rt : Runtime}.

Lemma ceil_div_le (x k : Z) : ceil_div x ms_per_day <= k <-> x <= k * ms_per_day.
Proof.
  unfold ceil_div. change ms_per_day with 86400000.
  pose proof (Z.div_mod (- x) 86400000 ltac:(lia)) as Hdm.
  pose proof (Z.mod_pos_bound (- x) 86400000 ltac:(lia)) as Hb.
  lia.
Qed.

(** The Recent category keeps every folder, and a file exactly when
    its creation time parses and lies at most seven days from now, to
    the millisecond, in the past or in the future. *)
Theorem recent_within_a_week (f : FileItem) :
  category_keeps CatRecent f = true
  <-> file_type f = FtFolder
      \/ exists date, Date_getTime (created_at f) = Some date
                      /\ Z.abs (Date_now - date) <= 7 * ms_per_day.
Proof.
  unfold category_keeps. destruct (file_type f).
  - destruct (Date_getTime (created_at f)) as [date|].
    + rewrite Z.leb_le, ceil_div_le. split.
      * intros H. right. exists date. done.
      * intros [?|(d & [= <-] & H)]; done.
    + split; [done|]. intros [?|(d & ? & _)]; done.
  - split; [now left|done].
Qed.

Lemma List_filter_submseteq {A} (p : A -> bool) (l : list A) : List.filter p l ⊆+ l.
Proof.
  induction l as [|x l IH]; simpl; [done|].
  destruct (p x); [now apply submseteq_skip|now apply submseteq_cons].
Qed.

(** What is shown is drawn from the listing: no entry is shown that is
    not listed, and none more often than it is listed.  With the category
    All and an empty search nothing is dropped either: the entries shown
    are the entries listed, in another order. *)
Theorem processedFiles_from_listing (files : list FileItem) (cat : CategoryOption)
    (searchQuery : jsstring) (sortBy : SortOption) :
  processedFiles files cat searchQuery sortBy ⊆+ files
  /\ processedFiles files CatAll (js "") sortBy ≡ₚ files.
Proof.
  split.
  - unfold processedFiles. rewrite Array_sort_perm.
    transitivity (filter_by_category cat files).
    + unfold filter_by_search. destruct (truthy searchQuery); [|done].
      apply List_filter_submseteq.
    + unfold filter_by_category. destruct cat; try done; apply List_filter_submseteq.
  - unfold processedFiles. rewrite Array_sort_perm. reflexivity.
Qed.

End FilterMoreFacts.

(** ** The patterns of the sign-up page *)

Section RegExpFacts.
Import RegExp.

Lemma matches_Seq_inv (r1 r2 : regex) (s : jsstring) :
  matches (Seq r1 r2) s <->
  exists s1 s2, s = s1 ++ s2 /\ matches r1 s1 /\ matches r2 s2.
Proof.
  split.
  - intros H. inversion H; subst. eauto.
  - intros (s1 & s2 & -> & H1 & H2). now constructor.
Qed.

Lemma matches_Alt_inv (r1 r2 : regex) (s : jsstring) :
  matches (Alt r1 r2) s <-> matches r1 s \/ matches r2 s.
Proof.
  split.
  - intros H. inversion H; subst; eauto.
  - intros [H|H]; [now apply matches_Alt_l|now apply matches_Alt_r].
Qed.

Lemma nullable_matches (r : regex) : nullable r = true <-> matches r [].
Proof.
  induction r as [| |p|r1 IH1 r2 IH2|r1 IH1 r2 IH2|r IH]; cbn [nullable].
  - split; [discriminate|]. intros H. inversion H.
  - split; [constructor|reflexivity].
  - split; [discriminate|]. intros H. inversion H.
  - rewrite andb_true_iff, IH1, IH2, matches_Seq_inv. split.
    + intros [H1 H2]. exists [], []. done.
    + intros (s1 & s2 & Heq & H1 & H2). symmetry in Heq.
      apply app_eq_nil in Heq as [-> ->]. done.
  - rewrite orb_true_iff, IH1, IH2, matches_Alt_inv. reflexivity.
  - split; [constructor|reflexivity].
Qed.

(** A repetition that matches a non-empty string starts with a
    non-empty match of its body. *)
Lemma matches_Star_cons (r : regex) (c : N) (s : jsstring) :
  matches (Star r) (c :: s) ->
  exists s1 s2, s = s1 ++ s2 /\ matches r (c :: s1) /\ matches (Star r) s2.
Proof.
  intros H. remember (Star r) as r' eqn:Hr. remember (c :: s) as t eqn:Ht.
  revert c s Ht.
  induction H as [|p d Hd|ra rb s1 s2 H1 IH1 H2 IH2|ra rb s0 H0 IH0|ra rb s0 H0 IH0
                 |r0|r0 s1 s2 H1 IH1 H2 IH2]; intros c s Ht; try discriminate.
  injection Hr as ->. destruct s1 as [|d s1].
  - cbn in Ht. apply (IH2 eq_refl c s Ht).
  - cbn in Ht. injection Ht as -> <-. exists s1, s2. done.
Qed.

Lemma deriv_matches (c : N) (r : regex) (s : jsstring) :
  matches (deriv c r) s <-> matches r (c :: s).
Proof.
  revert s. induction r as [| |p|r1 IH1 r2 IH2|r1 IH1 r2 IH2|r IH]; intros s;
    cbn [deriv].
  - split; intros H; inversion H.
  - split; intros H; inversion H.
  - destruct (p c) eqn:Hp.
    + split.
      * intros H. inversion H; subst. now constructor.
      * intros H. inversion H; subst. constructor.
    + split; intros H; inversion H; subst. congruence.
  - assert (matches (Seq (deriv c r1) r2) s
            <-> exists s1 s2, s = s1 ++ s2 /\ matches r1 (c :: s1) /\ matches r2 s2)
      as Hleft.
    { rewrite matches_Seq_inv. split; intros (s1 & s2 & -> & H1 & H2);
        exists s1, s2; (split; [done|]); (split; [now apply IH1|done]). }
    rewrite matches_Seq_inv.
    destruct (nullable r1) eqn:Hn.
    + rewrite matches_Alt_inv, Hleft, IH2. split.
      * intros [(s1 & s2 & -> & H1 & H2)|H].
        -- exists (c :: s1), s2. done.
        -- exists [], (c :: s). split; [done|]. split; [now apply nullable_matches|done].
      * intros (s1 & s2 & Heq & H1 & H2). destruct s1 as [|d s1].
        -- right. cbn in Heq. now rewrite Heq.
        -- left. cbn in Heq. injection Heq as -> ->. exists s1, s2. done.
    + rewrite Hleft. split.
      * intros (s1 & s2 & -> & H1 & H2). exists (c :: s1), s2. done.
      * intros (s1 & s2 & Heq & H1 & H2). destruct s1 as [|d s1].
        -- apply nullable_matches in H1. congruence.
        -- cbn in Heq. injection Heq as -> ->. exists s1, s2. done.
  - rewrite !matches_Alt_inv, IH1, IH2. reflexivity.
  - rewrite matches_Seq_inv. split.
    + intros (s1 & s2 & -> & H1 & H2). apply IH in H1.
      change (c :: s1 ++ s2) with ((c :: s1) ++ s2). now constructor.
    + intros H. apply matches_Star_cons in H as (s1 & s2 & -> & H1 & H2).
      exists s1, s2. split; [done|]. split; [now apply IH|done].
Qed.

(** [test] decides the language of the pattern. *)
Lemma test_matches (r : regex) (s : jsstring) : test r s = true <-> matches r s.
Proof.
  revert r. induction s as [|c s IH]; intros r; cbn [test].
  - apply nullable_matches.
  - rewrite IH. apply deriv_matches.
Qed.

Lemma matches_Star_Class (p : N -> bool) (s : jsstring) :
  matches (Star (Class p)) s <-> Forall (fun c => p c = true) s.
Proof.
  split.
  - intros H. remember (Star (Class p)) as r eqn:Hr.
    induction H as [|p0 d Hd|ra rb s1 s2 H1 IH1 H2 IH2|ra rb s0 H0 IH0|ra rb s0 H0 IH0
                   |r0|r0 s1 s2 H1 IH1 H2 IH2]; try discriminate.
    + constructor.
    + injection Hr as ->. inversion H1; subst. constructor; [done|]. now apply IH2.
  - induction 1 as [|c s Hc _ IH]; [constructor|].
    change (c :: s) with ([c] ++ s). constructor; [now constructor|done].
Qed.

Lemma matches_Plus_Class (p : N -> bool) (s : jsstring) :
  matches (Plus (Class p)) s <-> s <> [] /\ Forall (fun c => p c = true) s.
Proof.
  unfold Plus. rewrite matches_Seq_inv. split.
  - intros (s1 & s2 & -> & H1 & H2). inversion H1; subst.
    apply matches_Star_Class in H2. split; [done|]. now constructor.
  - intros [Hne H]. destruct s as [|c s]; [done|]. inversion H; subst.
    exists [c], s. split; [done|]. split; [now constructor|].
    now apply matches_Star_Class.
Qed.

Lemma matches_Chr (c : N) (s : jsstring) : matches (Chr c) s <-> s = [c].
Proof.
  unfold Chr. split.
  - intros H. inversion H as [|p d Hd| | | | |]; subst. apply N.eqb_eq in Hd. now subst.
  - intros ->. constructor. apply N.eqb_refl.
Qed.

End RegExpFacts.

Section SignUpFacts.
Import RegExp SignUp.

Lemma word_char_not_space (c : N) : is_word_char c = true -> is_js_space c = false.
Proof.
  unfold is_word_char, is_js_space. intros H. apply not_true_is_false. intros Hs.
  repeat (rewrite ?orb_true_iff, ?andb_true_iff, ?N.leb_le, ?N.eqb_eq in H).
  repeat (rewrite ?orb_true_iff, ?andb_true_iff, ?N.leb_le, ?N.eqb_eq in Hs).
  lia.
Qed.

Lemma part_not_blank (s : jsstring) : email_part s -> blank s = false.
Proof.
  intros [Hne H]. destruct s as [|c s]; [done|]. inversion H as [|? ? Hc _]; subst.
  cbn [blank forallb]. unfold not_space_nor_at in Hc.
  apply negb_true_iff, orb_false_iff in Hc as [-> _]. reflexivity.
Qed.

(** The e-mail check accepts exactly the strings made of three
    non-empty parts free of white space and of at signs, the first two
    joined by an at sign and the last two by a dot.  So an accepted
    address has one at sign, and a dot after it that is neither the first
    nor the last character of what follows the at sign. *)
Theorem validateEmail_shape (value : jsstring) :
  validateEmail value = js ""
  <-> exists a b c, value = a ++ 64%N :: b ++ 46%N :: c
                    /\ email_part a /\ email_part b /\ email_part c.
Proof.
  assert (test emailRegex value = true
          <-> exists a b c, value = a ++ 64%N :: b ++ 46%N :: c
                            /\ email_part a /\ email_part b /\ email_part c) as Hre.
  { rewrite test_matches. unfold emailRegex. rewrite matches_Seq_inv. split.
    - intros (a & s1 & -> & Ha & H1).
      apply matches_Seq_inv in H1 as (at_ & s2 & -> & Hat & H2).
      apply matches_Seq_inv in H2 as (b & s3 & -> & Hb & H3).
      apply matches_Seq_inv in H3 as (dot & c & -> & Hdot & Hc).
      apply matches_Chr in Hat as ->. apply matches_Chr in Hdot as ->.
      apply matches_Plus_Class in Ha, Hb, Hc. exists a, b, c. done.
    - intros (a & b & c & -> & Ha & Hb & Hc).
      exists a, (64%N :: b ++ 46%N :: c). split; [done|].
      split; [now apply matches_Plus_Class|].
      apply matches_Seq_inv. exists [64%N], (b ++ 46%N :: c). split; [done|].
      split; [now apply matches_Chr|].
      apply matches_Seq_inv. exists b, (46%N :: c). split; [done|].
      split; [now apply matches_Plus_Class|].
      apply matches_Seq_inv. exists [46%N], c. split; [done|].
      split; [now apply matches_Chr|now apply matches_Plus_Class]. }
  rewrite <- Hre. unfold validateEmail. rewrite truthy_trim, negb_involutive.
  destruct (blank value) eqn:Hblank.
  - split; [discriminate|]. intros Ht. exfalso.
    apply Hre in Ht as (a & b & c & -> & Ha & _).
    destruct a as [|x a]; [now destruct Ha|].
    pose proof (part_not_blank _ Ha) as Hb. cbn [blank forallb app] in *.
    apply andb_true_iff in Hblank as [Hx _].
    apply andb_false_iff in Hb as [Hb|Hb]; [congruence|].
    destruct Ha as [_ Ha]. inversion Ha as [|? ? Hx' _]; subst.
    unfold not_space_nor_at in Hx'.
    apply negb_true_iff, orb_false_iff in Hx' as [Hx' _]. congruence.
  - cbn [negb]. destruct (test emailRegex value); split; done.
Qed.

Lemma validateUsername_ok (value : jsstring) :
  validateUsername value = js ""
  <-> (3 <= length value <= 20)%nat /\ Forall (fun c => is_word_char c = true) value.
Proof.
  unfold validateUsername. rewrite truthy_trim, negb_involutive.
  assert (test usernameRegex value = true
          <-> value <> [] /\ Forall (fun c => is_word_char c = true) value) as Hre
    by (rewrite test_matches; apply matches_Plus_Class).
  destruct (blank value) eqn:Hb.
  - split; [discriminate|]. intros [Hlen Hw]. exfalso.
    destruct value as [|c value]; [simpl in Hlen; lia|].
    inversion Hw as [|? ? Hc _]; subst. apply word_char_not_space in Hc.
    cbn [blank forallb] in Hb. now rewrite Hc in Hb.
  - destruct (length value <? 3)%nat eqn:H3.
    { apply Nat.ltb_lt in H3. split; [discriminate|lia]. }
    destruct (20 <? length value)%nat eqn:H20.
    { apply Nat.ltb_lt in H20. split; [discriminate|lia]. }
    apply Nat.ltb_ge in H3, H20.
    destruct (test usernameRegex value); cbn [negb].
    + destruct Hre as [Hre _]. destruct (Hre eq_refl) as [_ Hw].
      split; [|done]. intros _. split; [lia|done].
    + split; [discriminate|]. intros [_ Hw].
      destruct Hre as [_ Hre]. exfalso.
      assert (false = true) as E; [|discriminate E].
      apply Hre. split; [|done]. intros ->. simpl in H3. lia.
Qed.

Lemma validatePassword_ok (value : jsstring) :
  validatePassword value = js "" <-> (6 <= length value <= 50)%nat.
Proof.
  unfold validatePassword. destruct value as [|c value]; cbn [truthy negb].
  - split; [discriminate|]. simpl. lia.
  - destruct (length (c :: value) <? 6)%nat eqn:H6.
    { apply Nat.ltb_lt in H6. split; [discriminate|lia]. }
    destruct (50 <? length (c :: value))%nat eqn:H50.
    { apply Nat.ltb_lt in H50. split; [discriminate|lia]. }
    apply Nat.ltb_ge in H6, H50. split; [lia|done].
Qed.

(** The sign-up form calls [register] exactly when the user name has
    3 to 20 characters, all of them letters, digits or underscores, the
    e-mail check passes and the password has 6 to 50 characters; it then
    hands on the three fields as they were typed.  Otherwise it stops
    with an error on at least one field. *)
Theorem handleSubmit_registers_valid (username email password : jsstring) :
  let valid :=
    ((3 <= length username <= 20)%nat
     /\ Forall (fun c => is_word_char c = true) username)
    /\ validateEmail email = js ""
    /\ (6 <= length password <= 50)%nat in
  (valid <-> handleSubmit username email password = Registers username email password)
  /\ (~ valid <->
      exists usernameError emailError passwordError,
        handleSubmit username email password
        = Stopped usernameError emailError passwordError
        /\ (usernameError <> [] \/ emailError <> [] \/ passwordError <> [])).
Proof.
  intros valid. subst valid.
  rewrite <- validateUsername_ok, <- validatePassword_ok.
  unfold handleSubmit. change (js "") with (@nil N).
  destruct (validateUsername username) as [|c1 e1];
    destruct (validateEmail email) as [|c2 e2];
    destruct (validatePassword password) as [|c3 e3]; cbn [truthy orb].
  1: { split; [split; done|]. split.
       - intros H. exfalso. apply H. done.
       - intros (? & ? & ? & ? & _). discriminate. }
  all: split;
    [ split; [intros (? & ? & ?); discriminate|discriminate]
    | split;
      [ intros _; eexists _, _, _; split; [reflexivity|];
        first [left; discriminate | right; left; discriminate | right; right; discriminate]
      | intros _ (? & ? & ?); discriminate ] ].
Qed.

End SignUpFacts.

(** ** The stored session *)

Section NumberFacts.

Lemma digit_code (d : Z) :
  0 <= d < 10 ->
  is_digit (48 + Z.to_N d) = true /\ Z.of_N (48 + Z.to_N d - 48) = d
  /\ is_js_space (48 + Z.to_N d) = false.
Proof.
  intros Hd.
  assert (d = 0 \/ d = 1 \/ d = 2 \/ d = 3 \/ d = 4 \/ d = 5 \/ d = 6 \/ d = 7
          \/ d = 8 \/ d = 9) as Hcases by lia.
  repeat (destruct Hcases as [->|Hcases]; [repeat split; reflexivity|]).
  subst d. repeat split; reflexivity.
Qed.

Lemma digits_fuel_value (fuel : nat) (n : Z) (rest : jsstring) :
  0 <= n < 10 ^ Z.of_nat fuel ->
  digits_prefix 0 (digits_fuel fuel n rest) = digits_prefix n rest.
Proof.
  revert n rest. induction fuel as [|fuel IH]; intros n rest Hn.
  - cbn in Hn. assert (n = 0) as -> by lia. reflexivity.
  - rewrite Nat2Z.inj_succ, Z.pow_succ_r in Hn by lia.
    pose proof (Z.div_mod n 10 ltac:(lia)) as Hdm.
    pose proof (Z.mod_pos_bound n 10 ltac:(lia)) as Hmod.
    destruct (digit_code (n mod 10) Hmod) as (Hdig & Hval & _).
    cbn [digits_fuel]. destruct (n / 10 =? 0) eqn:Hq.
    + apply Z.eqb_eq in Hq. cbn [digits_prefix]. rewrite Hdig, Hval.
      f_equal. lia.
    + apply Z.eqb_neq in Hq. rewrite IH.
      * cbn [digits_prefix]. rewrite Hdig, Hval. f_equal. lia.
      * split; [apply Z.div_pos; lia|]. apply Z.div_lt_upper_bound; lia.
Qed.

Lemma digits_fuel_head (fuel : nat) (n : Z) (rest : jsstring) :
  0 <= n < 10 ^ Z.of_nat (S fuel) ->
  exists c r, digits_fuel (S fuel) n rest = c :: r
              /\ is_digit c = true /\ is_js_space c = false.
Proof.
  revert n rest. induction fuel as [|fuel IH]; intros n rest Hn.
  - change (10 ^ Z.of_nat 1) with 10 in Hn.
    destruct (digit_code n Hn) as (Hdig & _ & Hsp).
    cbn [digits_fuel]. rewrite Z.div_small, Z.mod_small by lia. cbn [Z.eqb].
    eexists _, _. done.
  - rewrite Nat2Z.inj_succ, Z.pow_succ_r in Hn by lia.
    pose proof (Z.mod_pos_bound n 10 ltac:(lia)) as Hmod.
    destruct (digit_code (n mod 10) Hmod) as (Hdig & _ & Hsp).
    change (digits_fuel (S (S fuel)) n rest)
      with (if n / 10 =? 0 then (48 + Z.to_N (n mod 10))%N :: rest
            else digits_fuel (S fuel) (n / 10) ((48 + Z.to_N (n mod 10))%N :: rest)).
    destruct (n / 10 =? 0); [eexists _, _; done|].
    apply IH. split; [apply Z.div_pos; lia|]. apply Z.div_lt_upper_bound; lia.
Qed.

Lemma enough_fuel (n : Z) : 0 <= n -> n < 10 ^ Z.of_nat (S (Z.to_nat (Z.log2 n))).
Proof.
  intros Hn. rewrite Nat2Z.inj_succ, Z2Nat.id by apply Z.log2_nonneg.
  destruct (Z.eq_dec n 0) as [->|Hz]; [reflexivity|].
  pose proof (Z.log2_spec n ltac:(lia)) as [_ Hlt].
  eapply Z.lt_le_trans; [exact Hlt|].
  apply Z.pow_le_mono_l. lia.
Qed.

(** A time written by [toString] is read back by [parseInt]. *)
Lemma parseInt_toString (n : Z) : 0 <= n -> parseInt (Number_toString n) = Some n.
Proof.
  intros Hn. unfold Number_toString.
  assert ((n <? 0) = false) as -> by (apply Z.ltb_ge; lia).
  pose proof (enough_fuel n Hn) as Hfuel.
  destruct (digits_fuel_head (Z.to_nat (Z.log2 n)) n [] (conj Hn Hfuel))
    as (c & r & Heq & Hdig & Hsp).
  pose proof (digits_fuel_value (S (Z.to_nat (Z.log2 n))) n [] (conj Hn Hfuel)) as Hval.
  rewrite Heq in *. unfold parseInt. cbn [trimStart]. rewrite Hsp.
  assert ((c =? 45)%N = false /\ (c =? 43)%N = false) as [-> ->].
  { unfold is_digit in Hdig. apply andb_true_iff in Hdig as [H1 H2].
    apply N.leb_le in H1, H2. split; apply N.eqb_neq; lia. }
  unfold unsigned_prefix. rewrite Hdig, Hval. reflexivity.
Qed.

End NumberFacts.

Section StorageFacts.
Import AuthContext.

Lemma find_filter_keep {A} (p q : A -> bool) (l : list A) :
  (forall x, p x = true -> q x = true) ->
  List.find p (List.filter q l) = List.find p l.
Proof.
  intros H. induction l as [|x l IH]; [done|]. cbn [List.filter List.find].
  destruct (q x) eqn:Hq; cbn [List.find].
  - now rewrite IH.
  - destruct (p x) eqn:Hp; [|done]. apply H in Hp. congruence.
Qed.

Lemma getItem_removeItem_same (key : string) (s : Storage) :
  getItem key (removeItem key s) = None.
Proof.
  unfold getItem, removeItem. induction s as [|kv s IH]; [done|].
  cbn [List.filter]. destruct (String.eqb kv.1 key) eqn:Hk; cbn [negb]; [done|].
  cbn [List.find]. now rewrite Hk.
Qed.

Lemma getItem_removeItem_other (key key' : string) (s : Storage) :
  key <> key' -> getItem key (removeItem key' s) = getItem key s.
Proof.
  intros Hne. unfold getItem, removeItem. rewrite find_filter_keep; [done|].
  intros kv Hkv. apply String.eqb_eq in Hkv. apply negb_true_iff, String.eqb_neq.
  congruence.
Qed.

Lemma getItem_setItem_same (key : string) (value : jsstring) (s : Storage) :
  getItem key (setItem key value s) = Some value.
Proof. unfold getItem, setItem. cbn. now rewrite String.eqb_refl. Qed.

Lemma getItem_setItem_other (key key' : string) (value : jsstring) (s : Storage) :
  key <> key' -> getItem key (setItem key' value s) = getItem key s.
Proof.
  intros Hne. unfold getItem at 1. unfold setItem. cbn [List.find fst].
  assert (String.eqb key' key = false) as -> by (apply String.eqb_neq; congruence).
  now apply getItem_removeItem_other.
Qed.

Lemma getItem_clear_session (key : string) (s : Storage) :
  getItem key (clear_session s)
  = if String.eqb key "token" || String.eqb key "user" || String.eqb key "token_expires_at"
    then None else getItem key s.
Proof.
  unfold clear_session.
  destruct (String.eqb key "token_expires_at") eqn:H3.
  { apply String.eqb_eq in H3 as ->. rewrite getItem_removeItem_same. reflexivity. }
  apply String.eqb_neq in H3. rewrite getItem_removeItem_other by done.
  destruct (String.eqb key "user") eqn:H2.
  { apply String.eqb_eq in H2 as ->. rewrite getItem_removeItem_same. reflexivity. }
  apply String.eqb_neq in H2. rewrite getItem_removeItem_other by done.
  destruct (String.eqb key "token") eqn:H1.
  { apply String.eqb_eq in H1 as ->. rewrite getItem_removeItem_same. reflexivity. }
  apply String.eqb_neq in H1. now rewrite getItem_removeItem_other.
Qed.

Lemma present_Some (v : jsstring) : v <> [] -> present (Some v) = true.
Proof. intros H. now apply truthy_true_iff. Qed.

Section WithJSON.
Variable JSON_stringify : AuthResponse -> jsstring.
Variable JSON_parse : jsstring -> option AuthResponse.

Local Abbreviation login := (AuthContext.login JSON_stringify).
Local Abbreviation restore := (AuthContext.restore JSON_parse).

(** After a log-in with Remember me at the time [now], a page loaded
    later restores the user as long as no more than thirty days have
    passed, to the millisecond; after that it restores nobody and clears
    the stored session, so that no token is sent any more.  After a
    log-in without Remember me the page restores the user at any time,
    whatever expiry an earlier log-in had left in the storage. *)
Theorem remembered_session_expires (userData : AuthResponse) (s0 : Storage)
    (now later : Z) :
  0 <= now -> token userData <> [] -> JSON_stringify userData <> [] ->
  let remembered := localStorage (login (inr userData) now true (loaded s0)).1 in
  let unbounded := localStorage (login (inr userData) now false (loaded s0)).1 in
  let restored s :=
    option_map (fun u => {| user := Some u; localStorage := s |})
               (JSON_parse (JSON_stringify userData)) in
  restore later (loaded remembered)
    = (if now + thirty_days <? later then Some (loaded (clear_session remembered))
       else restored remembered)
  /\ authorization (clear_session remembered) = None
  /\ restore later (loaded unbounded) = restored unbounded
  /\ authorization unbounded = Some (js "Bearer " ++ token userData).
Proof.
  intros Hnow Htok Hjson remembered unbounded restored.
  assert (getItem "token" remembered = Some (token userData)
          /\ getItem "user" remembered = Some (JSON_stringify userData)
          /\ getItem "token_expires_at" remembered
             = Some (Number_toString (now + thirty_days))) as (Ht & Hu & He).
  { subst remembered. cbn [AuthContext.login fst localStorage loaded].
    rewrite getItem_setItem_same.
    rewrite !(getItem_setItem_other "token") by discriminate.
    rewrite !(getItem_setItem_other "user" "token_expires_at") by discriminate.
    now rewrite !getItem_setItem_same. }
  assert (getItem "token" unbounded = Some (token userData)
          /\ getItem "user" unbounded = Some (JSON_stringify userData)
          /\ getItem "token_expires_at" unbounded = None) as (Ht' & Hu' & He').
  { subst unbounded. cbn [AuthContext.login fst localStorage loaded].
    rewrite getItem_removeItem_same.
    rewrite !(getItem_removeItem_other _ "token_expires_at") by discriminate.
    rewrite !(getItem_setItem_other "token" "user") by discriminate.
    now rewrite !getItem_setItem_same. }
  assert (Number_toString (now + thirty_days) <> []) as Hne.
  { intros E. pose proof (parseInt_toString (now + thirty_days)) as Hp.
    rewrite E in Hp. unfold thirty_days in Hp. cbn in Hp.
    specialize (Hp ltac:(lia)). discriminate. }
  split; [|split; [|split]].
  - unfold AuthContext.restore. cbn [loaded localStorage user].
    rewrite Ht, Hu, He, !present_Some by done. cbn [andb text].
    rewrite parseInt_toString by (unfold thirty_days; lia).
    destruct (now + thirty_days <? later); [reflexivity|].
    subst restored. cbv beta. destruct (JSON_parse _); reflexivity.
  - unfold authorization. rewrite getItem_clear_session. reflexivity.
  - unfold AuthContext.restore. cbn [loaded localStorage user].
    rewrite Ht', Hu', He', !present_Some by done. cbn [andb text present].
    subst restored. cbv beta. destruct (JSON_parse _); reflexivity.
  - unfold authorization. rewrite Ht', present_Some by done. reflexivity.
Qed.

(** A log-out, and a response with status 401, end the stored session:
    a page loaded afterwards restores nobody and no token is attached to
    a request.  After a 401 the page is sent to the log-in page unless
    it is there already.  A rejection of another kind leaves the storage
    as it was. *)
Theorem session_ends (st : State) (error : Thrown) (pathname : jsstring)
    (s : Storage) (now : Z) :
  (isAuthenticated (logout st) = false
   /\ restore now (loaded (localStorage (logout st)))
      = Some (loaded (localStorage (logout st)))
   /\ authorization (localStorage (logout st)) = None)
  /\ (useFileOperations_useState.is_unauthorized error = true ->
      restore now (loaded (on_rejected error pathname s).1)
      = Some (loaded (on_rejected error pathname s).1)
      /\ authorization (on_rejected error pathname s).1 = None
      /\ ((on_rejected error pathname s).2 = None <-> pathname = js "/login")
      /\ ((on_rejected error pathname s).2 <> None ->
          (on_rejected error pathname s).2 = Some (js "/login")))
  /\ (useFileOperations_useState.is_unauthorized error = false ->
      on_rejected error pathname s = (s, None)).
Proof.
  assert (forall s', restore now (loaded (clear_session s'))
                     = Some (loaded (clear_session s'))
                     /\ authorization (clear_session s') = None) as Hclear.
  { intros s'. unfold AuthContext.restore, authorization.
    cbn [loaded localStorage user]. rewrite !getItem_clear_session. done. }
  split; [|split].
  - split; [reflexivity|]. apply Hclear.
  - intros H401. unfold on_rejected. rewrite H401. cbn [fst snd].
    destruct (Hclear s) as [Hr Ha]. split; [exact Hr|]. split; [exact Ha|].
    destruct (jsstring_eqb pathname (js "/login")) eqn:Hp.
    + apply jsstring_eqb_true in Hp. split; [done|]. intros H. done.
    + apply jsstring_eqb_false in Hp. split; [|done]. split; [discriminate|done].
  - intros H401. unfold on_rejected. now rewrite H401.
Qed.

End WithJSON.
End StorageFacts.

(** ** Worked examples of the further properties *)

Lemma download_task_settles_witness :
  exists t,
    tasks_after (effects (@useFileOperations.batchDownloadFiles plain_runtime listing [1])
                         accepting) = [t]
    /\ ProgressContext.task_type t = TaskDownload
    /\ ProgressContext.auto_removed t = true
    /\ (ProgressContext.task_status t = ProgressContext.Completed
        /\ ProgressContext.task_progress t = 100
        /\ saved_as (effects (@useFileOperations.batchDownloadFiles plain_runtime listing [1])
                             accepting) = [ProgressContext.task_fileName t]
        /\ error_toasts (effects (@useFileOperations.batchDownloadFiles plain_runtime
                                    listing [1]) accepting) = []).
Proof.
  apply (@download_task_settles plain_runtime listing [1] accepting). discriminate.
Defined.


(** An upload of [a.txt] and [b.txt] to a back end with no room for
    [a.txt].  When the refusal arrives first the hook returns while
    [b.txt] is still being sent, and its task completes afterwards;
    when the answer for [b.txt] arrives first both tasks are settled at
    the return. *)
Lemma upload_returns_at_first_refusal :
  let hook := useFileOperations.uploadFiles (js "/") [js "a.txt"; js "b.txt"] in
  List.map ProgressContext.task_status
           (tasks_after (effects hook (in_order no_room_for_a_txt)))
  = [ProgressContext.Error; ProgressContext.Active]
  /\ List.map ProgressContext.task_status
              (tasks_after (effects_in_the_end hook (in_order no_room_for_a_txt)))
     = [ProgressContext.Error; ProgressContext.Completed]
  /\ List.map ProgressContext.task_status
              (tasks_after (effects hook (latest_first no_room_for_a_txt)))
     = [ProgressContext.Error; ProgressContext.Completed]
  /\ effects_later hook (latest_first no_room_for_a_txt) = [].
Proof. vm_compute. repeat split. Qed.

Lemma remembered_session_expires_witness :
  AuthContext.restore (fun _ => None) 2592000001
    (loaded (AuthContext.localStorage
               (AuthContext.login AuthContext.token (inr alice) 0 true (loaded [])).1))
  = Some (loaded (AuthContext.clear_session
                    (AuthContext.localStorage
                       (AuthContext.login AuthContext.token (inr alice) 0 true
                          (loaded [])).1))).
Proof.
  apply (remembered_session_expires AuthContext.token (fun _ => None) alice [] 0
           2592000001); [lia|discriminate|discriminate].
Defined.
